(** * GMRES on the Arnoldi process: a shallow embedding of the notebooks

    The development follows the Python of [GMRES_torch.ipynb]
    ([arnoldi_one_iter], [back_substitution], [precon_GMRES_restarted],
    [discretise_poisson]), of the Arnoldi notebooks ([arnoldi_one_iter],
    [arnoldi], [compute_krylov_basis], [assert_matrices_equal_with_threshold])
    and of [GMRES_BASIC.ipynb] ([GMRES]).

    Scalars are kept behind the interface [Scalar]: the control flow of the
    solvers only needs the arithmetic operations, the square root, the
    absolute value and the two comparisons the code performs.  Everything
    that is structural (which exception is raised, how long the residual
    trace is, what a restart changes) is proved for every implementation of
    that interface, IEEE arithmetic with its NaN and infinities included.
    The statements that are about exact values are proved at the instance
    [R_scalar], the real numbers; the instance [IEEE.float_scalar], binary64
    arithmetic, runs the same definitions on machine numbers.

    The libraries raise when the operands of [@], [+], [-] or [dot] do not
    conform; the operations below are total instead (they stop at the end
    of the shorter operand), and nothing is claimed about what a call with
    ill-shaped operands raises.  [r0.float()] and the [clone()] calls only
    change the representation of a value and are left out. *)

From Stdlib Require Import ZArith Reals Lra Lia String.
From Stdlib Require Floats DecimalString.
From stdpp Require Import base list.

#[local] Open Scope nat_scope.

(** ** Exceptions and outcomes *)

(** The exceptions the modelled code can end with.  [ValueError] is raised
    by [back_substitution] itself; [UnboundLocalError] is what Python raises
    when a [return] reads a local name that no executed statement bound;
    [IndexError] is what numpy raises for an index outside an array;
    [AssertionError] comes from the [assert] statements of [arnoldi] and of
    [assert_matrices_equal_with_threshold]. *)
Inductive exn : Type :=
| ValueError (msg : string)
| UnboundLocalError (name : string)
| IndexError (msg : string)
| AssertionError (msg : string).

(** [OutOfFuel] is not a Python outcome: it marks a loop model that was cut
    before the loop condition became false.  [precon_GMRES_restarted_total]
    below shows that the driver never produces it. *)
Inductive outcome (A : Type) : Type :=
| Return (a : A)
| Raise (e : exn)
| OutOfFuel.
Arguments Return {A} a.
Arguments Raise {A} e.
Arguments OutOfFuel {A}.

#[global] Instance outcome_ret : MRet outcome := fun A a => Return a.

#[global] Instance outcome_bind : MBind outcome := fun A B f m =>
  match m with
  | Return a => f a
  | Raise e => Raise e
  | OutOfFuel => OutOfFuel
  end.

Definition raises {A : Type} (m : outcome A) : Prop := ∃ e, m = Raise e.

Ltac simpl_outcome :=
  unfold mbind, mret, outcome_bind, outcome_ret in *; simpl in *.

(** ** The scalar interface *)

Class Scalar (T : Type) : Type := {
  s_zero : T;
  s_add : T → T → T;
  s_sub : T → T → T;
  s_mul : T → T → T;
  s_div : T → T → T;
  s_sqrt : T → T;
  s_abs : T → T;
  (** [s_leb x y] is the test [x <= y], [s_ltb x y] the test [x < y]. *)
  s_leb : T → T → bool;
  s_ltb : T → T → bool;
  (** the literal [1e-12], default of [tol] *)
  s_1em12 : T
}.

Section Numerics.
Context {T : Type} `{Scalar T}.

(** ** Vectors: one-dimensional arrays *)

#[local] Abbreviation vec := (list T) (only parsing).

(** [torch.zeros(n)] *)
Definition zeros (n : nat) : vec := replicate n s_zero.

(** [torch.sum(v)] *)
Definition vsum (v : vec) : T := foldr s_add s_zero v.

(** [v * w], elementwise *)
Definition vmul (v w : vec) : vec := zip_with s_mul v w.

(** [v + w] and [v - w] *)
Definition vadd (v w : vec) : vec := zip_with s_add v w.
Definition vsub (v w : vec) : vec := zip_with s_sub v w.

(** [c * v] and [v / c] for a scalar [c] *)
Definition vscale (c : T) (v : vec) : vec := s_mul c <$> v.
Definition vdiv (v : vec) (c : T) : vec := (fun x => s_div x c) <$> v.

(** [torch.dot(v, w)] *)
Definition dot (v w : vec) : T := vsum (vmul v w).

(** [torch.norm(v, p=2)] *)
Definition norm (v : vec) : T := s_sqrt (dot v v).

(** [v[i]], read with the zero default outside the array (the code never
    reads there) *)
Definition vget (v : vec) (i : nat) : T := default s_zero (v !! i).

(** ** Two-dimensional tensors

    A dense tensor is its shape and its entries.  Entries outside the shape
    are never read by what follows. *)
Record tensor : Type := Tensor {
  rows : nat;
  cols : nat;
  entry : nat → nat → T
}.

(** a literal such as [torch.tensor([[1, 1], [3, 4]])] *)
Definition of_rows (l : list vec) : tensor :=
  Tensor (length l) (length (default [] (head l)))
         (fun i j => vget (default [] (l !! i)) j).

(** [torch.zeros((m, n))] *)
Definition tzeros (m n : nat) : tensor := Tensor m n (fun _ _ => s_zero).

(** [M[i, j0:]], and the whole row [M[i]] *)
Definition row_from (M : tensor) (i j0 : nat) : vec :=
  entry M i <$> seq j0 (cols M - j0).
Definition row (M : tensor) (i : nat) : vec := row_from M i 0.

(** [M[:, j]] *)
Definition col (M : tensor) (j : nat) : vec :=
  (fun i => entry M i j) <$> seq 0 (rows M).

(** [M @ v] *)
Definition matvec (M : tensor) (v : vec) : vec :=
  (fun i => dot (row M i) v) <$> seq 0 (rows M).

(** [M[:r, :c]] *)
Definition sub (M : tensor) (r c : nat) : tensor :=
  Tensor (min r (rows M)) (min c (cols M)) (entry M).

(** [M[:-1, :]] *)
Definition drop_last_row (M : tensor) : tensor :=
  Tensor (rows M - 1) (cols M) (entry M).

(** [M[:r, j] = v] *)
Definition set_col (M : tensor) (r j : nat) (v : vec) : tensor :=
  Tensor (rows M) (cols M)
         (fun i j' => if (j' =? j) && (i <? r) then vget v i else entry M i j').

(** [M[i, j] = x] *)
Definition set_entry (M : tensor) (i j : nat) (x : T) : tensor :=
  Tensor (rows M) (cols M)
         (fun i' j' => if (i' =? i) && (j' =? j) then x else entry M i' j').

(** [M[:, :-1]] *)
Definition drop_last_col (M : tensor) : tensor :=
  Tensor (rows M) (cols M - 1) (entry M).

(** [torch.cat((M, N), dim=1)] *)
Definition cat_cols (M N : tensor) : tensor :=
  Tensor (rows M) (cols M + cols N)
         (fun i j => if j <? cols M then entry M i j else entry N i (j - cols M)).

(** ** [arnoldi_one_iter]

    [prec] is the preconditioner of the torch notebook; the numpy notebook
    has no such argument and is the instance where [prec] is the identity. *)

(** one turn of [for j in range(k + 1)]: [h_k[j] = dot(v_new, V[:, j])]
    and then [v_new = v_new - h_k[j] * V[:, j]] *)
Definition arnoldi_orth (V : tensor) (st : vec * vec) (j : nat) : vec * vec :=
  let '(h_k, v_new) := st in
  let h_k := <[j := dot v_new (col V j)]> h_k in
  (h_k, vsub v_new (vscale (vget h_k j) (col V j))).

Definition arnoldi_one_iter (prec : vec → vec) (A V : tensor) (k : nat) (tol : T)
  : vec * option vec :=
  let h_k := zeros (k + 2) in
  let v_new := prec (matvec A (col V k)) in
  let '(h_k, v_new) := foldl (arnoldi_orth V) (h_k, v_new) (seq 0 (k + 1)) in
  let h_k := <[k + 1 := norm v_new]> h_k in
  if s_leb (vget h_k (k + 1)) tol then (h_k, None)
  else (h_k, Some (vdiv v_new (vget h_k (k + 1)))).

(** ** [back_substitution] *)

(** one turn of [for i in range(n - 1, -1, -1)] *)
Definition back_substitution_row (A : tensor) (b : vec) (x : vec) (i : nat) : vec :=
  <[i := s_div (s_sub (vget b i) (vsum (vmul (row_from A i (i + 1)) (drop (i + 1) x))))
               (entry A i i)]> x.

Definition back_substitution (A : tensor) (b : vec) : outcome vec :=
  let n := length b in
  if negb (rows A =? n) || negb (cols A =? n) then
    Raise (ValueError "Matrix A must be square.")
  else if negb (rows A =? length b) then
    Raise (ValueError "Dimensions of A and b are incompatible.")
  else
    Return (foldl (back_substitution_row A b) (zeros n) (rev (seq 0 n))).

(** ** [precon_GMRES_restarted]

    [lg.qr] is torch's routine, not code of the notebooks: the model takes
    the entries it computes as the parameter [qr] and gives the two factors
    the shapes that [mode = 'complete'] documents, [Q] of shape (m, m) and
    [R] of shape (m, n) for an input of shape (m, n). *)
Definition lg_qr (qr : tensor → tensor * tensor) (M : tensor) : tensor * tensor :=
  let '(Q, R) := qr M in
  (Tensor (rows M) (rows M) (entry Q), Tensor (rows M) (cols M) (entry R)).

(** The local variables of the driver.  [xk] is bound by the loop body
    only, hence the option. *)
Record gmres_state : Type := GmresState {
  st_x0 : vec;
  st_r0 : vec;
  st_p0 : T;
  st_beta : T;
  st_pk : T;
  st_k : nat;
  st_total_k : nat;
  st_error_list : list T;
  st_V : tensor;
  st_H : tensor;
  st_xk : option vec
}.

(** [pk > epsilon * p0 and total_k < k_max] *)
Definition gmres_continue (epsilon : T) (k_max : Z) (st : gmres_state) : bool :=
  s_ltb (s_mul epsilon (st_p0 st)) (st_pk st) && (Z.of_nat (st_total_k st) <? k_max)%Z.

(** The loop body up to and including [total_k += 1]. *)
Definition gmres_iter (qr : tensor → tensor * tensor) (prec : vec → vec)
    (A : tensor) (n : nat) (st : gmres_state) : outcome gmres_state :=
  let k := st_k st in
  let V := cat_cols (st_V st) (tzeros n 1) in
  let H := cat_cols (st_H st) (tzeros (n + 1) 1) in
  let '(h_k, v_new) := arnoldi_one_iter prec A V k s_1em12 in
  let H := set_col H (k + 2) k h_k in
  let '(error_list, V) :=
    match v_new with
    | None => (st_error_list st ++ [s_zero], V)
    | Some v => (st_error_list st, set_col V (rows V) (k + 1) v)
    end in
  let '(Q, R) := lg_qr qr (sub H (k + 2) (k + 1)) in
  let pk := s_abs (s_mul (st_beta st) (entry Q 0 k)) in
  let error_list := error_list ++ [pk] in
  yk ← back_substitution (drop_last_row R) (vscale (st_beta st) (removelast (row Q 0)));
  let xk := vadd (st_x0 st) (matvec (sub V (rows V) (k + 1)) yk) in
  Return {| st_x0 := st_x0 st; st_r0 := st_r0 st; st_p0 := st_p0 st;
            st_beta := st_beta st; st_pk := pk; st_k := k + 1;
            st_total_k := st_total_k st + 1; st_error_list := error_list;
            st_V := V; st_H := H; st_xk := Some xk |}.

(** The block under [if restart is not None and k == restart]; it is only
    reached after an iteration, when [xk] is bound. *)
Definition gmres_restart (prec : vec → vec) (A : tensor) (b : vec) (n : nat)
    (st : gmres_state) : gmres_state :=
  let x0 := default (st_x0 st) (st_xk st) in
  let r0 := prec (vsub b (matvec A x0)) in
  let p0 := norm r0 in
  {| st_x0 := x0; st_r0 := r0; st_p0 := p0; st_beta := p0; st_pk := p0;
     st_k := 0; st_total_k := st_total_k st; st_error_list := st_error_list st;
     st_V := set_col (tzeros n 1) n 0 (vdiv r0 p0); st_H := tzeros (n + 1) 1;
     st_xk := st_xk st |}.

Definition gmres_maybe_restart (prec : vec → vec) (A : tensor) (b : vec) (n : nat)
    (restart : option Z) (st : gmres_state) : gmres_state :=
  match restart with
  | Some r => if (Z.of_nat (st_k st) =? r)%Z then gmres_restart prec A b n st else st
  | None => st
  end.

(** The [while] loop, cut after [fuel] turns. *)
Fixpoint gmres_loop (qr : tensor → tensor * tensor) (prec : vec → vec)
    (A : tensor) (b : vec) (n : nat) (k_max : Z) (restart : option Z) (epsilon : T)
    (fuel : nat) (st : gmres_state) : outcome gmres_state :=
  if gmres_continue epsilon k_max st then
    match fuel with
    | 0 => OutOfFuel
    | S fuel =>
        st ← gmres_iter qr prec A n st;
        gmres_loop qr prec A b n k_max restart epsilon fuel
                   (gmres_maybe_restart prec A b n restart st)
    end
  else Return st.

(** [k_max = n] when [k_max is None or k_max > n] *)
Definition clamp_k_max (k_max : option Z) (n : nat) : Z :=
  match k_max with
  | None => Z.of_nat n
  | Some m => if (Z.of_nat n <? m)%Z then Z.of_nat n else m
  end.

(** The state at the loop head. *)
Definition gmres_init (prec : vec → vec) (A : tensor) (b : vec) (x0 : option vec)
  : gmres_state :=
  let x0 := default (zeros (length b)) x0 in
  let n := rows A in
  let r0 := prec (vsub b (matvec A x0)) in
  let p0 := norm r0 in
  {| st_x0 := x0; st_r0 := r0; st_p0 := p0; st_beta := p0; st_pk := p0;
     st_k := 0; st_total_k := 0; st_error_list := [p0];
     st_V := set_col (tzeros n 1) n 0 (vdiv r0 p0); st_H := tzeros (n + 1) 1;
     st_xk := None |}.

(** [return xk, error_list, total_k] *)
Definition gmres_return (st : gmres_state) : outcome (vec * list T * nat) :=
  match st_xk st with
  | Some xk => Return (xk, st_error_list st, st_total_k st)
  | None => Raise (UnboundLocalError "xk")
  end.

Definition precon_GMRES_restarted (qr : tensor → tensor * tensor) (prec : vec → vec)
    (A : tensor) (b : vec) (x0 : option vec) (k_max restart : option Z) (epsilon : T)
  : outcome (vec * list T * nat) :=
  let n := rows A in
  let k_max := clamp_k_max k_max n in
  st ← gmres_loop qr prec A b n k_max restart epsilon (Z.to_nat k_max)
                  (gmres_init prec A b x0);
  gmres_return st.

(** ** [arnoldi], of [Arnoldi_full.ipynb]

    The first [assert] of [arnoldi] reads a name [x0] that is not among its
    parameters, a global of the notebook: [x0g] stands for it. *)

(** one turn of [for j in range(k)]: [H[j, k - 1] = V[:, j] @ w] and then
    [w -= H[j, k - 1] * V[:, j]] *)
Definition arnoldi_orth_full (V : tensor) (k : nat) (st : tensor * vec) (j : nat)
  : tensor * vec :=
  let '(Hm, w) := st in
  let Hm := set_entry Hm j (k - 1) (dot (col V j) w) in
  (Hm, vsub w (vscale (entry Hm j (k - 1)) (col V j))).

(** [for k in range(1, m + 1)], with its early [return V, H] *)
Fixpoint arnoldi_loop (A : tensor) (tol : T) (ks : list nat) (V Hm : tensor)
  : tensor * tensor :=
  match ks with
  | [] => (V, Hm)
  | k :: ks =>
      let w := matvec A (col V (k - 1)) in
      let '(Hm, w) := foldl (arnoldi_orth_full V k) (Hm, w) (seq 0 k) in
      let Hm := set_entry Hm k (k - 1) (norm w) in
      if s_leb (entry Hm k (k - 1)) tol then (V, Hm)
      else arnoldi_loop A tol ks (set_col V (rows V) k (vdiv w (entry Hm k (k - 1)))) Hm
  end.

Definition arnoldi (x0g : vec) (A : tensor) (b r0 : vec) (m : nat) (tol : T)
  : outcome (tensor * tensor) :=
  let n := rows A in
  if negb ((cols A =? n) && (length b =? n) && (length x0g =? n)) then
    Raise (AssertionError "Matrix and vector dimensions don not match")
  else if negb (0 <? m) then
    Raise (AssertionError "m must be a positive integer")
  else
    let m := min m n in
    let V := tzeros n (m + 1) in
    let Hm := tzeros (m + 1) m in
    let beta := norm r0 in
    let V := set_col V (rows V) 0 (vdiv r0 beta) in
    Return (arnoldi_loop A tol (seq 1 m) V Hm).

(** ** [GMRES], the numpy solver

    [GMRES_BASIC.ipynb] imports [arnoldi] and [back_substitution] from a
    module [functions] that is not among the sources.  The two names are the
    fields of the record [functions], an argument of [GMRES]:
    [functions_arnoldi fns A b r0 k] is the call [arnoldi(A, b, r0, k)],
    of which the call site expects [V_{k+1}] and [H_{k+1, k}], and
    [functions_back_substitution fns R y] is the call
    [back_substitution(R, y)].  Either call may raise, or not return.
    Nothing is assumed of the two functions here; what a statement about
    [GMRES] needs of them is a hypothesis of that statement. *)
Record functions : Type := Functions {
  functions_arnoldi : tensor → vec → vec → nat → outcome (tensor * tensor);
  functions_back_substitution : tensor → vec → outcome vec
}.

(** The variables of [GMRES] that its loop changes. *)
Record basic_state : Type := BasicState {
  bs_k : nat;
  bs_pk : T;
  bs_xk : option vec
}.

(** [pk > epsilon * p0 and k < k_max] *)
Definition GMRES_continue (epsilon p0 : T) (k_max : Z) (st : basic_state) : bool :=
  s_ltb (s_mul epsilon p0) (bs_pk st) && (Z.of_nat (bs_k st) <? k_max)%Z.

(** the loop body *)
Definition GMRES_iter (fns : functions) (qr : tensor → tensor * tensor) (A : tensor)
    (b x0 r0 : vec) (beta : T) (st : basic_state) : outcome basic_state :=
  let k := bs_k st + 1 in
  '(V, Hm) ← functions_arnoldi fns A b r0 k;
  let '(Q, R) := lg_qr qr Hm in
  let pk := s_abs (s_mul beta (entry Q 0 k)) in
  yk ← functions_back_substitution fns (drop_last_row R)
         (vscale beta (removelast (row Q 0)));
  let xk := vadd x0 (matvec (drop_last_col V) yk) in
  Return {| bs_k := k; bs_pk := pk; bs_xk := Some xk |}.

Fixpoint GMRES_loop (fns : functions) (qr : tensor → tensor * tensor) (A : tensor)
    (b x0 r0 : vec) (beta epsilon p0 : T) (k_max : Z) (fuel : nat) (st : basic_state)
  : outcome basic_state :=
  if GMRES_continue epsilon p0 k_max st then
    match fuel with
    | 0 => OutOfFuel
    | S fuel =>
        st ← GMRES_iter fns qr A b x0 r0 beta st;
        GMRES_loop fns qr A b x0 r0 beta epsilon p0 k_max fuel st
    end
  else Return st.

Definition GMRES (fns : functions) (qr : tensor → tensor * tensor) (A : tensor)
    (b x0 : vec) (k_max : option Z) (epsilon : T) : outcome (vec * T) :=
  let n := rows A in
  let k_max := clamp_k_max k_max n in
  let r0 := vsub b (matvec A x0) in
  let p0 := norm r0 in
  st ← GMRES_loop fns qr A b x0 r0 p0 epsilon p0 k_max (Z.to_nat k_max)
                  {| bs_k := 0; bs_pk := p0; bs_xk := None |};
  match bs_xk st with
  | Some xk => Return (xk, bs_pk st)
  | None => Raise (UnboundLocalError "xk")
  end.

End Numerics.

Arguments tensor : clear implicits.
Arguments gmres_state : clear implicits.
Arguments basic_state : clear implicits.
Arguments functions : clear implicits.

(** ** The Arnoldi step in the words of the specification

    The step "computes [w = Op(V[:,k])], then for j = 0..k:
    [h[j] = <w, V[:,j]>; w <- w - h[j] V[:,j]]; sets [h[k+1] = ||w||];
    if [h[k+1] <= tol] returns the column with no new basis vector,
    otherwise normalizes [v_new = w / h[k+1]] and returns both". *)
Section ArnoldiSpec.
Context {T : Type} `{Scalar T}.
#[local] Abbreviation vec := (list T) (only parsing).

(** the sweep over the basis vectors, in the order they are given *)
Fixpoint gram_schmidt_sweep (basis : list vec) (w : vec) : list T * vec :=
  match basis with
  | [] => ([], w)
  | v :: basis =>
      let h := dot w v in
      let '(hs, w') := gram_schmidt_sweep basis (vsub w (vscale h v)) in
      (h :: hs, w')
  end.

Definition arnoldi_step_spec (Op : vec → vec) (V : tensor T) (k : nat) (tol : T)
  : vec * option vec :=
  let '(hs, w) := gram_schmidt_sweep (col V <$> seq 0 (k + 1)) (Op (col V k)) in
  let h_last := norm w in
  if s_leb h_last tol then (hs ++ [h_last], None)
  else (hs ++ [h_last], Some (vdiv w h_last)).

End ArnoldiSpec.

(** ** Relations on the states of the driver *)

Section DriverRelations.
Context {T : Type} `{Scalar T}.

(** Two loop outcomes that the [return] statement cannot tell apart. *)
Definition same_output (o1 o2 : outcome (gmres_state T)) : Prop :=
  match o1, o2 with
  | Return s1, Return s2 =>
      st_xk s1 = st_xk s2 ∧ st_error_list s1 = st_error_list s2
      ∧ st_total_k s1 = st_total_k s2
  | Raise e1, Raise e2 => e1 = e2
  | OutOfFuel, OutOfFuel => True
  | _, _ => False
  end.

(** The shapes at the loop head: [H] has [n + 1] rows and one column more
    than the cycle counter, which never exceeds the total counter. *)
Definition gmres_shapes (n : nat) (st : gmres_state T) : Prop :=
  rows (st_H st) = n + 1 ∧ cols (st_H st) = st_k st + 1 ∧ st_k st ≤ st_total_k st.

(** A run that has restarted, against a fresh run from the iterate [x1] it
    restarted from: [sa] is a state of the first, whose cycles before the
    restart took [c] iterations and left the trace [t1]; [sb] is the state of
    the second after the same number of turns.  The variables the loop body
    reads agree; the counter and the trace of [sa] continue those of the
    earlier cycles, and [xk] is bound in [sa] from the start. *)
Definition resumed (t1 : list T) (c : nat) (x1 : list T) (sa sb : gmres_state T) : Prop :=
  st_x0 sa = st_x0 sb ∧ st_r0 sa = st_r0 sb ∧ st_p0 sa = st_p0 sb
  ∧ st_beta sa = st_beta sb ∧ st_pk sa = st_pk sb ∧ st_k sa = st_k sb
  ∧ st_V sa = st_V sb ∧ st_H sa = st_H sb
  ∧ st_total_k sa = c + st_total_k sb
  ∧ (∃ seed rest, st_error_list sb = seed :: rest ∧ st_error_list sa = t1 ++ rest)
  ∧ st_xk sa = Some (default x1 (st_xk sb)).

End DriverRelations.

(** ** Real numbers as scalars: exact arithmetic *)

Definition Rleb (x y : R) : bool := if Rle_dec x y then true else false.
Definition Rltb (x y : R) : bool := if Rlt_dec x y then true else false.

#[global] Instance R_scalar : Scalar R := {|
  s_zero := 0%R;
  s_add := Rplus;
  s_sub := Rminus;
  s_mul := Rmult;
  s_div := Rdiv;
  s_sqrt := sqrt;
  s_abs := Rabs;
  s_leb := Rleb;
  s_ltb := Rltb;
  s_1em12 := (/ 1000000000000)%R
|}.

(** A complete QR factorisation of [M]: [Q] square and orthogonal (its
    columns are orthonormal, and so are its rows), [Rf] of the shape of [M]
    and upper trapezoidal, [Q Rf = M].  This is what the documentation of
    [lg.qr] promises for [mode = 'complete']. *)
Definition is_complete_qr (M : tensor R) (QR : tensor R * tensor R) : Prop :=
  let '(Q, Rf) := QR in
  rows Q = rows M ∧ cols Q = rows M ∧ rows Rf = rows M ∧ cols Rf = cols M
  ∧ (∀ i j, i < rows M → j < rows M →
       dot (col Q i) (col Q j) = if i =? j then 1%R else 0%R)
  ∧ (∀ i j, i < rows M → j < rows M →
       dot (row Q i) (row Q j) = if i =? j then 1%R else 0%R)
  ∧ (∀ i j, i < rows M → j < cols M → dot (row Q i) (col Rf j) = entry M i j)
  ∧ (∀ i j, j < i → i < rows M → entry Rf i j = 0%R).

(** The factorisation of an input that is upper trapezoidal already:
    [Q] is the identity and [Rf] the input. *)
Definition qr_of_trapezoidal (M : tensor R) : tensor R * tensor R :=
  (Tensor (rows M) (rows M) (fun i j => if i =? j then 1%R else 0%R), M).

(** The residual norm [||beta e1 - H y||] of the least-squares problem. *)
Definition ls_residual (beta : R) (Hm : tensor R) (y : list R) : R :=
  norm (vsub (beta :: zeros (rows Hm - 1)) (matvec Hm y)).

(** The finite sum [f 0 + ... + f (n - 1)]. *)
Definition rsum (f : nat → R) (n : nat) : R := vsum (f <$> seq 0 n).

(** The rows [m ..] of the system hold for [x]. *)
Definition solved_from (A : tensor R) (y x : list R) (m : nat) : Prop :=
  length x = length y
  ∧ ∀ i, m ≤ i < length y →
      (entry A i i * vget x i + vsum (vmul (row_from A i (i + 1)) (drop (i + 1) x))
       = vget y i)%R.

(** A one-dimensional system, [2 x = 1], and the Hessenberg matrix of its
    first (and only) Arnoldi step: the Krylov space is exhausted at once. *)
Definition A_2 : tensor R := of_rows [[2%R]].
Definition b_1 : list R := [1%R].
Definition hessenberg_2 : tensor R :=
  sub (set_col (cat_cols (tzeros 2 1) (tzeros 2 1)) 2 0 [2%R; 0%R]) 2 1.

(** The same matrix as [arnoldi] builds it. *)
Definition hessenberg_2_basic : tensor R :=
  set_entry (set_entry (tzeros 2 1) 0 0 2%R) 1 0 0%R.

(** A system whose right-hand side is zero: the initial residual of the
    zero guess vanishes. *)
Definition A_1 : tensor R := of_rows [[1%R]].
Definition b_0 : list R := [0%R].

(** The matrix that exchanges two coordinates, and a basis of two columns
    whose first is the first unit vector: one Arnoldi step from it gives the
    second unit vector. *)
Definition A_swap : tensor R := of_rows [[0%R; 1%R]; [1%R; 0%R]].
Definition V_e1 : tensor R := of_rows [[1%R; 0%R]; [0%R; 0%R]].

(** ** IEEE binary64 numbers as scalars: the arithmetic of numpy *)

Module IEEE.
Import PrimFloat.

Definition f0 : float := 0%float.
Definition f1 : float := 1%float.
Definition f2 : float := 2%float.

#[global] Instance float_scalar : Scalar float := {|
  s_zero := 0%float;
  s_add := add;
  s_sub := sub;
  s_mul := mul;
  s_div := div;
  s_sqrt := sqrt;
  s_abs := abs;
  s_leb := leb;
  s_ltb := ltb;
  s_1em12 := div 1%float 1000000000000%float
|}.

(** [Q] the identity, [Rf] the input: the factorisation of an input that
    is upper trapezoidal already. *)
Definition qr_identity (M : tensor float) : tensor float * tensor float :=
  (Tensor (rows M) (rows M) (fun i j => if (i =? j)%nat then 1%float else 0%float), M).

End IEEE.

(** ** [discretise_poisson]

    The generator fills three preallocated arrays with the coordinate
    triples of the matrix and one with the right-hand side.  [np.empty]
    returns arrays of arbitrary content: [junk a t] is what slot [t] of the
    allocation number [a] holds.  The values stored are integers (held in
    [float64] arrays, exactly), modelled in [Z]; the grid size [N] is a
    natural number. *)

Section Poisson.
Variable junk : nat → nat → Z.
#[local] Open Scope Z_scope.

(** [np.empty(n)], allocation number [a] *)
Definition np_empty (a n : nat) : list Z := junk a <$> seq 0 n.

(** [a[i] = v] *)
Definition store (a : list Z) (i : nat) (v : Z) : outcome (list Z) :=
  if (i <? length a)%nat then Return (<[i := v]> a)
  else Raise (IndexError "index is out of bounds").

(** [a[lo:hi] = v]: a slice is clipped to the array, it never raises *)
Definition store_slice (a : list Z) (lo hi : nat) (v : Z) : list Z :=
  foldl (fun a t => <[t := v]> a) a (seq lo (hi - lo)).

(** a [for] loop whose body may raise *)
Fixpoint for_each {S X : Type} (body : S → X → outcome S) (s : S) (l : list X)
  : outcome S :=
  match l with
  | [] => Return s
  | x :: l => s ← body s x; for_each body s l
  end.

Record poisson_state : Type := PoissonState {
  ps_row_ind : list Z;
  ps_col_ind : list Z;
  ps_data : list Z;
  ps_f : list Z;
  ps_count : nat
}.

(** [i == 0 or i == N - 1 or j == 0 or j == N - 1] *)
Definition is_boundary (N i j : nat) : bool :=
  (Z.of_nat i =? 0) || (Z.of_nat i =? Z.of_nat N - 1)
  || (Z.of_nat j =? 0) || (Z.of_nat j =? Z.of_nat N - 1).

(** the body of the inner loop *)
Definition poisson_node (N j : nat) (st : poisson_state) (i : nat)
  : outcome poisson_state :=
  let n := Z.of_nat N in
  let p := Z.of_nat j * n + Z.of_nat i in
  let count := ps_count st in
  if is_boundary N i j then
    row_ind ← store (ps_row_ind st) count p;
    col_ind ← store (ps_col_ind st) count p;
    data ← store (ps_data st) count 1;
    f ← store (ps_f st) (j * N + i) 0;
    Return {| ps_row_ind := row_ind; ps_col_ind := col_ind; ps_data := data;
              ps_f := f; ps_count := (count + 1)%nat |}
  else
    let row_ind := store_slice (ps_row_ind st) count (count + 5) p in
    col_ind ← store (ps_col_ind st) count p;
    col_ind ← store col_ind (count + 1) (p + 1);
    col_ind ← store col_ind (count + 2) (p - 1);
    col_ind ← store col_ind (count + 3) ((Z.of_nat j + 1) * n + Z.of_nat i);
    col_ind ← store col_ind (count + 4) ((Z.of_nat j - 1) * n + Z.of_nat i);
    data ← store (ps_data st) count (4 * (n - 1) ^ 2);
    let data := store_slice data (count + 1) (count + 5) (- (n - 1) ^ 2) in
    f ← store (ps_f st) (j * N + i) 1;
    Return {| ps_row_ind := row_ind; ps_col_ind := col_ind; ps_data := data;
              ps_f := f; ps_count := (count + 5)%nat |}.

(** [coo_matrix((data, (row_ind, col_ind)), shape)]: the triples as they
    are; the entry at (r, c) of the matrix they stand for is the sum of
    the data of the triples at (r, c). *)
Record coo_matrix : Type := CooMatrix {
  coo_shape : nat * nat;
  coo_row : list Z;
  coo_col : list Z;
  coo_data : list Z
}.

Definition triples_entry (ts : list (Z * (Z * Z))) (r c : Z) : Z :=
  foldr (fun t acc => if (t.1 =? r) && (t.2.1 =? c) then t.2.2 + acc else acc) 0 ts.

Definition coo_entry (M : coo_matrix) (r c : Z) : Z :=
  triples_entry (zip (coo_row M) (zip (coo_col M) (coo_data M))) r c.

Definition discretise_poisson (N : nat) : outcome (coo_matrix * list Z) :=
  let n := Z.of_nat N in
  let nelements := Z.to_nat (5 * n ^ 2 - 16 * n + 16) in
  let st := {| ps_row_ind := np_empty 0 nelements; ps_col_ind := np_empty 1 nelements;
               ps_data := np_empty 2 nelements; ps_f := np_empty 3 (N * N);
               ps_count := 0%nat |} in
  st ← for_each (fun st j => for_each (poisson_node N j) st (seq 0 N)) st (seq 0 N);
  Return (CooMatrix (N ^ 2, N ^ 2)%nat (ps_row_ind st) (ps_col_ind st) (ps_data st),
          ps_f st).

(** What one grid node contributes: the triples of its row, and its
    forcing term. *)
Definition node_triples (N j i : nat) : list (Z * (Z * Z)) :=
  let n := Z.of_nat N in
  let p := Z.of_nat j * n + Z.of_nat i in
  if is_boundary N i j then [(p, (p, 1))]
  else [(p, (p, 4 * (n - 1) ^ 2)); (p, (p + 1, - (n - 1) ^ 2));
        (p, (p - 1, - (n - 1) ^ 2)); (p, ((Z.of_nat j + 1) * n + Z.of_nat i, - (n - 1) ^ 2));
        (p, ((Z.of_nat j - 1) * n + Z.of_nat i, - (n - 1) ^ 2))].

Definition node_forcing (N j i : nat) : Z := if is_boundary N i j then 0 else 1.

(** The first [length ts] slots of the three arrays hold the triples [ts];
    [rest] slots are still as allocated. *)
Definition filled (st : poisson_state) (ts : list (Z * (Z * Z))) (rest : nat) : Prop :=
  ps_count st = length ts
  ∧ ∃ r1 r2 r3 : list Z,
      ps_row_ind st = ts.*1 ++ r1 ∧ ps_col_ind st = ts.*2.*1 ++ r2
      ∧ ps_data st = ts.*2.*2 ++ r3
      ∧ length r1 = rest ∧ length r2 = rest ∧ length r3 = rest.

(** The grid nodes in the order the two loops visit them. *)
Definition grid (N : nat) : list (nat * nat) := j ← seq 0 N; pair j <$> seq 0 N.

Definition grid_triples (N : nat) (nodes : list (nat * nat)) : list (Z * (Z * Z)) :=
  nodes ≫= (fun ji => node_triples N ji.1 ji.2).

Definition grid_forcing (N : nat) (f : list Z) (nodes : list (nat * nat)) : list Z :=
  foldl (fun f ji => <[(ji.1 * N + ji.2)%nat := node_forcing N ji.1 ji.2]> f) f nodes.

End Poisson.

(** ** The Arnoldi notebook: the Krylov basis and the test of the relation *)

Section ArnoldiNotebook.
Context {T : Type} `{Scalar T}.
#[local] Abbreviation vec := (list T) (only parsing).

(** *** [compute_krylov_basis]

    [np.empty((n, m))] returns an array of arbitrary content: [junk i j] is
    what it holds at [(i, j)]. *)

(** one turn of [for i in range(1, m)]: [basis[:, i] = A @ basis[:, i - 1]] *)
Definition krylov_step (A basis : tensor T) (i : nat) : tensor T :=
  set_col basis (rows basis) i (matvec A (col basis (i - 1))).

Definition compute_krylov_basis (junk : nat → nat → T) (A : tensor T) (b x0 : vec)
    (m : nat) : outcome (tensor T) :=
  let n := rows A in
  let r0 := vsub b (matvec A x0) in
  let basis := Tensor n m junk in
  if m =? 0 then
    Raise (IndexError "index 0 is out of bounds for axis 1 with size 0")
  else
    let basis := set_col basis (rows basis) 0 r0 in
    Return (foldl (krylov_step A) basis (seq 1 (m - 1))).

(** *** [assert_matrices_equal_with_threshold]

    The notebook calls it on [A @ V[:, :-1]] and [V @ H]. *)

(** [M @ N] for two matrices *)
Definition matmul (M N : tensor T) : tensor T :=
  Tensor (rows M) (cols N) (fun i j => dot (row M i) (col N j)).

(** the decimal numeral an f-string prints for a non-negative integer *)
Definition nat_str (n : nat) : string :=
  DecimalString.NilEmpty.string_of_uint (Nat.to_uint n).

(** the [assert] of the inner loop *)
Definition assert_entry (matrix1 matrix2 : tensor T) (threshold : T) (i j : nat)
  : outcome unit :=
  if s_leb (s_abs (s_sub (entry matrix1 i j) (entry matrix2 i j))) threshold then
    Return tt
  else
    Raise (AssertionError
             (String.append "Element at position ("
                (String.append (nat_str i)
                   (String.append ", "
                      (String.append (nat_str j) ") is not within the threshold"))))).

(** [matrix1[0]] fails on an array without rows, after the first [assert]
    has passed. *)
Definition assert_matrices_equal_with_threshold (matrix1 matrix2 : tensor T)
    (threshold : T) : outcome unit :=
  if negb (rows matrix1 =? rows matrix2) then
    Raise (AssertionError "Matrices have different number of rows")
  else if rows matrix1 =? 0 then
    Raise (IndexError "index 0 is out of bounds for axis 0 with size 0")
  else if negb (cols matrix1 =? cols matrix2) then
    Raise (AssertionError "Matrices have different number of columns")
  else
    for_each (fun _ i =>
                for_each (fun _ j => assert_entry matrix1 matrix2 threshold i j)
                         tt (seq 0 (cols matrix1)))
             tt (seq 0 (rows matrix1)).

End ArnoldiNotebook.

(** * Properties *)

Section NumericsFacts.
Context {T : Type} `{Scalar T}.
#[local] Abbreviation vec := (list T) (only parsing).

Lemma length_zeros (n : nat) : length (zeros n) = n.
Proof. apply length_replicate. Qed.

Lemma vget_insert_eq (v : vec) (i : nat) (x : T) :
  i < length v → vget (<[i := x]> v) i = x.
Proof. intros Hi. unfold vget. by rewrite list_lookup_insert_eq. Qed.

(** *** [back_substitution]: exceptions and shape *)

Lemma length_back_substitution_rows (A : tensor T) (b x : vec) (l : list nat) :
  length (foldl (back_substitution_row A b) x l) = length x.
Proof.
  revert x. induction l as [|i l IH]; intros x; simpl; [done|].
  rewrite IH. unfold back_substitution_row. apply length_insert.
Qed.

Lemma back_substitution_square (A : tensor T) (b : vec) :
  rows A = length b → cols A = length b →
  ∃ z, back_substitution A b = Return z ∧ length z = length b.
Proof.
  intros Hr Hc. unfold back_substitution. rewrite Hr, Hc, !Nat.eqb_refl. simpl.
  eexists. split; [done|]. by rewrite length_back_substitution_rows, length_zeros.
Qed.

(** What the loop leaves in [x]: each entry is the quotient by the pivot
    that the loop body stored, computed from the entries behind it.  The
    later turns write in front of it only. *)
Lemma back_substitution_row_entries (A : tensor T) (b x : vec) (m : nat) :
  m < length b → length x = length b →
  (∀ i, S m ≤ i < length b →
     vget x i
     = s_div (s_sub (vget b i) (vsum (vmul (row_from A i (i + 1)) (drop (i + 1) x))))
             (entry A i i)) →
  ∀ i, m ≤ i < length b →
    vget (back_substitution_row A b x m) i
    = s_div (s_sub (vget b i)
               (vsum (vmul (row_from A i (i + 1))
                           (drop (i + 1) (back_substitution_row A b x m)))))
            (entry A i i).
Proof.
  intros Hm Hlen Hx i Hi. unfold back_substitution_row.
  rewrite drop_insert_lt by lia.
  destruct (decide (i = m)) as [->|Hne].
  - by rewrite vget_insert_eq by lia.
  - unfold vget at 1. rewrite list_lookup_insert_ne by lia. apply Hx. lia.
Qed.

Lemma back_substitution_rows_entries (A : tensor T) (b : vec) (m : nat) :
  m ≤ length b →
  ∀ x, length x = length b →
    (∀ i, m ≤ i < length b →
       vget x i
       = s_div (s_sub (vget b i) (vsum (vmul (row_from A i (i + 1)) (drop (i + 1) x))))
               (entry A i i)) →
    ∀ i, i < length b →
      vget (foldl (back_substitution_row A b) x (rev (seq 0 m))) i
      = s_div (s_sub (vget b i)
                 (vsum (vmul (row_from A i (i + 1))
                             (drop (i + 1)
                                (foldl (back_substitution_row A b) x (rev (seq 0 m)))))))
              (entry A i i).
Proof.
  induction m as [|m IH]; intros Hm x Hlen Hx i Hi; [apply Hx; lia|].
  rewrite seq_S, rev_app_distr. simpl.
  apply IH; [lia| |by apply back_substitution_row_entries|done].
  unfold back_substitution_row. by rewrite length_insert.
Qed.

Lemma back_substitution_entries (A : tensor T) (b z : vec) :
  back_substitution A b = Return z →
  length z = length b
  ∧ ∀ i, i < length b →
      vget z i
      = s_div (s_sub (vget b i) (vsum (vmul (row_from A i (i + 1)) (drop (i + 1) z))))
              (entry A i i).
Proof.
  unfold back_substitution.
  destruct (_ || _); [done|]. destruct (negb _); [done|]. intros [= <-]. split.
  - by rewrite length_back_substitution_rows, length_zeros.
  - apply back_substitution_rows_entries; [done|apply length_zeros|]. intros i Hi. lia.
Qed.

(** *** [arnoldi_one_iter] against the specification's step *)

Lemma length_gram_schmidt_sweep (basis : list vec) (w : vec) :
  length (fst (gram_schmidt_sweep basis w)) = length basis.
Proof.
  revert w. induction basis as [|v basis IH]; intros w; simpl; [done|].
  specialize (IH (vsub w (vscale (dot w v) v))).
  destruct (gram_schmidt_sweep basis _) as [hs w']. simpl in *. by rewrite IH.
Qed.

(** The loop fills the zero-initialised column from the left: after the
    turns [j0 .. j0 + m - 1] the entries written are those of the sweep. *)
Lemma arnoldi_orth_fold (V : tensor T) (m : nat) :
  ∀ (j0 r : nat) (hs w : vec), length hs = j0 →
    foldl (arnoldi_orth V) (hs ++ zeros (m + r), w) (seq j0 m) =
    (hs ++ fst (gram_schmidt_sweep (col V <$> seq j0 m) w) ++ zeros r,
     snd (gram_schmidt_sweep (col V <$> seq j0 m) w)).
Proof.
  induction m as [|m IH]; intros j0 r hs w Hlen; csimpl; [done|].
  set (d := dot w (col V j0)).
  assert (Hins : <[j0 := d]> (hs ++ s_zero :: zeros (m + r)) = hs ++ d :: zeros (m + r)).
  { rewrite insert_app_r_alt by lia. by replace (j0 - length hs) with 0 by lia. }
  unfold zeros in *. simpl. rewrite Hins.
  replace (vget (hs ++ d :: replicate (m + r) s_zero) j0) with d.
  2: { unfold vget. rewrite lookup_app_r by lia.
       by replace (j0 - length hs) with 0 by lia. }
  rewrite (cons_middle d hs), app_assoc.
  rewrite (IH (S j0) r (hs ++ [d])) by (rewrite length_app; simpl; lia).
  destruct (gram_schmidt_sweep (col V <$> seq (S j0) m) _) as [hs' w'].
  simpl. by rewrite <- app_assoc.
Qed.

(** C2. The code's Arnoldi step is the step of the specification for the
    operator [v ↦ prec (A @ v)]: the candidate [Op(V[:,k])] is swept against
    the columns 0..k in increasing order with [h[j] = <w, V[:,j]>] and
    [w <- w - h[j] V[:,j]], [h[k+1]] is the norm of what is left, and the
    result is the column alone when [h[k+1] <= tol] and the column with
    [w / h[k+1]] otherwise; the column has length [k + 2] either way. *)
Theorem arnoldi_one_iter_spec (prec : vec → vec) (A V : tensor T) (k : nat) (tol : T) :
  arnoldi_one_iter prec A V k tol
    = arnoldi_step_spec (fun v => prec (matvec A v)) V k tol
  ∧ length (fst (arnoldi_one_iter prec A V k tol)) = k + 2.
Proof.
  assert (Heq : arnoldi_one_iter prec A V k tol
                = arnoldi_step_spec (fun v => prec (matvec A v)) V k tol).
  { unfold arnoldi_one_iter, arnoldi_step_spec.
    replace (zeros (k + 2)) with ([] ++ zeros ((k + 1) + 1)) by (simpl; f_equal; lia).
    rewrite (arnoldi_orth_fold V (k + 1) 0 1 []) by done.
    pose proof (length_gram_schmidt_sweep (col V <$> seq 0 (k + 1))
                  (prec (matvec A (col V k)))) as Hlen.
    rewrite length_fmap, length_seq in Hlen.
    destruct (gram_schmidt_sweep _ _) as [hs w]. simpl in *.
    assert (Hins : <[k + 1 := norm w]> (hs ++ zeros 1) = hs ++ [norm w]).
    { rewrite insert_app_r_alt by lia. by replace (k + 1 - length hs) with 0 by lia. }
    rewrite Hins.
    replace (vget (hs ++ [norm w]) (k + 1)) with (norm w); [done|].
    unfold vget. rewrite lookup_app_r by lia.
    by replace (k + 1 - length hs) with 0 by lia. }
  split; [exact Heq|]. rewrite Heq. unfold arnoldi_step_spec.
  pose proof (length_gram_schmidt_sweep (col V <$> seq 0 (k + 1))
                (prec (matvec A (col V k)))) as Hlen.
  rewrite length_fmap, length_seq in Hlen.
  destruct (gram_schmidt_sweep _ _) as [hs w]. simpl in *.
  destruct (s_leb _ _); simpl; rewrite length_app; simpl; lia.
Qed.

(** *** The driver: initial guess *)

(** C10. Leaving [x0] out is the same call as passing the zero vector of
    the length of [b]: the vector [zeros_like(b)] has as many entries as [b],
    all of them zero, and the two calls have the same outcome. *)
Theorem precon_GMRES_restarted_default_x0 (qr : tensor T → tensor T * tensor T)
    (prec : vec → vec) (A : tensor T) (b : vec) (k_max restart : option Z) (epsilon : T) :
  precon_GMRES_restarted qr prec A b None k_max restart epsilon
  = precon_GMRES_restarted qr prec A b (Some (zeros (length b))) k_max restart epsilon
  ∧ length (zeros (length b)) = length b
  ∧ Forall (fun x => x = s_zero) (zeros (length b))
  ∧ st_x0 (gmres_init prec A b None) = zeros (length b).
Proof.
  split; [reflexivity|]. split; [apply length_zeros|]. split; [|reflexivity].
  unfold zeros. apply Forall_replicate. reflexivity.
Qed.

(** *** The driver: the loop *)

(** What one pass through the loop body does to the counters, the trace
    and [xk]. *)
Lemma gmres_iter_Return (qr : tensor T → tensor T * tensor T) (prec : vec → vec)
    (A : tensor T) (n : nat) (st st' : gmres_state T) :
  gmres_iter qr prec A n st = Return st' →
  st_k st' = st_k st + 1
  ∧ st_total_k st' = st_total_k st + 1
  ∧ st_p0 st' = st_p0 st
  ∧ is_Some (st_xk st')
  ∧ length (st_error_list st')
    = length (st_error_list st)
      + match (arnoldi_one_iter prec A (cat_cols (st_V st) (tzeros n 1))
                                  (st_k st) s_1em12).2 with
        | Some _ => 1
        | None => 2
        end.
Proof.
  unfold gmres_iter.
  destruct (arnoldi_one_iter _ _ _ _ _) as [h_k [v|]]; simpl;
    destruct (lg_qr _ _) as [Q R];
    (destruct (back_substitution _ _) as [yk|e|]; simpl_outcome; [|done..]);
    intros [= <-]; simpl; rewrite ?length_app; simpl; repeat split; eauto; lia.
Qed.

Lemma gmres_iter_not_OutOfFuel (qr : tensor T → tensor T * tensor T) (prec : vec → vec)
    (A : tensor T) (n : nat) (st : gmres_state T) :
  gmres_iter qr prec A n st ≠ OutOfFuel.
Proof.
  unfold gmres_iter.
  destruct (arnoldi_one_iter _ _ _ _ _) as [h_k [v|]]; simpl;
    destruct (lg_qr _ _) as [Q R]; unfold back_substitution;
    (destruct (_ || _); [done|]); destruct (negb _); done.
Qed.

Lemma gmres_maybe_restart_total_k (prec : vec → vec) (A : tensor T) (b : vec) (n : nat)
    (restart : option Z) (st : gmres_state T) :
  st_total_k (gmres_maybe_restart prec A b n restart st) = st_total_k st.
Proof.
  unfold gmres_maybe_restart. destruct restart as [r|]; [|done].
  by destruct (_ =? _)%Z.
Qed.

(** The loop leaves after at most [k_max - total_k] turns: a model cut
    there has run the loop to its end. *)
Lemma gmres_loop_fuel_enough (qr : tensor T → tensor T * tensor T) (prec : vec → vec)
    (A : tensor T) (b : vec) (n : nat) (k_max : Z) (restart : option Z) (epsilon : T)
    (fuel : nat) :
  ∀ st : gmres_state T,
    (k_max - Z.of_nat (st_total_k st) ≤ Z.of_nat fuel)%Z →
    gmres_loop qr prec A b n k_max restart epsilon fuel st ≠ OutOfFuel.
Proof.
  induction fuel as [|fuel IH]; intros st Hfuel; simpl.
  - unfold gmres_continue.
    destruct (Z.ltb_spec (Z.of_nat (st_total_k st)) k_max); [lia|].
    by rewrite andb_false_r.
  - destruct (gmres_continue epsilon k_max st) eqn:Hc; [|done].
    destruct (gmres_iter qr prec A n st) as [st'| |] eqn:Hit; simpl; [|done|].
    + apply IH. rewrite gmres_maybe_restart_total_k.
      apply gmres_iter_Return in Hit as (_ & -> & _). lia.
    + by apply gmres_iter_not_OutOfFuel in Hit.
Qed.

(** The driver is total: it returns or raises. *)
Lemma precon_GMRES_restarted_total (qr : tensor T → tensor T * tensor T) (prec : vec → vec)
    (A : tensor T) (b : vec) (x0 : option vec) (k_max restart : option Z) (epsilon : T) :
  precon_GMRES_restarted qr prec A b x0 k_max restart epsilon ≠ OutOfFuel.
Proof.
  unfold precon_GMRES_restarted.
  destruct (gmres_loop _ _ _ _ _ _ _ _ _ _) as [st| |] eqn:Hloop; simpl.
  - unfold gmres_return. by destruct (st_xk st).
  - done.
  - apply gmres_loop_fuel_enough in Hloop; [done|]. simpl. lia.
Qed.

(** *** The driver: restart period equal to the iteration bound *)

Lemma same_output_refl (o : outcome (gmres_state T)) : same_output o o.
Proof. by destruct o. Qed.

Lemma same_output_return (o1 o2 : outcome (gmres_state T)) :
  same_output o1 o2 → (o1 ≫= gmres_return) = (o2 ≫= gmres_return).
Proof.
  destruct o1 as [s1| |], o2 as [s2| |]; simpl; try done.
  - intros (Hx & He & Ht). unfold gmres_return. by rewrite Hx, He, Ht.
  - by intros ->.
Qed.

(** While no restart has happened the cycle counter is the total counter;
    a restart period [r] at or above the bound can then only fire on the
    turn that also ends the loop, and the restart block writes none of the
    returned variables. *)
Lemma gmres_loop_restart_at_bound (qr : tensor T → tensor T * tensor T) (prec : vec → vec)
    (A : tensor T) (b : vec) (n : nat) (k_max r : Z) (epsilon : T) (fuel : nat) :
  (k_max ≤ r)%Z →
  ∀ st : gmres_state T,
    st_k st = st_total_k st →
    same_output (gmres_loop qr prec A b n k_max (Some r) epsilon fuel st)
                (gmres_loop qr prec A b n k_max None epsilon fuel st).
Proof.
  intros Hr. induction fuel as [|fuel IH]; intros st Hk; simpl.
  - by destruct (gmres_continue epsilon k_max st).
  - destruct (gmres_continue epsilon k_max st) eqn:Hc; [|by simpl].
    destruct (gmres_iter qr prec A n st) as [st'| |] eqn:Hit; simpl; [|done..].
    apply gmres_iter_Return in Hit as (Hk' & Ht' & _).
    destruct (Z.eqb_spec (Z.of_nat (st_k st')) r) as [Heq|Hne].
    + (* the restart fires: the bound is reached, both loops stop here *)
      unfold gmres_continue in Hc. apply andb_prop in Hc as [_ Hlt].
      apply Z.ltb_lt in Hlt.
      assert (Hstop : ∀ s, st_total_k s = st_total_k st' →
                gmres_continue epsilon k_max s = false).
      { intros s Hs. unfold gmres_continue.
        destruct (Z.ltb_spec (Z.of_nat (st_total_k s)) k_max); [lia|].
        by rewrite andb_false_r. }
      destruct fuel; simpl; rewrite !Hstop by done; simpl; done.
    + apply IH. lia.
Qed.

(** A restart period at or above the effective bound changes nothing. *)
Lemma precon_GMRES_restarted_restart_late (qr : tensor T → tensor T * tensor T)
    (prec : vec → vec) (A : tensor T) (b : vec) (x0 : option vec) (k_max : option Z)
    (r : Z) (epsilon : T) :
  (clamp_k_max k_max (rows A) ≤ r)%Z →
  precon_GMRES_restarted qr prec A b x0 k_max (Some r) epsilon
  = precon_GMRES_restarted qr prec A b x0 k_max None epsilon.
Proof.
  intros Hr. unfold precon_GMRES_restarted. apply same_output_return.
  by apply gmres_loop_restart_at_bound.
Qed.

(** C7. With the restart period set to the iteration bound [k_max] the
    driver returns what it returns with no restart at all: the same
    solution vector, the same residual trace and the same iteration count
    (and the same exception when it raises). *)
Theorem precon_GMRES_restarted_restart_k_max (qr : tensor T → tensor T * tensor T)
    (prec : vec → vec) (A : tensor T) (b : vec) (x0 : option vec) (k_max : option Z)
    (epsilon : T) :
  precon_GMRES_restarted qr prec A b x0 k_max k_max epsilon
  = precon_GMRES_restarted qr prec A b x0 k_max None epsilon.
Proof.
  destruct k_max as [k_max|]; [|reflexivity].
  apply precon_GMRES_restarted_restart_late.
  unfold clamp_k_max. destruct (Z.ltb_spec (Z.of_nat (rows A)) k_max); lia.
Qed.

End NumericsFacts.

(** ** The driver never fails inside the loop *)

(** *** [back_substitution]: the dimension error and the zero pivot *)

Lemma SFeqb_zero_r (f : SpecFloat.spec_float) :
  SpecFloat.SFeqb f (SpecFloat.S754_zero false) = true → ∃ s, f = SpecFloat.S754_zero s.
Proof.
  destruct f as [s|s| |s m e]; simpl; try discriminate.
  - intros _. by exists s.
  - by destruct s.
  - unfold SpecFloat.SFeqb. simpl. by destruct s.
Qed.

(** In binary64 arithmetic a quotient by a zero, of either sign, is an
    infinity or a NaN, whatever is divided. *)
Lemma div_zero_not_finite (x y : PrimFloat.float) :
  PrimFloat.eqb y IEEE.f0 = true →
  PrimFloat.is_nan (PrimFloat.div x y) || PrimFloat.is_infinity (PrimFloat.div x y) = true.
Proof.
  rewrite FloatAxioms.eqb_spec. intros Hy.
  apply SFeqb_zero_r in Hy as [s Hy].
  unfold PrimFloat.is_nan, PrimFloat.is_infinity.
  rewrite !FloatAxioms.eqb_spec, FloatAxioms.abs_spec, FloatAxioms.div_spec, Hy.
  destruct (FloatOps.Prim2SF x) as [sx|sx| |sx m e]; try destruct sx, s; reflexivity.
Qed.

(** C5. In every arithmetic, [back_substitution] raises its dimension error,
    a [ValueError], exactly when [A] is not of shape (m, m) for the length
    [m] of [b], and it raises nothing else.  On a square system of that size
    it returns a vector [z] of length [m] in which every entry is the
    quotient by the pivot, [z[i] = (b[i] - sum(A[i, i+1:] * z[i+1:])) / A[i, i]],
    whatever the pivot is: no pivot is tested.  In binary64 arithmetic the
    entry at a zero pivot is therefore an infinity or a NaN, and the call
    has returned. *)
Theorem back_substitution_dimension_error :
  (∀ (T : Type) (ST : Scalar T) (A : tensor T) (b : list T),
     ((∃ msg, back_substitution A b = Raise (ValueError msg))
        ↔ ¬ (rows A = length b ∧ cols A = length b))
     ∧ (raises (back_substitution A b) ↔ ¬ (rows A = length b ∧ cols A = length b))
     ∧ (rows A = length b ∧ cols A = length b →
          ∃ z, back_substitution A b = Return z ∧ length z = length b
               ∧ ∀ i, i < length b →
                   vget z i
                   = s_div (s_sub (vget b i)
                              (vsum (vmul (row_from A i (i + 1)) (drop (i + 1) z))))
                           (entry A i i)))
  ∧ (∀ (A : tensor PrimFloat.float) (b z : list PrimFloat.float) (i : nat),
       back_substitution A b = Return z → i < length b →
       PrimFloat.eqb (entry A i i) IEEE.f0 = true →
       PrimFloat.is_nan (vget z i) || PrimFloat.is_infinity (vget z i) = true).
Proof.
  split.
  - intros T ST A b.
    assert (Hsq : rows A = length b ∧ cols A = length b →
              ∃ z, back_substitution A b = Return z ∧ length z = length b
                   ∧ ∀ i, i < length b →
                       vget z i
                       = s_div (s_sub (vget b i)
                                  (vsum (vmul (row_from A i (i + 1)) (drop (i + 1) z))))
                               (entry A i i)).
    { intros [Hr Hc]. destruct (back_substitution_square A b Hr Hc) as (z & Hz & _).
      exists z. split; [done|]. by apply back_substitution_entries. }
    split; [|split; [|exact Hsq]].
    + split.
      * intros [msg Hmsg] Hshape. destruct (Hsq Hshape) as (z & Hz & _). congruence.
      * intros Hn. unfold back_substitution.
        destruct (Nat.eqb_spec (rows A) (length b)) as [Hr|Hr];
          destruct (Nat.eqb_spec (cols A) (length b)) as [Hc|Hc]; simpl; eauto.
        by destruct Hn.
    + split.
      * intros [e He] Hshape. destruct (Hsq Hshape) as (z & Hz & _). congruence.
      * intros Hn. unfold raises, back_substitution.
        destruct (Nat.eqb_spec (rows A) (length b)) as [Hr|Hr];
          destruct (Nat.eqb_spec (cols A) (length b)) as [Hc|Hc]; simpl; eauto.
        by destruct Hn.
  - intros A b z i Hz Hi Hpivot.
    destruct (back_substitution_entries A b z Hz) as [_ Hentries].
    rewrite (Hentries i Hi). by apply div_zero_not_finite.
Qed.

Section DriverOutcome.
Context {T : Type} `{Scalar T}.
#[local] Abbreviation vec := (list T) (only parsing).

Lemma gmres_init_shapes (prec : vec → vec) (A : tensor T) (b : vec) (x0 : option vec) :
  gmres_shapes (rows A) (gmres_init prec A b x0).
Proof. unfold gmres_shapes, gmres_init. simpl. lia. Qed.

Lemma gmres_maybe_restart_shapes (prec : vec → vec) (A : tensor T) (b : vec) (n : nat)
    (restart : option Z) (st : gmres_state T) :
  gmres_shapes n st → gmres_shapes n (gmres_maybe_restart prec A b n restart st).
Proof.
  intros Hst. unfold gmres_maybe_restart. destruct restart as [r|]; [|done].
  destruct (_ =? _)%Z; [|done]. unfold gmres_shapes, gmres_restart. simpl. lia.
Qed.

Lemma gmres_maybe_restart_xk (prec : vec → vec) (A : tensor T) (b : vec) (n : nat)
    (restart : option Z) (st : gmres_state T) :
  st_xk (gmres_maybe_restart prec A b n restart st) = st_xk st.
Proof.
  unfold gmres_maybe_restart. destruct restart as [r|]; [|done].
  by destruct (_ =? _)%Z.
Qed.

(** The triangular system handed to [back_substitution] is square of size
    [k + 1] as long as [k < n]: the body raises nothing. *)
Lemma gmres_iter_returns (qr : tensor T → tensor T * tensor T) (prec : vec → vec)
    (A : tensor T) (n : nat) (st : gmres_state T) :
  gmres_shapes n st → st_k st < n →
  ∃ st', gmres_iter qr prec A n st = Return st' ∧ gmres_shapes n st'.
Proof.
  intros (Hr & Hc & Hk) Hlt. unfold gmres_iter.
  destruct (arnoldi_one_iter _ _ _ _ _) as [h_k v_new].
  set (Hs := sub _ _ _).
  assert (HrS : rows Hs = st_k st + 2) by (unfold Hs; simpl; lia).
  assert (HcS : cols Hs = st_k st + 1) by (unfold Hs; simpl; lia).
  unfold lg_qr. destruct (qr Hs) as [Q Rf].
  set (rhs := vscale _ _). set (Rt := drop_last_row _).
  assert (Hlen : length rhs = st_k st + 1).
  { unfold rhs, vscale, row, row_from. rewrite length_fmap, removelast_firstn_len.
    rewrite length_take, length_fmap, length_seq. simpl. lia. }
  destruct (back_substitution_square Rt rhs) as (yk & Hyk & _);
    [unfold Rt; simpl; lia..|].
  destruct v_new as [v|]; simpl; rewrite Hyk; simpl_outcome;
    (eexists; split; [reflexivity|]); unfold gmres_shapes; simpl; lia.
Qed.

Lemma gmres_loop_returns (qr : tensor T → tensor T * tensor T) (prec : vec → vec)
    (A : tensor T) (b : vec) (n : nat) (k_max : Z) (restart : option Z) (epsilon : T)
    (fuel : nat) :
  (k_max ≤ Z.of_nat n)%Z →
  ∀ st : gmres_state T,
    gmres_shapes n st →
    (k_max - Z.of_nat (st_total_k st) ≤ Z.of_nat fuel)%Z →
    ∃ st', gmres_loop qr prec A b n k_max restart epsilon fuel st = Return st'
           ∧ st_total_k st ≤ st_total_k st'
           ∧ (if gmres_continue epsilon k_max st
              then is_Some (st_xk st') ∧ st_total_k st < st_total_k st'
              else st' = st).
Proof.
  intros Hn. induction fuel as [|fuel IH]; intros st Hst Hfuel; simpl.
  - destruct (gmres_continue epsilon k_max st) eqn:Hc; [|eauto].
    unfold gmres_continue in Hc. apply andb_prop in Hc as [_ Hc].
    apply Z.ltb_lt in Hc. lia.
  - destruct (gmres_continue epsilon k_max st) eqn:Hc; [|eauto].
    pose proof Hc as Hc'. unfold gmres_continue in Hc'.
    apply andb_prop in Hc' as [_ Hlt]. apply Z.ltb_lt in Hlt.
    destruct (gmres_iter_returns qr prec A n st Hst) as (st1 & Hit & Hst1).
    { destruct Hst as (_ & _ & ?). lia. }
    rewrite Hit. simpl_outcome.
    pose proof (gmres_iter_Return _ _ _ _ _ _ Hit) as (_ & Ht & _ & Hxk & _).
    set (st2 := gmres_maybe_restart prec A b n restart st1).
    destruct (IH st2) as (st' & Hloop & Hle & Hcase).
    { by apply gmres_maybe_restart_shapes. }
    { unfold st2. rewrite gmres_maybe_restart_total_k. lia. }
    exists st'. split; [exact Hloop|].
    assert (Ht2 : st_total_k st2 = st_total_k st + 1).
    { unfold st2. by rewrite gmres_maybe_restart_total_k. }
    split; [lia|]. split; [|lia].
    destruct (gmres_continue epsilon k_max st2); [tauto|].
    subst st'. unfold st2. by rewrite gmres_maybe_restart_xk.
Qed.

(** The two ways the call can end: the loop is skipped and the [return]
    finds [xk] unbound, or the loop runs at least once and the call returns
    its triple.  No [ValueError] leaves the loop. *)
Lemma precon_GMRES_restarted_outcome (qr : tensor T → tensor T * tensor T)
    (prec : vec → vec) (A : tensor T) (b : vec) (x0 : option vec)
    (k_max restart : option Z) (epsilon : T) :
  if gmres_continue epsilon (clamp_k_max k_max (rows A)) (gmres_init prec A b x0)
  then ∃ x trace total,
         precon_GMRES_restarted qr prec A b x0 k_max restart epsilon
         = Return (x, trace, total) ∧ 1 ≤ total
  else precon_GMRES_restarted qr prec A b x0 k_max restart epsilon
       = Raise (UnboundLocalError "xk").
Proof.
  unfold precon_GMRES_restarted.
  set (K := clamp_k_max k_max (rows A)). set (st0 := gmres_init prec A b x0).
  destruct (gmres_loop_returns qr prec A b (rows A) K restart epsilon (Z.to_nat K))
    with (st := st0) as (st' & Hloop & Hle & Hcase).
  - unfold K, clamp_k_max. destruct k_max as [m|]; [|lia].
    destruct (Z.ltb_spec (Z.of_nat (rows A)) m); lia.
  - apply gmres_init_shapes.
  - simpl. lia.
  - rewrite Hloop. simpl_outcome.
    destruct (gmres_continue epsilon K st0).
    + destruct Hcase as [[xk Hxk] Hlt]. unfold gmres_return. rewrite Hxk.
      eexists _, _, _. split; [reflexivity|]. simpl in Hlt. lia.
    + by subst st'.
Qed.

(** *** The length of the residual trace *)

Lemma gmres_maybe_restart_error_list (prec : vec → vec) (A : tensor T) (b : vec) (n : nat)
    (restart : option Z) (st : gmres_state T) :
  st_error_list (gmres_maybe_restart prec A b n restart st) = st_error_list st.
Proof.
  unfold gmres_maybe_restart. destruct restart as [r|]; [|done].
  by destruct (_ =? _)%Z.
Qed.

Lemma gmres_loop_trace_bounds (qr : tensor T → tensor T * tensor T) (prec : vec → vec)
    (A : tensor T) (b : vec) (n : nat) (k_max : Z) (restart : option Z) (epsilon : T)
    (fuel : nat) :
  ∀ st st' : gmres_state T,
    gmres_loop qr prec A b n k_max restart epsilon fuel st = Return st' →
    st_total_k st + 1 ≤ length (st_error_list st) ≤ 2 * st_total_k st + 1 →
    st_total_k st' + 1 ≤ length (st_error_list st') ≤ 2 * st_total_k st' + 1.
Proof.
  induction fuel as [|fuel IH]; intros st st' Hloop Hst; simpl in Hloop.
  - destruct (gmres_continue epsilon k_max st); [done|]. by injection Hloop as <-.
  - destruct (gmres_continue epsilon k_max st); [|by injection Hloop as <-].
    destruct (gmres_iter qr prec A n st) as [st1| |] eqn:Hit; simpl_outcome; [|done..].
    apply gmres_iter_Return in Hit as (_ & Ht & _ & _ & Hlen).
    apply (IH _ _ Hloop).
    rewrite gmres_maybe_restart_total_k, gmres_maybe_restart_error_list.
    destruct (arnoldi_one_iter _ _ _ _ _).2; lia.
Qed.

(** X1. Every iteration appends one value or two: a returned trace has
    between [total_k + 1] and [2 total_k + 1] entries. *)
Lemma precon_GMRES_restarted_trace_bounds (qr : tensor T → tensor T * tensor T)
    (prec : vec → vec) (A : tensor T) (b : vec) (x0 : option vec)
    (k_max restart : option Z) (epsilon : T) (x : vec) (trace : list T) (total : nat) :
  precon_GMRES_restarted qr prec A b x0 k_max restart epsilon = Return (x, trace, total) →
  total + 1 ≤ length trace ≤ 2 * total + 1.
Proof.
  unfold precon_GMRES_restarted.
  destruct (gmres_loop _ _ _ _ _ _ _ _ _ _) as [st| |] eqn:Hloop; simpl_outcome; [|done..].
  unfold gmres_return. destruct (st_xk st); [|done]. intros [= _ <- <-].
  apply (gmres_loop_trace_bounds _ _ _ _ _ _ _ _ _ _ _ Hloop). simpl. lia.
Qed.

End DriverOutcome.

(** ** The numpy solver *)

Section BasicFacts.
Context {T : Type} `{Scalar T}.
#[local] Abbreviation vec := (list T) (only parsing).

Lemma arnoldi_orth_full_shape (V : tensor T) (k : nat) (js : list nat) :
  ∀ (Hm : tensor T) (w : vec),
    rows (foldl (arnoldi_orth_full V k) (Hm, w) js).1 = rows Hm
    ∧ cols (foldl (arnoldi_orth_full V k) (Hm, w) js).1 = cols Hm.
Proof.
  induction js as [|j js IH]; intros Hm w; cbn [foldl]; [done|].
  destruct (arnoldi_orth_full V k (Hm, w) j) as [Hm1 w1] eqn:Hstep.
  destruct (IH Hm1 w1) as [Hr Hc]. rewrite Hr, Hc.
  unfold arnoldi_orth_full in Hstep. by injection Hstep as <- _.
Qed.

Lemma arnoldi_loop_shape (A : tensor T) (tol : T) (ks : list nat) :
  ∀ V Hm : tensor T,
    rows (arnoldi_loop A tol ks V Hm).2 = rows Hm
    ∧ cols (arnoldi_loop A tol ks V Hm).2 = cols Hm.
Proof.
  induction ks as [|k ks IH]; intros V Hm; cbn [arnoldi_loop]; [done|].
  pose proof (arnoldi_orth_full_shape V k (seq 0 k) Hm (matvec A (col V (k - 1))))
    as [Hr Hc].
  destruct (foldl _ _ _) as [Hm' w]. cbn [fst] in Hr, Hc.
  set (Hm2 := set_entry Hm' k (k - 1) (norm w)).
  destruct (s_leb _ _); [done|].
  destruct (IH (set_col V (rows V) k (vdiv w (entry Hm2 k (k - 1)))) Hm2) as [Hr' Hc'].
  by rewrite Hr', Hc'.
Qed.

(** [arnoldi] returns a Hessenberg matrix of shape (m + 1, m) for the
    clipped [m]. *)
Lemma arnoldi_shape (x0g : vec) (A : tensor T) (b r0 : vec) (m : nat) (tol : T)
    (V Hm : tensor T) :
  arnoldi x0g A b r0 m tol = Return (V, Hm) →
  rows Hm = S (min m (rows A)) ∧ cols Hm = min m (rows A).
Proof.
  unfold arnoldi. destruct (negb _); [done|]. destruct (negb _); [done|].
  intros [= Heq].
  match type of Heq with
  | arnoldi_loop ?A' ?tol' ?ks ?V0 ?H0 = _ =>
      pose proof (arnoldi_loop_shape A' tol' ks V0 H0) as [Hr Hc]
  end.
  rewrite Heq in Hr, Hc. simpl in *. lia.
Qed.

Lemma GMRES_iter_Return (fns : functions T) (qr : tensor T → tensor T * tensor T)
    (A : tensor T) (b x0 r0 : vec) (beta : T) (st st' : basic_state T) :
  GMRES_iter fns qr A b x0 r0 beta st = Return st' →
  bs_k st' = bs_k st + 1 ∧ is_Some (bs_xk st').
Proof.
  unfold GMRES_iter.
  destruct (functions_arnoldi _ _ _ _ _) as [[V Hm]| |]; simpl_outcome; [|done..].
  destruct (lg_qr qr Hm) as [Q Rf].
  destruct (functions_back_substitution _ _ _) as [yk| |]; simpl_outcome; [|done..].
  intros [= <-]. simpl. eauto.
Qed.

(** The loop of [GMRES] is bounded by [k_max]: when each call of the two
    imported functions returns or raises, so does every turn. *)
Lemma GMRES_iter_not_OutOfFuel (fns : functions T) (qr : tensor T → tensor T * tensor T)
    (A : tensor T) (b x0 r0 : vec) (beta : T) (st : basic_state T) :
  (∀ k, functions_arnoldi fns A b r0 k ≠ OutOfFuel) →
  (∀ Rt y, functions_back_substitution fns Rt y ≠ OutOfFuel) →
  GMRES_iter fns qr A b x0 r0 beta st ≠ OutOfFuel.
Proof.
  intros Harn Hbs. unfold GMRES_iter.
  specialize (Harn (bs_k st + 1)).
  destruct (functions_arnoldi _ _ _ _ _) as [[V Hm]| |]; simpl_outcome; [|done..].
  destruct (lg_qr qr Hm) as [Q Rf].
  specialize (Hbs (drop_last_row Rf) (vscale beta (removelast (row Q 0)))).
  destruct (functions_back_substitution _ _ _) as [yk| |]; simpl_outcome; done.
Qed.

Lemma GMRES_loop_fuel_enough (fns : functions T) (qr : tensor T → tensor T * tensor T)
    (A : tensor T) (b x0 r0 : vec) (beta epsilon p0 : T) (k_max : Z) (fuel : nat) :
  (∀ k, functions_arnoldi fns A b r0 k ≠ OutOfFuel) →
  (∀ Rt y, functions_back_substitution fns Rt y ≠ OutOfFuel) →
  ∀ st : basic_state T,
    (k_max - Z.of_nat (bs_k st) ≤ Z.of_nat fuel)%Z →
    GMRES_loop fns qr A b x0 r0 beta epsilon p0 k_max fuel st ≠ OutOfFuel.
Proof.
  intros Harn Hbs. induction fuel as [|fuel IH]; intros st Hfuel; simpl.
  - unfold GMRES_continue.
    destruct (Z.ltb_spec (Z.of_nat (bs_k st)) k_max); [lia|].
    by rewrite andb_false_r.
  - destruct (GMRES_continue epsilon p0 k_max st) eqn:Hc; [|done].
    destruct (GMRES_iter fns qr A b x0 r0 beta st) as [st'| |] eqn:Hit;
      simpl_outcome; [|done|].
    + apply IH. apply GMRES_iter_Return in Hit as [-> _]. lia.
    + by apply GMRES_iter_not_OutOfFuel in Hit.
Qed.

(** [GMRES] is total when the two imported functions are: it returns or
    raises. *)
Lemma GMRES_total (fns : functions T) (qr : tensor T → tensor T * tensor T)
    (A : tensor T) (b x0 : vec) (k_max : option Z) (epsilon : T) :
  (∀ k, functions_arnoldi fns A b (vsub b (matvec A x0)) k ≠ OutOfFuel) →
  (∀ Rt y, functions_back_substitution fns Rt y ≠ OutOfFuel) →
  GMRES fns qr A b x0 k_max epsilon ≠ OutOfFuel.
Proof.
  intros Harn Hbs. unfold GMRES.
  destruct (GMRES_loop _ _ _ _ _ _ _ _ _ _ _ _) as [st| |] eqn:Hloop; simpl_outcome.
  - by destruct (bs_xk st).
  - done.
  - apply GMRES_loop_fuel_enough in Hloop; [done..|]. simpl. lia.
Qed.

(** When the loop test fails at once, [return xk, pk] finds [xk] unbound:
    neither imported function has been called. *)
Lemma GMRES_loop_skipped (fns : functions T) (qr : tensor T → tensor T * tensor T)
    (A : tensor T) (b x0 : vec) (k_max : option Z) (epsilon : T) :
  GMRES_continue epsilon (norm (vsub b (matvec A x0))) (clamp_k_max k_max (rows A))
                 {| bs_k := 0; bs_pk := norm (vsub b (matvec A x0)); bs_xk := None |}
  = false →
  GMRES fns qr A b x0 k_max epsilon = Raise (UnboundLocalError "xk").
Proof.
  intros Hc. unfold GMRES.
  destruct (Z.to_nat _); simpl; by rewrite Hc.
Qed.

End BasicFacts.

(** ** Exact arithmetic: the solvers over the real numbers *)

Section RealFacts.
#[local] Open Scope R_scope.

Lemma vsum_app (v w : list R) : vsum (v ++ w) = vsum v + vsum w.
Proof.
  unfold vsum. simpl. induction v as [|x v IH]; simpl; [|rewrite IH]; lra.
Qed.

Lemma vsum_vmul_zero_l (v w : list R) :
  Forall (fun x => x = 0) v → vsum (vmul v w) = 0.
Proof.
  intros Hv. revert w. unfold vsum, vmul. simpl.
  induction Hv as [|x v -> _ IH]; intros [|y w]; simpl; [done..|].
  rewrite IH. lra.
Qed.

(** A row of [A @ x], split at the diagonal. *)
Lemma dot_row_split (A : tensor R) (x : list R) (i : nat) :
  (i < cols A)%nat → length x = cols A →
  dot (row A i) x
  = vsum (vmul (entry A i <$> seq 0 i) (take i x))
    + (entry A i i * vget x i
       + vsum (vmul (row_from A i (i + 1)) (drop (i + 1) x))).
Proof.
  intros Hi Hx. unfold dot, row, row_from, vmul.
  replace (cols A - 0)%nat with (i + (1 + (cols A - (i + 1))))%nat by lia.
  rewrite !seq_app, !fmap_app. simpl.
  destruct (lookup_lt_is_Some_2 x i) as [xi Hxi]; [lia|].
  rewrite <- (take_drop_middle x i xi Hxi) at 1.
  rewrite zip_with_app by (rewrite length_fmap, length_seq, length_take; lia).
  simpl. rewrite vsum_app.
  unfold vget. rewrite Hxi. simpl.
  replace (S i) with (i + 1)%nat by lia.
  replace (cols A - (i + 1) - 0)%nat with (cols A - (i + 1))%nat by lia.
  reflexivity.
Qed.

Lemma back_substitution_row_solved (A : tensor R) (y x : list R) (m : nat) :
  entry A m m ≠ 0 → (m < length y)%nat →
  solved_from A y x (S m) → solved_from A y (back_substitution_row A y x m) m.
Proof.
  intros Hd Hm [Hlen Hrows]. unfold back_substitution_row. split.
  - by rewrite length_insert.
  - intros i Hi. rewrite drop_insert_lt by lia.
    destruct (decide (i = m)) as [->|Hne].
    + rewrite vget_insert_eq by lia. simpl. field. exact Hd.
    + unfold vget at 1. rewrite list_lookup_insert_ne by lia.
      apply Hrows. lia.
Qed.

Lemma back_substitution_rows_solved (A : tensor R) (y : list R) (m : nat) :
  (∀ i, (i < length y)%nat → entry A i i ≠ 0) →
  (m ≤ length y)%nat →
  ∀ x, solved_from A y x m →
       solved_from A y (foldl (back_substitution_row A y) x (rev (seq 0 m))) 0.
Proof.
  intros Hd. induction m as [|m IH]; intros Hm x Hx; [done|].
  rewrite seq_S, rev_app_distr. simpl.
  apply IH; [lia|]. apply back_substitution_row_solved; [apply Hd; lia|lia|done].
Qed.



End RealFacts.

(** ** Exact arithmetic: the minimal residual of the least-squares problem *)

Section LeastSquares.
#[local] Open Scope R_scope.

Lemma rsum_S (f : nat → R) (n : nat) : rsum f (S n) = rsum f n + f n.
Proof.
  unfold rsum. rewrite seq_S, fmap_app, vsum_app. simpl.
  unfold vsum. simpl. lra.
Qed.

Lemma rsum_0 (f : nat → R) : rsum f 0 = 0.
Proof. reflexivity. Qed.

Lemma rsum_ext (f g : nat → R) (n : nat) :
  (∀ i, (i < n)%nat → f i = g i) → rsum f n = rsum g n.
Proof.
  induction n as [|n IH]; intros Hfg; [done|].
  rewrite !rsum_S, IH, Hfg by (intros; try apply Hfg; lia). done.
Qed.

Lemma rsum_plus (f g : nat → R) (n : nat) :
  rsum (fun i => f i + g i) n = rsum f n + rsum g n.
Proof. induction n as [|n IH]; [rewrite !rsum_0; lra|]. rewrite !rsum_S, IH. lra. Qed.

Lemma rsum_minus (f g : nat → R) (n : nat) :
  rsum (fun i => f i - g i) n = rsum f n - rsum g n.
Proof. induction n as [|n IH]; [rewrite !rsum_0; lra|]. rewrite !rsum_S, IH. lra. Qed.

Lemma rsum_scal (c : R) (f : nat → R) (n : nat) :
  rsum (fun i => c * f i) n = c * rsum f n.
Proof. induction n as [|n IH]; [rewrite !rsum_0; lra|]. rewrite !rsum_S, IH. lra. Qed.

Lemma rsum_zero (f : nat → R) (n : nat) :
  (∀ i, (i < n)%nat → f i = 0) → rsum f n = 0.
Proof.
  induction n as [|n IH]; intros Hf; [done|].
  rewrite rsum_S, IH, Hf by (intros; try apply Hf; lia). lra.
Qed.

Lemma rsum_nonneg (f : nat → R) (n : nat) :
  (∀ i, (i < n)%nat → 0 <= f i) → 0 <= rsum f n.
Proof.
  induction n as [|n IH]; intros Hf; [rewrite rsum_0; lra|].
  rewrite rsum_S. pose proof (Hf n ltac:(lia)).
  assert (0 <= rsum f n) by (apply IH; intros; apply Hf; lia). lra.
Qed.

Lemma rsum_swap (f : nat → nat → R) (n m : nat) :
  rsum (fun i => rsum (fun j => f i j) m) n = rsum (fun j => rsum (fun i => f i j) n) m.
Proof.
  induction n as [|n IH].
  - rewrite rsum_0. symmetry. by apply rsum_zero.
  - rewrite rsum_S, IH, <- rsum_plus. apply rsum_ext. intros j _. by rewrite rsum_S.
Qed.

Lemma rsum_delta (f : nat → R) (k n : nat) :
  (k < n)%nat → rsum (fun i => (if (k =? i)%nat then 1 else 0) * f i) n = f k.
Proof.
  induction n as [|n IH]; intros Hk; [lia|]. rewrite rsum_S.
  destruct (decide (k = n)) as [->|Hne].
  - rewrite Nat.eqb_refl, rsum_zero; [lra|].
    intros i Hi. destruct (Nat.eqb_spec n i); [lia|lra].
  - rewrite IH by lia. destruct (Nat.eqb_spec k n); [lia|lra].
Qed.

Lemma rsum_mult (f g : nat → R) (n m : nat) :
  rsum f n * rsum g m = rsum (fun i => rsum (fun j => f i * g j) m) n.
Proof.
  rewrite Rmult_comm, <- rsum_scal. apply rsum_ext. intros i _.
  rewrite rsum_scal. lra.
Qed.

(** Lists written as tabulated functions. *)
Lemma dot_tabulate (f g : nat → R) (n : nat) :
  dot (f <$> seq 0 n) (g <$> seq 0 n) = rsum (fun i => f i * g i) n.
Proof.
  unfold dot, vmul, rsum. f_equal. generalize 0%nat as a.
  induction n as [|n IH]; intros a; simpl; [done|]. by rewrite IH.
Qed.

Lemma vsub_tabulate (f g : nat → R) (n : nat) :
  vsub (f <$> seq 0 n) (g <$> seq 0 n) = (fun i => f i - g i) <$> seq 0 n.
Proof.
  unfold vsub. generalize 0%nat as a.
  induction n as [|n IH]; intros a; simpl; [done|]. by rewrite IH.
Qed.

Lemma tabulate_vget (y : list R) : y = vget y <$> seq 0 (length y).
Proof.
  apply list_eq. intros i. rewrite list_lookup_fmap. unfold vget.
  destruct (decide (i < length y)%nat) as [Hi|Hi].
  - rewrite lookup_seq_lt by done. simpl.
    by destruct (lookup_lt_is_Some_2 y i Hi) as [x ->].
  - rewrite lookup_seq_ge by lia. simpl. apply lookup_ge_None. lia.
Qed.

Lemma matvec_tabulate (M : tensor R) (y : list R) :
  length y = cols M →
  matvec M y
  = (fun i => rsum (fun j => entry M i j * vget y j) (cols M)) <$> seq 0 (rows M).
Proof.
  intros Hy. unfold matvec. apply list_fmap_ext. intros _ i _.
  unfold row, row_from. rewrite Nat.sub_0_r.
  rewrite (tabulate_vget y) at 1. rewrite Hy. apply dot_tabulate.
Qed.

Lemma e1_tabulate (beta : R) (n : nat) :
  beta :: zeros n = (fun i => if (i =? 0)%nat then beta else 0) <$> seq 0 (S n).
Proof.
  simpl. f_equal. unfold zeros. rewrite <- fmap_S_seq, <- list_fmap_compose. simpl.
  induction n as [|n IH]; simpl; [done|]. rewrite <- fmap_S_seq, <- list_fmap_compose.
  simpl in *. by f_equal.
Qed.

Lemma norm_tabulate (f : nat → R) (n : nat) :
  norm (f <$> seq 0 n) = sqrt (rsum (fun i => f i * f i) n).
Proof. unfold norm. by rewrite dot_tabulate. Qed.

(** An orthogonal [Q] preserves the sum of squares: [||Q^T v|| = ||v||]. *)
Lemma rsum_isometry (Q : tensor R) (v : nat → R) (n : nat) :
  (∀ l l', (l < n)%nat → (l' < n)%nat →
     rsum (fun i => entry Q l i * entry Q l' i) n = if (l =? l')%nat then 1 else 0) →
  rsum (fun i => rsum (fun l => entry Q l i * v l) n
                 * rsum (fun l => entry Q l i * v l) n) n
  = rsum (fun l => v l * v l) n.
Proof.
  intros Hrow.
  rewrite (rsum_ext _ (fun i => rsum (fun l => rsum (fun l' =>
             v l * (v l' * (entry Q l i * entry Q l' i))) n) n)).
  2: { intros i _. rewrite rsum_mult. apply rsum_ext. intros l _.
       apply rsum_ext. intros l' _. lra. }
  rewrite rsum_swap. apply rsum_ext. intros l Hl.
  rewrite rsum_swap.
  rewrite (rsum_ext _ (fun l' => v l * ((if (l =? l')%nat then 1 else 0) * v l'))).
  2: { intros l' Hl'. rewrite rsum_scal, rsum_scal, Hrow by done. lra. }
  rewrite rsum_scal, rsum_delta by done. done.
Qed.

(** [Q^T (beta e1 - H y) = beta Q[0, :] - R y] when [H = Q R]. *)
Lemma rsum_rotate (Hm Q Rf : tensor R) (beta : R) (y : nat → R) (n m i : nat) :
  (0 < n)%nat → (i < n)%nat →
  (∀ a b, (a < n)%nat → (b < n)%nat →
     rsum (fun l => entry Q l a * entry Q l b) n = if (a =? b)%nat then 1 else 0) →
  (∀ l j, (l < n)%nat → (j < m)%nat →
     rsum (fun t => entry Q l t * entry Rf t j) n = entry Hm l j) →
  rsum (fun l => entry Q l i
                 * ((if (l =? 0)%nat then beta else 0)
                    - rsum (fun j => entry Hm l j * y j) m)) n
  = beta * entry Q 0 i - rsum (fun j => entry Rf i j * y j) m.
Proof.
  intros Hn Hi Hcol Hprod.
  rewrite (rsum_ext _ (fun l => (if (0 =? l)%nat then 1 else 0) * (beta * entry Q l i)
                                - rsum (fun j => y j * (entry Q l i * entry Hm l j)) m)).
  2: { intros l _.
       rewrite (rsum_ext (fun j => y j * (entry Q l i * entry Hm l j))
                         (fun j => entry Q l i * (entry Hm l j * y j)))
         by (intros; lra).
       rewrite rsum_scal, Nat.eqb_sym. destruct (0 =? l)%nat; lra. }
  rewrite rsum_minus, rsum_delta by done. f_equal.
  rewrite rsum_swap. apply rsum_ext. intros j Hj.
  rewrite rsum_scal, Rmult_comm. f_equal.
  rewrite (rsum_ext _ (fun l => rsum (fun t => entry Rf t j
                                   * (entry Q l i * entry Q l t)) n)).
  2: { intros l Hl. rewrite <- Hprod by done. rewrite <- rsum_scal.
       apply rsum_ext. intros t _. lra. }
  rewrite rsum_swap.
  rewrite (rsum_ext _ (fun t => (if (i =? t)%nat then 1 else 0) * entry Rf t j)).
  2: { intros t Ht. rewrite rsum_scal, Hcol by done. lra. }
  by rewrite rsum_delta.
Qed.

(** The residual in the rotated coordinates: the last one does not depend
    on [y]. *)
Lemma ls_residual_rotated (beta : R) (Hm Q Rf : tensor R) (y : list R) :
  rows Hm = S (cols Hm) → is_complete_qr Hm (Q, Rf) → length y = cols Hm →
  ls_residual beta Hm y
  = sqrt (rsum (fun i => (beta * entry Q 0 i - rsum (fun j => entry Rf i j * vget y j) (cols Hm))
                         * (beta * entry Q 0 i
                            - rsum (fun j => entry Rf i j * vget y j) (cols Hm))) (cols Hm)
          + beta * entry Q 0 (cols Hm) * (beta * entry Q 0 (cols Hm))).
Proof.
  intros Hshape (HrQ & HcQ & HrR & HcR & Hcol & Hrow & Hprod & Hup) Hy.
  set (m := cols Hm) in *. set (n := S m) in *.
  assert (Hcol' : ∀ a b, (a < n)%nat → (b < n)%nat →
            rsum (fun l => entry Q l a * entry Q l b) n = if (a =? b)%nat then 1 else 0).
  { intros a b Ha Hb. rewrite <- Hcol by lia. unfold col.
    by rewrite dot_tabulate, HrQ, Hshape. }
  assert (Hrow' : ∀ a b, (a < n)%nat → (b < n)%nat →
            rsum (fun t => entry Q a t * entry Q b t) n = if (a =? b)%nat then 1 else 0).
  { intros a b Ha Hb. rewrite <- Hrow by lia. unfold row, row_from.
    by rewrite Nat.sub_0_r, dot_tabulate, HcQ, Hshape. }
  assert (Hprod' : ∀ l j, (l < n)%nat → (j < m)%nat →
            rsum (fun t => entry Q l t * entry Rf t j) n = entry Hm l j).
  { intros l j Hl Hj. rewrite <- Hprod by lia. unfold row, row_from, col.
    by rewrite Nat.sub_0_r, HcQ, HrR, Hshape, dot_tabulate. }
  unfold ls_residual. rewrite matvec_tabulate by done.
  rewrite Hshape. fold m. fold n. replace (n - 1)%nat with m by lia.
  rewrite e1_tabulate, vsub_tabulate, norm_tabulate. f_equal.
  rewrite <- (rsum_isometry Q _ n Hrow').
  unfold n at 3. rewrite rsum_S. f_equal.
  - apply rsum_ext. intros i Hi.
    by rewrite (rsum_rotate Hm Q Rf beta (vget y) n m i) by (done || lia).
  - rewrite (rsum_rotate Hm Q Rf beta (vget y) n m m) by (done || lia).
    rewrite rsum_zero; [lra|]. intros j Hj. rewrite Hup by lia. lra.
Qed.

(** The minimal residual of [min ||beta e1 - H y||] for [H] of shape
    (m + 1, m) is [|beta Q[0, m]|], read in the last column of the first
    row of [Q]: no [y] does better, and the solution of the triangular
    system [R[:-1, :] y = beta Q[0, :-1]] attains it. *)
Lemma ls_residual_minimum (beta : R) (Hm Q Rf : tensor R) (y : list R) :
  rows Hm = S (cols Hm) → is_complete_qr Hm (Q, Rf) → length y = cols Hm →
  Rabs (beta * entry Q 0 (cols Hm)) <= ls_residual beta Hm y
  ∧ (matvec (drop_last_row Rf) y = vscale beta (removelast (row Q 0)) →
     ls_residual beta Hm y = Rabs (beta * entry Q 0 (cols Hm))).
Proof.
  intros Hshape Hqr Hy. rewrite (ls_residual_rotated beta Hm Q Rf y) by done.
  destruct Hqr as (HrQ & HcQ & HrR & HcR & _).
  set (m := cols Hm) in *. set (g := beta * entry Q 0 m).
  rewrite <- (sqrt_Rsqr_abs g). unfold Rsqr. split.
  - apply sqrt_le_1_alt.
    assert (0 <= rsum (fun i => (beta * entry Q 0 i
                                 - rsum (fun j => entry Rf i j * vget y j) m)
                                * (beta * entry Q 0 i
                                   - rsum (fun j => entry Rf i j * vget y j) m)) m).
    { apply rsum_nonneg. intros i _. apply Rle_0_sqr. }
    unfold g. lra.
  - intros Hsolve. f_equal. rewrite rsum_zero; [unfold g; lra|].
    intros i Hi.
    assert (Hi' : rsum (fun j => entry Rf i j * vget y j) m = beta * entry Q 0 i);
      [|rewrite Hi'; lra].
    assert (Hlook : matvec (drop_last_row Rf) y !! i
                    = vscale beta (removelast (row Q 0)) !! i) by (by rewrite Hsolve).
    rewrite matvec_tabulate in Hlook by (simpl; lia).
    unfold vscale, row, row_from in Hlook.
    rewrite removelast_firstn_len, !list_lookup_fmap, lookup_take_lt in Hlook
      by (rewrite length_fmap, length_seq; lia).
    rewrite list_lookup_fmap, !lookup_seq_lt in Hlook by (simpl; lia).
    simpl in Hlook. rewrite HcR in Hlook. by injection Hlook.
Qed.

(** In [GMRES] the turn that sets [k] asks [arnoldi] for [k] steps; when the
    Hessenberg matrix it gets has the shape (k + 1, k),
    [pk = |beta Q[0, k]|] is read in the last column: the estimate is the
    minimal residual. *)
Lemma GMRES_estimate_minimal (fns : functions R) (qr : tensor R → tensor R * tensor R)
    (A : tensor R) (b x0 r0 : list R) (beta : R) (st st' : basic_state R)
    (V Hm : tensor R) :
  functions_arnoldi fns A b r0 (bs_k st + 1) = Return (V, Hm) →
  rows Hm = S (cols Hm) → cols Hm = (bs_k st + 1)%nat →
  is_complete_qr Hm (lg_qr qr Hm) →
  GMRES_iter fns qr A b x0 r0 beta st = Return st' →
  ∀ y, length y = (bs_k st + 1)%nat → bs_pk st' <= ls_residual beta Hm y.
Proof.
  intros Harn Hr Hc Hqr Hit y Hy.
  unfold GMRES_iter in Hit. rewrite Harn in Hit. simpl_outcome.
  destruct (lg_qr qr Hm) as [Q Rf].
  destruct (functions_back_substitution _ _ _) as [yk| |]; simpl_outcome; [|done..].
  injection Hit as <-. simpl.
  destruct (ls_residual_minimum beta Hm Q Rf y) as [Hmin _]; [lia|done|lia|].
  by rewrite Hc in Hmin.
Qed.

End LeastSquares.

(** ** Exact arithmetic: the driver on a one-dimensional system *)

Section RealRuns.
#[local] Open Scope R_scope.

Lemma Rltb_true (x y : R) : x < y → Rltb x y = true.
Proof. intros Hxy. unfold Rltb. destruct (Rlt_dec x y); [done|lra]. Qed.

Lemma Rltb_false (x y : R) : y <= x → Rltb x y = false.
Proof. intros Hxy. unfold Rltb. destruct (Rlt_dec x y); [lra|done]. Qed.

Lemma Rleb_true (x y : R) : x <= y → Rleb x y = true.
Proof. intros Hxy. unfold Rleb. destruct (Rle_dec x y); [done|lra]. Qed.

Lemma gmres_init_2 :
  gmres_init (fun x => x) A_2 b_1 None
  = {| st_x0 := [0]; st_r0 := [1]; st_p0 := 1; st_beta := 1; st_pk := 1;
       st_k := 0; st_total_k := 0; st_error_list := [1];
       st_V := set_col (tzeros 1 1) 1 0 [1]; st_H := tzeros 2 1; st_xk := None |}.
Proof.
  unfold gmres_init. cbn.
  replace (1 - (2 * 0 + 0)) with 1 by lra.
  replace (1 * 1 + 0) with 1 by lra. rewrite sqrt_1.
  replace (1 / 1) with 1 by lra. reflexivity.
Qed.

(** The first Arnoldi step breaks down: [A v0 = 2 v0]. *)
Lemma arnoldi_one_iter_2 :
  arnoldi_one_iter (fun x => x) A_2
    (cat_cols (set_col (tzeros 1 1) 1 0 [1]) (tzeros 1 1)) 0 s_1em12
  = ([2; 0], None).
Proof.
  unfold arnoldi_one_iter. cbn.
  replace (2 * 1 + 0 - ((2 * 1 + 0) * 1 + 0) * 1) with 0 by lra.
  replace (0 * 0 + 0) with 0 by lra. rewrite sqrt_0.
  rewrite Rleb_true by lra.
  replace ((2 * 1 + 0) * 1 + 0) with 2 by lra. reflexivity.
Qed.

(** The whole run on [2 x = 1], whatever [lg.qr] computes: one iteration,
    a breakdown, three entries in the trace. *)
Lemma precon_GMRES_restarted_run_2 (qr : tensor R → tensor R * tensor R)
    (k_max : option Z) (epsilon : R) :
  epsilon < 1 → clamp_k_max k_max 1 = 1%Z →
  precon_GMRES_restarted qr (fun x => x) A_2 b_1 None k_max None epsilon
  = Return ([0 + (1 * ((1 * entry (qr hessenberg_2).1 0 0 - 0)
                       / entry (qr hessenberg_2).2 0 0) + 0)],
            [1; 0; Rabs (1 * entry (qr hessenberg_2).1 0 0)], 1%nat).
Proof.
  intros Heps Hkm. unfold precon_GMRES_restarted.
  change (rows A_2) with 1%nat. rewrite Hkm, gmres_init_2.
  change (Z.to_nat 1) with 1%nat.
  cbn [gmres_loop]. unfold gmres_continue at 1. cbn [st_p0 st_pk st_total_k].
  rewrite Rltb_true by (simpl; lra).
  change (Z.of_nat 0 <? 1)%Z with true. cbn [andb].
  unfold gmres_iter.
  cbn [st_V st_H st_k st_error_list st_beta st_x0 st_r0 st_p0 st_total_k].
  rewrite arnoldi_one_iter_2.
  change (lg_qr qr _) with (lg_qr qr hessenberg_2).
  unfold lg_qr. destruct (qr hessenberg_2) as [Q Rf]. cbn.
  unfold gmres_continue. cbn. by rewrite andb_false_r.
Qed.

(** C6, on the system [2 x = 1] with the default arguments: the single
    iteration signals a breakdown and appends two values, the [0] and then
    the estimate, so that the trace has three entries after one
    iteration. *)
Theorem breakdown_appends_twice (qr : tensor R → tensor R * tensor R) :
  ∃ (x trace : list R),
    precon_GMRES_restarted qr (fun x => x) A_2 b_1 None None None s_1em12
    = Return (x, trace, 1%nat)
    ∧ length trace = 3%nat ∧ trace !! 0%nat = Some 1 ∧ trace !! 1%nat = Some 0.
Proof.
  eexists _, _.
  split; [apply precon_GMRES_restarted_run_2; [simpl; lra|reflexivity]|done].
Qed.

(** [arnoldi] on the same system: one step, and the Krylov space is
    exhausted. *)
Lemma arnoldi_2 :
  arnoldi [0] A_2 b_1 [1] 1 s_1em12
  = Return (set_col (tzeros 1 2) 1 0 [1], hessenberg_2_basic).
Proof.
  unfold arnoldi. cbn.
  replace (1 * 1 + 0) with 1 by lra. rewrite sqrt_1.
  replace (1 / 1) with 1 by lra.
  replace (2 * 1 + 0 - (1 * (2 * 1 + 0) + 0) * 1) with 0 by lra.
  replace (0 * 0 + 0) with 0 by lra. rewrite sqrt_0.
  rewrite Rleb_true by lra.
  replace (1 * (2 * 1 + 0) + 0) with 2 by lra. reflexivity.
Qed.

(** What a complete QR factorisation of the column [[2], [0]] looks like:
    [Q[0, 0]] is 1 or -1, with [Rf[0, 0]] of the same sign, and [Q[0, 1]]
    is 0. *)
Lemma is_complete_qr_column_entries (M Q Rf : tensor R) :
  rows M = 2%nat → cols M = 1%nat → entry M 0 0 = 2 → entry M 1 0 = 0 →
  is_complete_qr M (Q, Rf) →
  (entry Q 0 0 = 1 ∧ entry Rf 0 0 = 2 ∨ entry Q 0 0 = -1 ∧ entry Rf 0 0 = -2)
  ∧ entry Q 0 1 = 0.
Proof.
  intros HrM HcM HM0 HM1 (HrQ & HcQ & HrR & HcR & Horth & Hrow & Hprod & Hup).
  rewrite HrM, ?HcM in *.
  pose proof (Horth 0%nat 0%nat) as H00. pose proof (Hrow 0%nat 0%nat) as R00.
  pose proof (Hprod 0%nat 0%nat) as P00.
  pose proof (Hprod 1%nat 0%nat) as P10. pose proof (Hup 1%nat 0%nat) as U10.
  unfold dot, col, row, row_from, vsum, vmul in *.
  rewrite HrQ in H00. rewrite HcQ in R00. rewrite HcQ, HrR in P00, P10.
  cbn in H00, R00, P00, P10, U10.
  specialize (H00 ltac:(lia) ltac:(lia)). specialize (R00 ltac:(lia) ltac:(lia)).
  specialize (P00 ltac:(lia) ltac:(lia)).
  specialize (P10 ltac:(lia) ltac:(lia)). specialize (U10 ltac:(lia) ltac:(lia)).
  rewrite HM0 in P00. rewrite HM1 in P10.
  set (q00 := entry Q 0 0) in *. set (q10 := entry Q 1 0) in *.
  set (q01 := entry Q 0 1) in *.
  set (r00 := entry Rf 0 0) in *. rewrite U10 in P00, P10.
  assert (Hr : r00 ≠ 0) by (intros Hr; rewrite Hr in P00; lra).
  assert (Hq10 : q10 = 0).
  { destruct (Rmult_integral q10 r00) as [?|?]; [lra|done|done]. }
  rewrite Hq10 in H00.
  assert (Hq01 : q01 = 0).
  { assert (Hsq : q01 * q01 = 0) by lra.
    by destruct (Rmult_integral _ _ Hsq). }
  split; [|done].
  assert (Hsq : (q00 - 1) * (q00 + 1) = 0) by lra.
  destruct (Rmult_integral _ _ Hsq) as [Hq|Hq]; [left|right];
    (split; [lra|]); replace q00 with (q00 + 0) in P00 by lra; nra.
Qed.

Lemma is_complete_qr_column (M Q Rf : tensor R) :
  rows M = 2%nat → cols M = 1%nat → entry M 0 0 = 2 → entry M 1 0 = 0 →
  is_complete_qr M (Q, Rf) →
  Rabs (1 * entry Q 0 0) = 1
  ∧ 0 + (1 * ((1 * entry Q 0 0 - 0) / entry Rf 0 0) + 0) = 1 / 2
  ∧ Rabs (1 * entry Q 0 1) = 0.
Proof.
  intros HrM HcM HM0 HM1 Hqr.
  destruct (is_complete_qr_column_entries M Q Rf HrM HcM HM0 HM1 Hqr) as [Hq Hq01].
  rewrite Hq01. replace (1 * 0) with 0 by lra. rewrite Rabs_R0.
  destruct Hq as [[-> ->]|[-> ->]]; (split; [|split; [|done]]).
  - rewrite Rabs_right; lra.
  - field.
  - rewrite Rabs_left; lra.
  - field.
Qed.

(** The numpy solver on the same system, for imported functions that
    return the Arnoldi matrices of the system and solve the triangular
    system. *)
Lemma GMRES_run_2 (fns : functions R) (qr : tensor R → tensor R * tensor R)
    (k_max : option Z) (epsilon : R) :
  epsilon < 1 → clamp_k_max k_max 1 = 1%Z →
  is_complete_qr hessenberg_2_basic (lg_qr qr hessenberg_2_basic) →
  functions_arnoldi fns A_2 b_1 [1] 1
  = Return (set_col (tzeros 1 2) 1 0 [1], hessenberg_2_basic) →
  (∀ (Rt : tensor R) (y : list R),
     rows Rt = length y → cols Rt = length y →
     (∀ i j, (j < i < length y)%nat → entry Rt i j = 0) →
     (∀ i, (i < length y)%nat → entry Rt i i ≠ 0) →
     ∃ z, functions_back_substitution fns Rt y = Return z
          ∧ length z = length y ∧ matvec Rt z = y) →
  GMRES fns qr A_2 b_1 [0] k_max epsilon = Return ([1 / 2], 0).
Proof.
  intros Heps Hkm Hqr Harn Hbs. unfold GMRES.
  change (rows A_2) with 1%nat. rewrite Hkm.
  assert (Hr0 : vsub b_1 (matvec A_2 [0]) = [1]) by (cbn; f_equal; lra).
  rewrite Hr0.
  assert (Hp0 : norm [1] = 1).
  { unfold norm. cbn. replace (1 * 1 + 0) with 1 by lra. apply sqrt_1. }
  rewrite Hp0. change (Z.to_nat 1) with 1%nat.
  cbn [GMRES_loop]. unfold GMRES_continue at 1. cbn [bs_pk bs_k].
  rewrite Rltb_true by (simpl; lra).
  change (Z.of_nat 0 <? 1)%Z with true. cbn [andb].
  unfold GMRES_iter. cbn [bs_k Nat.add]. rewrite Harn. simpl_outcome.
  unfold lg_qr in *. destruct (qr hessenberg_2_basic) as [Q Rf].
  apply is_complete_qr_column_entries in Hqr as [Hq Hq01]; [|done..].
  simpl in Hq, Hq01. clear Hr0 Hp0.
  set (Rt := drop_last_row _). set (rhs := vscale 1 _).
  assert (Hrhs : rhs = [1 * entry Q 0 0]) by reflexivity.
  assert (Hdiag : entry Rf 0 0 ≠ 0) by (destruct Hq as [[_ ->]|[_ ->]]; lra).
  destruct (Hbs Rt rhs) as (z & -> & Hlen & Hsolve).
  { by rewrite Hrhs. }
  { by rewrite Hrhs. }
  { rewrite Hrhs. simpl. intros i j Hij. lia. }
  { rewrite Hrhs. simpl. intros i Hi. by replace i with 0%nat by lia. }
  rewrite Hrhs in Hlen, Hsolve.
  destruct z as [|z0 [|z1 z]]; [done| |done].
  unfold GMRES_continue. cbn [bs_k bs_pk bs_xk].
  change (Z.of_nat 1 <? 1)%Z with false. rewrite andb_false_r.
  cbn in Hsolve. injection Hsolve as Hsolve.
  simpl. rewrite Hq01. replace (1 * 0) with 0 by lra. rewrite Rabs_R0.
  do 3 f_equal. cbn.
  destruct Hq as [[Hq HR]|[Hq HR]]; rewrite Hq, HR in Hsolve; lra.
Qed.

Lemma is_complete_qr_hessenberg_2 (Q Rf : tensor R) :
  is_complete_qr hessenberg_2 (Q, Rf) →
  Rabs (1 * entry Q 0 0) = 1 ∧ 0 + (1 * ((1 * entry Q 0 0 - 0) / entry Rf 0 0) + 0) = 1 / 2.
Proof.
  intros Hqr.
  destruct (is_complete_qr_column hessenberg_2 Q Rf) as (? & ? & _); done.
Qed.

(** C1, on the system [2 x = 1]: for every routine that returns a complete
    QR factorisation of the Hessenberg matrix, the estimate [|beta Q[0, k]|]
    that [precon_GMRES_restarted] appends and tests is 1, while the iterate
    it returns, [1/2], solves the system and the least-squares residual
    [||beta e1 - H y||] is 0 at the coefficient [y = 1/2] it computed.
    [GMRES], which increments [k] before it factorises, reads the last
    entry of the first row of [Q] and reports the residual 0 for the same
    iterate, whatever the two functions it imports are, provided that
    [arnoldi] returns the Arnoldi matrices of the system, [V = [1, 0]] and
    [H = [[2], [0]]], and that [back_substitution] solves the triangular
    systems with no zero on the diagonal. *)
Theorem residual_estimate_off_by_one (qr : tensor R → tensor R * tensor R) :
  is_complete_qr hessenberg_2 (lg_qr qr hessenberg_2) →
  is_complete_qr hessenberg_2_basic (lg_qr qr hessenberg_2_basic) →
  precon_GMRES_restarted qr (fun x => x) A_2 b_1 None None None s_1em12
  = Return ([1 / 2], [1; 0; 1], 1%nat)
  ∧ (∀ fns : functions R,
       functions_arnoldi fns A_2 b_1 [1] 1
       = Return (set_col (tzeros 1 2) 1 0 [1], hessenberg_2_basic) →
       (∀ (Rt : tensor R) (y : list R),
          rows Rt = length y → cols Rt = length y →
          (∀ i j, (j < i < length y)%nat → entry Rt i j = 0) →
          (∀ i, (i < length y)%nat → entry Rt i i ≠ 0) →
          ∃ z, functions_back_substitution fns Rt y = Return z
               ∧ length z = length y ∧ matvec Rt z = y) →
       GMRES fns qr A_2 b_1 [0] None (/ 100000000) = Return ([1 / 2], 0))
  ∧ ls_residual 1 hessenberg_2 [1 / 2] = 0
  ∧ vsub b_1 (matvec A_2 [1 / 2]) = [0].
Proof.
  intros Hqr Hqrb.
  rewrite precon_GMRES_restarted_run_2 by (simpl; lra || reflexivity).
  split; [|split; [intros fns Harn Hbs; apply GMRES_run_2; (lra || done)|]].
  { unfold lg_qr in Hqr. destruct (qr hessenberg_2) as [Q Rf].
    apply is_complete_qr_hessenberg_2 in Hqr as [Hp Hx]. cbn in Hp, Hx.
    cbn [fst snd]. by rewrite Hp, Hx. }
  split.
  - unfold ls_residual. cbn.
    replace (1 - (2 * (1 / 2) + 0)) with 0 by lra.
    replace (0 - (0 * (1 / 2) + 0)) with 0 by lra.
    replace (0 * 0 + (0 * 0 + 0)) with 0 by lra. apply sqrt_0.
  - cbn. f_equal. lra.
Qed.

(** The factorisation [Q = I], [Rf = H] is a complete QR factorisation of
    the two Hessenberg matrices, which are upper trapezoidal. *)
Lemma qr_of_trapezoidal_column (M : tensor R) :
  rows M = 2%nat → cols M = 1%nat → entry M 1 0 = 0 →
  is_complete_qr M (lg_qr qr_of_trapezoidal M).
Proof.
  intros Hr Hc H10.
  unfold lg_qr, qr_of_trapezoidal, is_complete_qr. cbn [rows cols entry].
  rewrite Hr, Hc. repeat split; try done.
  - intros i j Hi Hj.
    assert (Hij : ((i = 0 ∨ i = 1) ∧ (j = 0 ∨ j = 1))%nat) by lia.
    destruct Hij as [[-> | ->] [-> | ->]]; cbn; lra.
  - intros i j Hi Hj.
    assert (Hij : ((i = 0 ∨ i = 1) ∧ (j = 0 ∨ j = 1))%nat) by lia.
    destruct Hij as [[-> | ->] [-> | ->]]; cbn; lra.
  - intros i j Hi Hj.
    assert (Hij : ((i = 0 ∨ i = 1) ∧ j = 0)%nat) by lia.
    destruct Hij as [[-> | ->] ->]; cbn; rewrite ?H10; lra.
  - intros i j Hj Hi.
    assert (Hij : (i = 1 ∧ j = 0)%nat) by lia. destruct Hij as [-> ->]. exact H10.
Qed.

Lemma qr_of_trapezoidal_hessenberg_2 :
  is_complete_qr hessenberg_2 (lg_qr qr_of_trapezoidal hessenberg_2).
Proof. by apply qr_of_trapezoidal_column. Qed.

Lemma residual_estimate_off_by_one_witness :
  precon_GMRES_restarted qr_of_trapezoidal (fun x => x) A_2 b_1 None None None s_1em12
  = Return ([1 / 2], [1; 0; 1], 1%nat)
  ∧ (∀ fns : functions R,
       functions_arnoldi fns A_2 b_1 [1] 1
       = Return (set_col (tzeros 1 2) 1 0 [1], hessenberg_2_basic) →
       (∀ (Rt : tensor R) (y : list R),
          rows Rt = length y → cols Rt = length y →
          (∀ i j, (j < i < length y)%nat → entry Rt i j = 0) →
          (∀ i, (i < length y)%nat → entry Rt i i ≠ 0) →
          ∃ z, functions_back_substitution fns Rt y = Return z
               ∧ length z = length y ∧ matvec Rt z = y) →
       GMRES fns qr_of_trapezoidal A_2 b_1 [0] None (/ 100000000) = Return ([1 / 2], 0))
  ∧ ls_residual 1 hessenberg_2 [1 / 2] = 0
  ∧ vsub b_1 (matvec A_2 [1 / 2]) = [0].
Proof.
  apply (residual_estimate_off_by_one qr_of_trapezoidal).
  - by apply qr_of_trapezoidal_column.
  - by apply qr_of_trapezoidal_column.
Defined.

End RealRuns.

(** ** Exact arithmetic: vanishing residual, unchecked parameters *)

Section RealDriver.
#[local] Open Scope R_scope.

(** C3. Over the real numbers: when the (preconditioned) initial residual
    has norm 0 the loop test [pk > epsilon * p0] is [0 > 0], the loop is
    skipped, and the [return] statement raises [UnboundLocalError] for
    [xk]; neither [precon_GMRES_restarted] nor [GMRES] returns [x0].
    [GMRES] has not called the two functions it imports by then: this holds
    whatever they are. *)
Theorem zero_residual_raises (qr : tensor R → tensor R * tensor R)
    (prec : list R → list R) (A : tensor R) (b : list R)
    (x0 : option (list R)) (k_max restart : option Z) (epsilon : R) :
  (norm (prec (vsub b (matvec A (default (zeros (length b)) x0)))) = 0 →
   precon_GMRES_restarted qr prec A b x0 k_max restart epsilon
   = Raise (UnboundLocalError "xk"))
  ∧ (∀ (fns : functions R) (x : list R), norm (vsub b (matvec A x)) = 0 →
     GMRES fns qr A b x k_max epsilon = Raise (UnboundLocalError "xk")).
Proof.
  split.
  - intros Hbeta.
    pose proof (precon_GMRES_restarted_outcome qr prec A b x0 k_max restart epsilon)
      as Hout.
    unfold gmres_continue, gmres_init in Hout. cbn [st_p0 st_pk st_total_k] in Hout.
    rewrite Hbeta in Hout. simpl in Hout.
    rewrite Rltb_false in Hout by lra. exact Hout.
  - intros fns x Hbeta. apply GMRES_loop_skipped.
    unfold GMRES_continue. cbn [bs_pk bs_k]. rewrite Hbeta. simpl.
    by rewrite Rltb_false by lra.
Qed.

Lemma zero_residual_raises_witness :
  precon_GMRES_restarted qr_of_trapezoidal (fun x => x) A_1 b_0 None None None s_1em12
  = Raise (UnboundLocalError "xk")
  ∧ ∀ fns : functions R,
      GMRES fns qr_of_trapezoidal A_1 b_0 [0] None (/ 100000000)
      = Raise (UnboundLocalError "xk").
Proof.
  assert (Hzero : norm (vsub b_0 (matvec A_1 [0])) = 0).
  { unfold norm. cbn.
    replace ((0 - (1 * 0 + 0)) * (0 - (1 * 0 + 0)) + 0) with 0 by lra.
    apply sqrt_0. }
  split.
  - by apply (zero_residual_raises qr_of_trapezoidal (fun x => x) A_1 b_0
                None None None s_1em12).
  - intros fns.
    by apply (zero_residual_raises qr_of_trapezoidal (fun x => x) A_1 b_0
                None None None (/ 100000000)).
Defined.

(** C8, the claim refuted: with the tolerance [0] and the bound [1] the
    call on [2 x = 1] raises nothing and returns its triple. *)
Lemma nonpositive_epsilon_accepted :
  precon_GMRES_restarted qr_of_trapezoidal (fun x => x) A_2 b_1 None (Some 1%Z) None 0
  = Return ([1 / 2], [1; 0; 1], 1%nat).
Proof.
  rewrite precon_GMRES_restarted_run_2 by (lra || reflexivity).
  pose proof qr_of_trapezoidal_hessenberg_2 as Hqr.
  unfold lg_qr in Hqr. destruct (qr_of_trapezoidal hessenberg_2) as [Q Rf].
  apply is_complete_qr_hessenberg_2 in Hqr as [Hp Hx]. cbn in Hp, Hx.
  cbn [fst snd]. by rewrite Hp, Hx.
Qed.

(** C8, as the code has it: the tolerance is not validated, and it is used
    only in the loop test [pk > epsilon * p0].  In exact arithmetic, over
    the real numbers, and for operands that conform ([A] square with at
    least one row, [b] and [x0] of its size, a preconditioner that keeps
    lengths): every call of [precon_GMRES_restarted] with [epsilon <= 0],
    an iteration bound that is absent or at least 1, and a nonzero
    preconditioned initial residual raises nothing and returns its triple
    after at least one iteration. *)
Theorem parameters_not_validated (qr : tensor R → tensor R * tensor R)
    (prec : list R → list R) (A : tensor R) (b : list R)
    (x0 : option (list R)) (k_max restart : option Z) (epsilon : R) :
  cols A = rows A → length b = rows A →
  (∀ v, x0 = Some v → length v = rows A) →
  (∀ v, length (prec v) = length v) →
  epsilon <= 0 →
  (1 ≤ rows A)%nat → (∀ m, k_max = Some m → (1 ≤ m)%Z) →
  0 < norm (prec (vsub b (matvec A (default (zeros (length b)) x0)))) →
  ∃ x trace total,
    precon_GMRES_restarted qr prec A b x0 k_max restart epsilon
    = Return (x, trace, total) ∧ (1 ≤ total)%nat.
Proof.
  intros _ _ _ _ Heps Hn Hk Hbeta.
  pose proof (precon_GMRES_restarted_outcome qr prec A b x0 k_max restart epsilon)
    as Hout.
  unfold gmres_continue, gmres_init in Hout. cbn [st_p0 st_pk st_total_k] in Hout.
  set (p0 := norm _) in *.
  replace (Z.of_nat 0 <? clamp_k_max k_max (rows A))%Z with true in Hout.
  - change (s_ltb (s_mul epsilon p0) p0) with (Rltb (epsilon * p0) p0) in Hout.
    rewrite Rltb_true in Hout by nra. exact Hout.
  - symmetry. apply Z.ltb_lt. unfold clamp_k_max. destruct k_max as [m|]; [|lia].
    specialize (Hk m eq_refl).
    destruct (Z.ltb_spec (Z.of_nat (rows A)) m); lia.
Qed.

Lemma parameters_not_validated_witness :
  ∃ x trace total,
    precon_GMRES_restarted qr_of_trapezoidal (fun x => x) A_2 b_1 None (Some 1%Z) None 0
    = Return (x, trace, total) ∧ (1 ≤ total)%nat.
Proof.
  apply (parameters_not_validated qr_of_trapezoidal (fun x => x) A_2 b_1
           None (Some 1%Z) None 0).
  - reflexivity.
  - reflexivity.
  - intros v Hv. discriminate Hv.
  - reflexivity.
  - lra.
  - simpl. lia.
  - intros m [= <-]. lia.
  - unfold norm. cbn.
    replace ((1 - (2 * 0 + 0)) * (1 - (2 * 0 + 0)) + 0) with 1 by lra.
    rewrite sqrt_1. lra.
Defined.

End RealDriver.

(** ** [discretise_poisson]: the arrays are filled exactly *)

Section PoissonFacts.
Variable junk : nat → nat → Z.
#[local] Open Scope Z_scope.

Lemma store_at (l1 l2 : list Z) (c t : nat) (v : Z) :
  length l1 = c →
  store (l1 ++ l2) (c + t) v = (l2' ← store l2 t v; Return (l1 ++ l2')).
Proof.
  intros <-. unfold store. rewrite length_app.
  destruct (Nat.ltb_spec t (length l2)) as [Ht|Ht].
  - destruct (Nat.ltb_spec (length l1 + t) (length l1 + length l2)); [|lia].
    simpl_outcome. by rewrite insert_app_r.
  - destruct (Nat.ltb_spec (length l1 + t) (length l1 + length l2)); [lia|done].
Qed.

Lemma store_at_0 (l1 l2 : list Z) (c : nat) (v : Z) :
  length l1 = c →
  store (l1 ++ l2) c v = (l2' ← store l2 0 v; Return (l1 ++ l2')).
Proof. intros Hc. rewrite <- (store_at l1 l2 c 0 v Hc). f_equal. lia. Qed.

Lemma store_slice_at (l1 l2 : list Z) (c lo hi : nat) (v : Z) :
  length l1 = c →
  store_slice (l1 ++ l2) (c + lo) (c + hi) v = l1 ++ store_slice l2 lo hi v.
Proof.
  intros <-. unfold store_slice.
  replace (length l1 + hi - (length l1 + lo))%nat with (hi - lo)%nat by lia.
  generalize (hi - lo)%nat as m. intros m. revert lo l2.
  induction m as [|m IH]; intros lo l2; simpl; [done|].
  rewrite insert_app_r. replace (S (length l1 + lo)) with (length l1 + S lo)%nat by lia.
  apply IH.
Qed.

Lemma store_slice_at_0 (l1 l2 : list Z) (c hi : nat) (v : Z) :
  length l1 = c →
  store_slice (l1 ++ l2) c (c + hi) v = l1 ++ store_slice l2 0 hi v.
Proof. intros Hc. rewrite <- (store_slice_at l1 l2 c 0 hi v Hc). f_equal. lia. Qed.

Lemma poisson_node_filled (N j i : nat) (st : poisson_state)
    (ts : list (Z * (Z * Z))) (rest : nat) :
  filled st ts rest →
  (length (node_triples N j i) ≤ rest)%nat →
  (j * N + i < length (ps_f st))%nat →
  ∃ st', poisson_node N j st i = Return st'
         ∧ filled st' (ts ++ node_triples N j i) (rest - length (node_triples N j i))
         ∧ ps_f st' = <[(j * N + i)%nat := node_forcing N j i]> (ps_f st).
Proof.
  intros (Hc & r1 & r2 & r3 & H1 & H2 & H3 & L1 & L2 & L3) Hrest Hf.
  unfold poisson_node, node_triples, node_forcing in *.
  assert (E1 : length ts.*1 = ps_count st) by (by rewrite length_fmap).
  assert (E2 : length ts.*2.*1 = ps_count st) by (by rewrite !length_fmap).
  assert (E3 : length ts.*2.*2 = ps_count st) by (by rewrite !length_fmap).
  assert (Hst : ∀ v, store (ps_f st) (j * N + i) v
                     = Return (<[(j * N + i)%nat := v]> (ps_f st))).
  { intros v. unfold store. by destruct (Nat.ltb_spec (j * N + i) (length (ps_f st))); [|lia]. }
  destruct (is_boundary N i j); simpl in Hrest.
  - destruct r1 as [|a1 r1]; [simpl in *; lia|].
    destruct r2 as [|a2 r2]; [simpl in *; lia|].
    destruct r3 as [|a3 r3]; [simpl in *; lia|].
    rewrite H1, H2, H3, Hst.
    rewrite !store_at_0 by done. simpl_outcome.
    eexists. split; [reflexivity|]. split; [|reflexivity].
    split; simpl; [rewrite length_app; simpl; lia|].
    exists r1, r2, r3. rewrite !fmap_app, <- !app_assoc. simpl in *.
    repeat split; try done; lia.
  - destruct r1 as [|a1 [|b1 [|c1 [|d1 [|e1 r1]]]]]; try (simpl in *; lia).
    destruct r2 as [|a2 [|b2 [|c2 [|d2 [|e2 r2]]]]]; try (simpl in *; lia).
    destruct r3 as [|a3 [|b3 [|c3 [|d3 [|e3 r3]]]]]; try (simpl in *; lia).
    rewrite H1, H2, H3, Hst.
    rewrite store_slice_at_0 by done.
    rewrite !store_at_0 by done. simpl_outcome.
    do 4 (rewrite store_at by done; simpl_outcome).
    rewrite store_slice_at by done.
    eexists. split; [reflexivity|]. split; [|reflexivity].
    split; simpl; [rewrite length_app; simpl; lia|].
    exists r1, r2, r3. rewrite !fmap_app, <- !app_assoc. simpl in *.
    repeat split; try done; lia.
Qed.

Lemma for_each_app {S X : Type} (body : S → X → outcome S) (s : S) (l1 l2 : list X) :
  for_each body s (l1 ++ l2) = (s' ← for_each body s l1; for_each body s' l2).
Proof.
  revert s. induction l1 as [|x l1 IH]; intros s; simpl; [done|].
  destruct (body s x) as [s'| |]; simpl_outcome; [apply IH|done..].
Qed.

Lemma for_each_fmap {S X Y : Type} (body : S → Y → outcome S) (h : X → Y)
    (s : S) (l : list X) :
  for_each body s (h <$> l) = for_each (fun s x => body s (h x)) s l.
Proof.
  revert s. induction l as [|x l IH]; intros s; simpl; [done|].
  destruct (body s (h x)) as [s'| |]; simpl_outcome; [apply IH|done..].
Qed.

Lemma for_each_bind {S X Y : Type} (body : S → Y → outcome S) (g : X → list Y)
    (s : S) (l : list X) :
  for_each body s (l ≫= g) = for_each (fun s x => for_each body s (g x)) s l.
Proof.
  revert s. induction l as [|x l IH]; intros s; [done|].
  rewrite bind_cons, for_each_app. simpl.
  destruct (for_each body s (g x)) as [s'| |]; simpl_outcome; [apply IH|done..].
Qed.

Lemma for_each_ext {S X : Type} (body1 body2 : S → X → outcome S) (s : S) (l : list X) :
  (∀ s x, body1 s x = body2 s x) → for_each body1 s l = for_each body2 s l.
Proof.
  intros Hext. revert s. induction l as [|x l IH]; intros s; simpl; [done|].
  rewrite Hext. destruct (body2 s x) as [s'| |]; simpl_outcome; [apply IH|done..].
Qed.

Lemma poisson_loops_grid (N : nat) (st : poisson_state) :
  for_each (fun st j => for_each (poisson_node N j) st (seq 0 N)) st (seq 0 N)
  = for_each (fun st ji => poisson_node N ji.1 st ji.2) st (grid N).
Proof.
  unfold grid. rewrite for_each_bind. apply for_each_ext.
  intros s j. by rewrite for_each_fmap.
Qed.

Lemma grid_triples_cons (N : nat) (ji : nat * nat) (nodes : list (nat * nat)) :
  grid_triples N (ji :: nodes) = node_triples N ji.1 ji.2 ++ grid_triples N nodes.
Proof. unfold grid_triples. by rewrite bind_cons. Qed.

(** Running the loops over [nodes] with enough room left appends the
    triples of [nodes] and writes their forcing terms. *)
Lemma poisson_nodes_filled (N : nat) (nodes : list (nat * nat)) :
  ∀ (st : poisson_state) (ts : list (Z * (Z * Z))) (rest : nat),
    filled st ts rest →
    (length (grid_triples N nodes) ≤ rest)%nat →
    Forall (fun ji => (ji.1 * N + ji.2 < length (ps_f st))%nat) nodes →
    ∃ st', for_each (fun st ji => poisson_node N ji.1 st ji.2) st nodes = Return st'
           ∧ filled st' (ts ++ grid_triples N nodes)
                    (rest - length (grid_triples N nodes))
           ∧ ps_f st' = grid_forcing N (ps_f st) nodes.
Proof.
  induction nodes as [|[j i] nodes IH]; intros st ts rest Hfill Hrest Hf.
  - exists st. simpl. rewrite app_nil_r, Nat.sub_0_r. done.
  - rewrite grid_triples_cons, length_app in Hrest. simpl in Hrest.
    apply Forall_cons in Hf as [Hji Hf]. simpl in Hji.
    destruct (poisson_node_filled N j i st ts rest Hfill) as (st1 & Hnode & Hfill1 & Hf1);
      [lia|done|].
    destruct (IH st1 _ _ Hfill1) as (st' & Hrun & Hfill' & Hf').
    + lia.
    + rewrite Hf1, length_insert. done.
    + exists st'. cbn [for_each fst snd]. rewrite Hnode.
      split; [by simpl_outcome|]. split.
      * rewrite grid_triples_cons, length_app. cbn [fst snd].
        rewrite <- app_assoc in Hfill'.
        by replace (rest - (length (node_triples N j i) + length (grid_triples N nodes)))%nat
          with (rest - length (node_triples N j i) - length (grid_triples N nodes))%nat by lia.
      * by rewrite Hf', Hf1.
Qed.

(** *** How many triples there are *)

Lemma length_bind_sum {A B : Type} (g : A → list B) (l : list A) :
  length (l ≫= g) = sum_list_with (fun x => length (g x)) l.
Proof.
  induction l as [|x l IH]; [done|].
  rewrite bind_cons, length_app, IH. done.
Qed.

Lemma sum_list_with_const {A : Type} (g : A → nat) (c : nat) (l : list A) :
  Forall (fun x => g x = c) l → sum_list_with g l = (length l * c)%nat.
Proof. induction 1 as [|x l Hx _ IH]; simpl; [done|]. rewrite Hx, IH. lia. Qed.

Lemma sum_list_with_pointwise {A : Type} (g h : A → nat) (l : list A) :
  (∀ x, g x = h x) → sum_list_with g l = sum_list_with h l.
Proof. intros Hgh. induction l as [|x l IH]; simpl; [done|]. by rewrite Hgh, IH. Qed.

Lemma grid_triples_rows (N : nat) (js cs : list nat) :
  grid_triples N (j ← js; pair j <$> cs) = j ← js; cs ≫= node_triples N j.
Proof.
  unfold grid_triples.
  assert (Hrow : ∀ j, (pair j <$> cs) ≫= (fun ji => node_triples N ji.1 ji.2)
                      = cs ≫= node_triples N j).
  { intros j. induction cs as [|i cs IHcs]; [reflexivity|].
    by rewrite fmap_cons, !bind_cons, IHcs. }
  induction js as [|j js IH]; [reflexivity|].
  by rewrite !bind_cons, bind_app, IH, Hrow.
Qed.

Lemma grid_triples_grid (N : nat) :
  grid_triples N (grid N) = j ← seq 0 N; seq 0 N ≫= node_triples N j.
Proof. apply grid_triples_rows. Qed.

Lemma length_node_triples (N j i : nat) :
  length (node_triples N j i) = if is_boundary N i j then 1%nat else 5%nat.
Proof. unfold node_triples. by destruct (is_boundary N i j). Qed.

Lemma is_boundary_spec (N i j : nat) :
  is_boundary N i j = true
  ↔ (i = 0 ∨ S i = N ∨ j = 0 ∨ S j = N)%nat.
Proof.
  unfold is_boundary. rewrite !orb_true_iff, !Z.eqb_eq. lia.
Qed.

(** A row of the grid: [N] triples on the first and the last row, two
    boundary nodes and [N - 2] stencils on the others. *)
Lemma row_triples_count (M j : nat) :
  sum_list_with (fun i => length (node_triples (S (S M)) j i)) (seq 0 (S (S M)))
  = if is_boundary (S (S M)) 1 j then S (S M) else (5 * M + 2)%nat.
Proof.
  destruct (is_boundary (S (S M)) 1 j) eqn:Hb.
  - rewrite (sum_list_with_const _ 1); [rewrite length_seq; lia|].
    apply Forall_forall. intros i Hi. rewrite length_node_triples.
    replace (is_boundary (S (S M)) i j) with true; [done|].
    symmetry. apply is_boundary_spec. apply is_boundary_spec in Hb.
    apply elem_of_seq in Hi. lia.
  - replace (seq 0 (S (S M))) with (0%nat :: seq 1 M ++ [S M])
      by (by rewrite (seq_S (S M)) at 1).
    simpl. rewrite sum_list_with_app. simpl.
    rewrite (sum_list_with_const _ 5 (seq 1 M)).
    + rewrite !length_node_triples, length_seq.
      replace (is_boundary (S (S M)) 0 j) with true
        by (symmetry; apply is_boundary_spec; lia).
      replace (is_boundary (S (S M)) (S M) j) with true
        by (symmetry; apply is_boundary_spec; lia).
      lia.
    + apply Forall_forall. intros i Hi. apply elem_of_seq in Hi.
      rewrite length_node_triples.
      destruct (is_boundary (S (S M)) i j) eqn:Hb'; [|done].
      apply is_boundary_spec in Hb'.
      assert (Hn : ¬ (1 = 0 ∨ 2 = S (S M) ∨ j = 0 ∨ S j = S (S M))%nat).
      { intros Hc. apply is_boundary_spec in Hc. congruence. }
      lia.
Qed.

Lemma grid_triples_count (N : nat) :
  (2 ≤ N)%nat →
  length (grid_triples N (grid N))
  = Z.to_nat (5 * Z.of_nat N ^ 2 - 16 * Z.of_nat N + 16).
Proof.
  intros HN. destruct N as [|[|M]]; [lia..|].
  rewrite grid_triples_grid, length_bind_sum.
  rewrite (sum_list_with_pointwise _
             (fun j => if is_boundary (S (S M)) 1 j then S (S M) else (5 * M + 2)%nat)).
  2: { intros j. rewrite length_bind_sum. apply row_triples_count. }
  replace (seq 0 (S (S M))) with (0%nat :: seq 1 M ++ [S M])
    by (by rewrite (seq_S (S M)) at 1).
  simpl. rewrite sum_list_with_app. simpl.
  rewrite (sum_list_with_const _ (5 * M + 2) (seq 1 M)).
  - replace (is_boundary (S (S M)) 1 0) with true
      by (symmetry; apply is_boundary_spec; lia).
    replace (is_boundary (S (S M)) 1 (S M)) with true
      by (symmetry; apply is_boundary_spec; lia).
    rewrite length_seq. nia.
  - apply Forall_forall. intros j Hj. apply elem_of_seq in Hj.
    destruct (is_boundary (S (S M)) 1 j) eqn:Hb; [|done].
    apply is_boundary_spec in Hb. lia.
Qed.

(** *** The entries the triples stand for *)

Lemma triples_entry_app (ts1 ts2 : list (Z * (Z * Z))) (r c : Z) :
  triples_entry (ts1 ++ ts2) r c = triples_entry ts1 r c + triples_entry ts2 r c.
Proof.
  unfold triples_entry. induction ts1 as [|t ts1 IH]; simpl; [done|].
  rewrite IH. destruct (_ && _); lia.
Qed.

Lemma triples_entry_other_row (ts : list (Z * (Z * Z))) (r c : Z) :
  Forall (fun t => t.1 ≠ r) ts → triples_entry ts r c = 0.
Proof.
  unfold triples_entry. induction 1 as [|t ts Ht _ IH]; simpl; [done|].
  rewrite IH. by destruct (Z.eqb_spec t.1 r).
Qed.

Lemma node_triples_row (N j i : nat) :
  Forall (fun t => t.1 = Z.of_nat j * Z.of_nat N + Z.of_nat i) (node_triples N j i).
Proof.
  unfold node_triples. destruct (is_boundary N i j); repeat constructor.
Qed.

(** The node index [j N + i] determines the node. *)
Lemma node_index_inj (N j i j' i' : nat) :
  (i < N)%nat → (i' < N)%nat → (j * N + i = j' * N + i')%nat → j = j' ∧ i = i'.
Proof.
  intros Hi Hi' Heq.
  destruct (Nat.lt_trichotomy j j') as [Hlt|[->|Hlt]]; [|lia|].
  - pose proof (Nat.mul_le_mono_r (S j) j' N Hlt). lia.
  - pose proof (Nat.mul_le_mono_r (S j') j N Hlt). lia.
Qed.

Lemma triples_entry_other_node (N j i j0 i0 : nat) (c : Z) :
  (i < N)%nat → (i0 < N)%nat → (j, i) ≠ (j0, i0) →
  triples_entry (node_triples N j i) (Z.of_nat j0 * Z.of_nat N + Z.of_nat i0) c = 0.
Proof.
  intros Hi Hi0 Hne. apply triples_entry_other_row.
  eapply Forall_impl; [apply node_triples_row|]. simpl. intros t -> Heq.
  destruct (node_index_inj N j i j0 i0) as [-> ->]; [done|done|lia|done].
Qed.

(** A sum over a range in which a single index contributes. *)
Lemma triples_entry_bind_single (g : nat → list (Z * (Z * Z))) (r c : Z) (x0 a n : nat) :
  (∀ x, x ≠ x0 → triples_entry (g x) r c = 0) →
  (a ≤ x0 < a + n)%nat →
  triples_entry (seq a n ≫= g) r c = triples_entry (g x0) r c.
Proof.
  intros Hz. revert a. induction n as [|n IH]; intros a Hx; [lia|].
  simpl seq. rewrite bind_cons, triples_entry_app.
  destruct (decide (a = x0)) as [->|Hne].
  - assert (Hrest : triples_entry (seq (S x0) n ≫= g) r c = 0); [|lia].
    clear IH Hx. generalize (S x0) (Nat.lt_succ_diag_r x0).
    induction n as [|n IHn]; intros b Hb; [done|].
    simpl seq. rewrite bind_cons, triples_entry_app, Hz, IHn by lia. done.
  - rewrite Hz, IH by lia. done.
Qed.

Lemma triples_entry_other_grid_row (N j j0 i0 : nat) (c : Z) :
  (i0 < N)%nat → j ≠ j0 →
  triples_entry (seq 0 N ≫= node_triples N j)
                (Z.of_nat j0 * Z.of_nat N + Z.of_nat i0) c = 0.
Proof.
  intros Hi0 Hne.
  assert (Hcs : ∀ cs, Forall (fun i => (i < N)%nat) cs →
            triples_entry (cs ≫= node_triples N j)
                          (Z.of_nat j0 * Z.of_nat N + Z.of_nat i0) c = 0).
  { induction 1 as [|i cs Hi _ IH]; [done|].
    rewrite bind_cons, triples_entry_app, IH.
    rewrite triples_entry_other_node by (done || congruence). done. }
  apply Hcs, Forall_forall. intros i Hi. apply elem_of_seq in Hi. lia.
Qed.

Lemma grid_triples_entry (N j0 i0 : nat) (c : Z) :
  (j0 < N)%nat → (i0 < N)%nat →
  triples_entry (grid_triples N (grid N)) (Z.of_nat j0 * Z.of_nat N + Z.of_nat i0) c
  = triples_entry (node_triples N j0 i0) (Z.of_nat j0 * Z.of_nat N + Z.of_nat i0) c.
Proof.
  intros Hj Hi. rewrite grid_triples_grid.
  rewrite (triples_entry_bind_single _ _ _ j0);
    [|intros j Hne; by apply triples_entry_other_grid_row|lia].
  apply triples_entry_bind_single; [|lia].
  intros i Hne. destruct (decide (i < N)%nat) as [Hlt|Hge].
  - apply triples_entry_other_node; [done|done|congruence].
  - apply triples_entry_other_row.
    eapply Forall_impl; [apply node_triples_row|]. simpl. intros t -> Heq. nia.
Qed.

(** The stencil of a node, read off its triples. *)
Lemma node_triples_entry (N j i : nat) (c : Z) :
  (2 ≤ N)%nat → (j < N)%nat → (i < N)%nat →
  let n := Z.of_nat N in
  let p := Z.of_nat j * n + Z.of_nat i in
  triples_entry (node_triples N j i) p c
  = if is_boundary N i j then (if c =? p then 1 else 0)
    else if c =? p then 4 * (n - 1) ^ 2
    else if (c =? p + 1) || (c =? p - 1) || (c =? p + n) || (c =? p - n)
         then - (n - 1) ^ 2 else 0.
Proof.
  intros HN Hj Hi n p. unfold node_triples, triples_entry. fold n. fold p.
  destruct (is_boundary N i j) eqn:Hb; simpl.
  - rewrite Z.eqb_refl. simpl. rewrite (Z.eqb_sym p c). destruct (c =? p); lia.
  - rewrite Z.eqb_refl. simpl.
    assert (Hn : 3 ≤ n).
    { destruct (decide (3 ≤ n)); [done|]. exfalso.
      assert (is_boundary N i j = true); [|congruence].
      apply is_boundary_spec. lia. }
    replace ((Z.of_nat j + 1) * n + Z.of_nat i) with (p + n) by (unfold p; lia).
    replace ((Z.of_nat j - 1) * n + Z.of_nat i) with (p - n) by (unfold p; lia).
    rewrite (Z.eqb_sym p c), (Z.eqb_sym (p + 1) c), (Z.eqb_sym (p - 1) c),
      (Z.eqb_sym (p + n) c), (Z.eqb_sym (p - n) c).
    destruct (Z.eqb_spec c p), (Z.eqb_spec c (p + 1)), (Z.eqb_spec c (p - 1)),
      (Z.eqb_spec c (p + n)), (Z.eqb_spec c (p - n)); simpl; lia.
Qed.

(** *** The right-hand side *)

Lemma length_grid_forcing (N : nat) (nodes : list (nat * nat)) (f : list Z) :
  length (grid_forcing N f nodes) = length f.
Proof.
  unfold grid_forcing. revert f. induction nodes as [|ji nodes IH]; intros f; simpl; [done|].
  by rewrite IH, length_insert.
Qed.

Lemma grid_forcing_lookup (N j0 i0 : nat) (f : list Z) (nodes : list (nat * nat)) :
  (j0, i0) ∈ nodes → Forall (fun ji => (ji.2 < N)%nat) nodes → (i0 < N)%nat →
  (j0 * N + i0 < length f)%nat →
  grid_forcing N f nodes !! (j0 * N + i0)%nat = Some (node_forcing N j0 i0).
Proof.
  intros Hin Hall Hi0 Hlen. induction nodes as [|[j i] nodes IH] using rev_ind.
  - by apply elem_of_nil in Hin.
  - unfold grid_forcing in *. rewrite foldl_app. simpl.
    apply Forall_app in Hall as [Hall Hji]. apply Forall_inv in Hji. simpl in Hji.
    destruct (decide ((j * N + i)%nat = (j0 * N + i0)%nat)) as [Heq|Hne].
    + destruct (node_index_inj N j i j0 i0) as [-> ->]; [done..|].
      apply list_lookup_insert_eq.
      change (foldl _ f nodes) with (grid_forcing N f nodes).
      by rewrite length_grid_forcing.
    + rewrite list_lookup_insert_ne by done. apply IH; [|done].
      apply elem_of_app in Hin as [Hin|Hin]; [done|].
      apply list_elem_of_singleton in Hin. congruence.
Qed.

Lemma elem_of_grid (N j i : nat) : (j, i) ∈ grid N ↔ (j < N)%nat ∧ (i < N)%nat.
Proof.
  unfold grid. rewrite list_elem_of_bind. split.
  - intros (j' & Hi & Hj). apply list_elem_of_fmap in Hi as (i' & [= -> ->] & Hi).
    apply elem_of_seq in Hi, Hj. lia.
  - intros [Hj Hi]. exists j. split; [|apply elem_of_seq; lia].
    apply list_elem_of_fmap. exists i. split; [done|]. apply elem_of_seq. lia.
Qed.

(** C9. For every grid size [N >= 2] the generator raises nothing and
    returns a matrix of shape (N^2, N^2) with a right-hand side of length
    N^2, whatever the fresh arrays held; the row of a boundary node is the
    row of the identity and its forcing term is 0; the row of an interior
    node holds [4 (N-1)^2] on the diagonal, [-(N-1)^2] at its four
    neighbours and 0 elsewhere, and its forcing term is 1. *)
Theorem discretise_poisson_spec (N : nat) :
  (2 ≤ N)%nat →
  ∃ (A : coo_matrix) (f : list Z),
    discretise_poisson junk N = Return (A, f)
    ∧ coo_shape A = (N ^ 2, N ^ 2)%nat
    ∧ length f = (N ^ 2)%nat
    ∧ ∀ j i : nat, (j < N)%nat → (i < N)%nat →
        let n := Z.of_nat N in
        let p := Z.of_nat j * n + Z.of_nat i in
        if is_boundary N i j
        then f !! (j * N + i)%nat = Some 0
             ∧ ∀ c, coo_entry A p c = if c =? p then 1 else 0
        else f !! (j * N + i)%nat = Some 1
             ∧ ∀ c, coo_entry A p c
                    = if c =? p then 4 * (n - 1) ^ 2
                      else if (c =? p + 1) || (c =? p - 1) || (c =? p + n) || (c =? p - n)
                           then - (n - 1) ^ 2 else 0.
Proof.
  intros HN. unfold discretise_poisson. rewrite poisson_loops_grid.
  set (nel := Z.to_nat _). set (st0 := PoissonState _ _ _ _ _).
  assert (Hgrid : ∀ j i, (j, i) ∈ grid N → (j * N + i < N * N)%nat).
  { intros j i Hin. apply elem_of_grid in Hin as [Hj Hi].
    pose proof (Nat.mul_le_mono_r (S j) N N Hj). lia. }
  destruct (poisson_nodes_filled N (grid N) st0 [] nel) as (st' & Hrun & Hfill & Hf).
  { split; [done|]. exists (np_empty junk 0 nel), (np_empty junk 1 nel), (np_empty junk 2 nel).
    unfold np_empty. rewrite !length_fmap, !length_seq. done. }
  { unfold nel. by rewrite grid_triples_count. }
  { apply Forall_forall. intros [j i] Hin. simpl.
    unfold np_empty. rewrite length_fmap, length_seq. by apply Hgrid. }
  rewrite Hrun. simpl_outcome.
  unfold nel in Hfill. rewrite <- grid_triples_count, Nat.sub_diag in Hfill by done.
  destruct Hfill as (_ & r1 & r2 & r3 & H1 & H2 & H3 & L1 & L2 & L3).
  apply nil_length_inv in L1, L2, L3. subst r1 r2 r3.
  rewrite app_nil_r in H1, H2, H3.
  assert (Hlenf : length (ps_f st') = (N * N)%nat).
  { rewrite Hf, length_grid_forcing. unfold np_empty.
    by rewrite length_fmap, length_seq. }
  eexists _, _. split; [reflexivity|]. split; [done|].
  split; [rewrite Hlenf; simpl; lia|].
  intros j i Hj Hi. cbv zeta.
  set (n := Z.of_nat N). set (p := Z.of_nat j * n + Z.of_nat i).
  assert (Hlook : ps_f st' !! (j * N + i)%nat = Some (node_forcing N j i)).
  { rewrite Hf. apply grid_forcing_lookup; [by apply elem_of_grid| |done|].
    - apply Forall_forall. intros [j' i'] Hin. by apply elem_of_grid in Hin as [_ ?].
    - unfold np_empty. rewrite length_fmap, length_seq.
      apply Hgrid. by apply elem_of_grid. }
  assert (Hent : ∀ c, coo_entry (CooMatrix (N ^ 2, N ^ 2)%nat (ps_row_ind st')
                                  (ps_col_ind st') (ps_data st')) p c
                      = triples_entry (node_triples N j i) p c).
  { intros c. unfold coo_entry. simpl. rewrite H1, H2, H3, !zip_fst_snd.
    by apply grid_triples_entry. }
  pose proof (fun c => node_triples_entry N j i c HN Hj Hi) as Hnode.
  simpl in Hnode. fold n in Hnode. fold p in Hnode.
  unfold node_forcing in Hlook.
  destruct (is_boundary N i j); (split; [done|]); intros c; by rewrite Hent, Hnode.
Qed.

End PoissonFacts.

Lemma discretise_poisson_spec_witness :
  ∃ (A : coo_matrix) (f : list Z),
    discretise_poisson (fun _ _ => (-7)%Z) 3 = Return (A, f)
    ∧ coo_shape A = (3 ^ 2, 3 ^ 2)
    ∧ length f = 3 ^ 2
    ∧ ∀ j i : nat, j < 3 → i < 3 →
        let n := Z.of_nat 3 in
        let p := (Z.of_nat j * n + Z.of_nat i)%Z in
        if is_boundary 3 i j
        then f !! (j * 3 + i) = Some 0%Z
             ∧ ∀ c, coo_entry A p c = if (c =? p)%Z then 1%Z else 0%Z
        else f !! (j * 3 + i) = Some 1%Z
             ∧ ∀ c, coo_entry A p c
                    = if (c =? p)%Z then (4 * (n - 1) ^ 2)%Z
                      else if (c =? p + 1)%Z || (c =? p - 1)%Z || (c =? p + n)%Z
                              || (c =? p - n)%Z
                           then (- (n - 1) ^ 2)%Z else 0%Z.
Proof. apply (discretise_poisson_spec (fun _ _ => (-7)%Z) 3). lia. Defined.

(** ** The same runs in binary64 arithmetic *)

Section FloatRuns.

(** A zero pivot raises nothing: the quotient is an infinity or a NaN, and
    it is stored in the result. *)
Example back_substitution_zero_pivot :
  back_substitution (of_rows [[IEEE.f0]]) [IEEE.f1] = Return [PrimFloat.infinity]
  ∧ back_substitution (of_rows [[IEEE.f0]]) [IEEE.f0] = Return [PrimFloat.nan]
  ∧ back_substitution (of_rows [[IEEE.f1; IEEE.f1]; [IEEE.f0; IEEE.f0]]) [IEEE.f1; IEEE.f1]
    = Return [PrimFloat.neg_infinity; PrimFloat.infinity].
Proof. vm_compute. repeat split. Qed.


(** [2 x = 1]: the torch driver appends [0] and then the estimate 1. *)
Example breakdown_run_binary64 :
  precon_GMRES_restarted IEEE.qr_identity (fun x => x) (of_rows [[IEEE.f2]])
    [IEEE.f1] None None None s_1em12
  = Return ([PrimFloat.div IEEE.f1 IEEE.f2], [IEEE.f1; IEEE.f0; IEEE.f1], 1).
Proof. vm_compute. reflexivity. Qed.

(** [1 x = 0]: the seed column is [0 / 0], a NaN; the loop is skipped and the
    [return] fails. *)
Example zero_residual_binary64 :
  precon_GMRES_restarted IEEE.qr_identity (fun x => x) (of_rows [[IEEE.f1]])
    [IEEE.f0] None None None s_1em12
  = Raise (UnboundLocalError "xk").
Proof. vm_compute. reflexivity. Qed.

End FloatRuns.

(** ** More about the loop of [precon_GMRES_restarted] *)

Section DriverMore.
Context {T : Type} `{Scalar T}.
#[local] Abbreviation vec := (list T) (only parsing).

Lemma gmres_loop_total_le (qr : tensor T → tensor T * tensor T) (prec : vec → vec)
    (A : tensor T) (b : vec) (n : nat) (k_max : Z) (restart : option Z) (epsilon : T)
    (fuel : nat) :
  ∀ st st' : gmres_state T,
    gmres_loop qr prec A b n k_max restart epsilon fuel st = Return st' →
    (Z.of_nat (st_total_k st) ≤ Z.max k_max 0)%Z →
    (Z.of_nat (st_total_k st') ≤ Z.max k_max 0)%Z.
Proof.
  induction fuel as [|fuel IH]; intros st st' Hloop Hst; simpl in Hloop.
  - destruct (gmres_continue epsilon k_max st); [done|]. by injection Hloop as <-.
  - destruct (gmres_continue epsilon k_max st) eqn:Hc; [|by injection Hloop as <-].
    unfold gmres_continue in Hc. apply andb_prop in Hc as [_ Hlt]. apply Z.ltb_lt in Hlt.
    destruct (gmres_iter qr prec A n st) as [st1| |] eqn:Hit; simpl_outcome; [|done..].
    apply gmres_iter_Return in Hit as (_ & Ht & _).
    apply (IH _ _ Hloop). rewrite gmres_maybe_restart_total_k. lia.
Qed.

(** X2. For operands that conform ([A] square, [b] and [x0] of its size, a
    preconditioner that keeps the length of its argument; torch raises
    otherwise), a call of the driver ends in one of two ways: with
    [UnboundLocalError] for [xk], or with a triple whose iteration count is
    at least 1, at most the bound [k_max] when one is given, and at most
    the number of rows of [A].  The [ValueError] of [back_substitution]
    never leaves the loop. *)
Theorem precon_GMRES_restarted_iterations (qr : tensor T → tensor T * tensor T)
    (prec : vec → vec) (A : tensor T) (b : vec) (x0 : option vec)
    (k_max restart : option Z) (epsilon : T) :
  cols A = rows A → length b = rows A →
  (∀ x, x0 = Some x → length x = rows A) →
  (∀ v, length (prec v) = length v) →
  precon_GMRES_restarted qr prec A b x0 k_max restart epsilon
  = Raise (UnboundLocalError "xk")
  ∨ ∃ x trace total,
      precon_GMRES_restarted qr prec A b x0 k_max restart epsilon
      = Return (x, trace, total)
      ∧ 1 ≤ total ≤ rows A
      ∧ match k_max with Some m => (Z.of_nat total ≤ m)%Z | None => True end.
Proof.
  intros _ _ _ _.
  pose proof (precon_GMRES_restarted_outcome qr prec A b x0 k_max restart epsilon) as Hout.
  destruct (gmres_continue _ _ _); [|by left]. right.
  destruct Hout as (x & trace & total & Hret & Htotal).
  exists x, trace, total. split; [done|].
  assert (Hle : (Z.of_nat total ≤ Z.max (clamp_k_max k_max (rows A)) 0)%Z).
  { unfold precon_GMRES_restarted in Hret.
    destruct (gmres_loop _ _ _ _ _ _ _ _ _ _) as [st| |] eqn:Hloop; simpl_outcome; [|done..].
    unfold gmres_return in Hret. destruct (st_xk st); [|done]. injection Hret as _ _ <-.
    apply (gmres_loop_total_le _ _ _ _ _ _ _ _ _ _ _ Hloop). simpl. lia. }
  unfold clamp_k_max in Hle. destruct k_max as [m|].
  - destruct (Z.ltb_spec (Z.of_nat (rows A)) m); lia.
  - lia.
Qed.

(** After an iteration the cycle counter is at least 1: a restart period
    that is not positive never fires. *)
Lemma gmres_loop_restart_nonpositive (qr : tensor T → tensor T * tensor T)
    (prec : vec → vec) (A : tensor T) (b : vec) (n : nat) (k_max r : Z) (epsilon : T)
    (fuel : nat) :
  (r ≤ 0)%Z →
  ∀ st : gmres_state T,
    gmres_loop qr prec A b n k_max (Some r) epsilon fuel st
    = gmres_loop qr prec A b n k_max None epsilon fuel st.
Proof.
  intros Hr. induction fuel as [|fuel IH]; intros st; simpl; [done|].
  destruct (gmres_continue epsilon k_max st); [|done].
  destruct (gmres_iter qr prec A n st) as [st1| |] eqn:Hit; simpl_outcome; [|done..].
  apply gmres_iter_Return in Hit as (Hk & _).
  destruct (Z.eqb_spec (Z.of_nat (st_k st1)) r); [lia|]. apply IH.
Qed.

(** X3. A restart period [restart <= 0] is accepted and ignored: the call
    is the call with [restart = None]. *)
Theorem precon_GMRES_restarted_restart_nonpositive (qr : tensor T → tensor T * tensor T)
    (prec : vec → vec) (A : tensor T) (b : vec) (x0 : option vec) (k_max : option Z)
    (r : Z) (epsilon : T) :
  (r ≤ 0)%Z →
  precon_GMRES_restarted qr prec A b x0 k_max (Some r) epsilon
  = precon_GMRES_restarted qr prec A b x0 k_max None epsilon.
Proof.
  intros Hr. unfold precon_GMRES_restarted.
  by rewrite gmres_loop_restart_nonpositive.
Qed.

(** What an iteration appends ends with the new [pk]. *)
Lemma gmres_iter_trace (qr : tensor T → tensor T * tensor T) (prec : vec → vec)
    (A : tensor T) (n : nat) (st st' : gmres_state T) :
  gmres_iter qr prec A n st = Return st' →
  ∃ mid, st_error_list st' = st_error_list st ++ mid ++ [st_pk st'].
Proof.
  unfold gmres_iter.
  destruct (arnoldi_one_iter _ _ _ _ _) as [h_k [v|]]; simpl;
    destruct (lg_qr _ _) as [Q R];
    (destruct (back_substitution _ _) as [yk|e|]; simpl_outcome; [|done..]);
    intros [= <-]; simpl.
  - by exists [].
  - exists [s_zero]. by rewrite <- app_assoc.
Qed.

Lemma gmres_loop_no_restart_trace (qr : tensor T → tensor T * tensor T)
    (prec : vec → vec) (A : tensor T) (b : vec) (n : nat) (k_max : Z) (epsilon beta : T)
    (fuel : nat) :
  ∀ st st' : gmres_state T,
    gmres_loop qr prec A b n k_max None epsilon fuel st = Return st' →
    st_p0 st = beta → head (st_error_list st) = Some beta →
    last (st_error_list st) = Some (st_pk st) →
    head (st_error_list st') = Some beta
    ∧ last (st_error_list st') = Some (st_pk st')
    ∧ gmres_continue epsilon k_max st' = false
    ∧ st_p0 st' = beta.
Proof.
  induction fuel as [|fuel IH]; intros st st' Hloop Hp0 Hhd Hlast; simpl in Hloop.
  - destruct (gmres_continue epsilon k_max st) eqn:Hc; [done|]. by injection Hloop as <-.
  - destruct (gmres_continue epsilon k_max st) eqn:Hc; [|by injection Hloop as <-].
    destruct (gmres_iter qr prec A n st) as [st1| |] eqn:Hit; simpl_outcome; [|done..].
    destruct (gmres_iter_trace _ _ _ _ _ _ Hit) as [mid Hmid].
    apply gmres_iter_Return in Hit as (_ & _ & Hp & _).
    apply (IH _ _ Hloop); [congruence| |].
    + rewrite Hmid. destruct (st_error_list st); [done|]. done.
    + rewrite Hmid, app_assoc. apply last_snoc.
Qed.

(** X4. Without restarts, when the driver returns before the iteration
    bound is reached, it is the residual test that ended the loop: the
    trace starts with the norm [beta] of the preconditioned initial
    residual, and its last entry [pk] fails [pk > epsilon * beta]. *)
Theorem precon_GMRES_restarted_stops_on_residual (qr : tensor T → tensor T * tensor T)
    (prec : vec → vec) (A : tensor T) (b : vec) (x0 : option vec) (k_max : option Z)
    (epsilon : T) (x : vec) (trace : list T) (total : nat) :
  precon_GMRES_restarted qr prec A b x0 k_max None epsilon = Return (x, trace, total) →
  (Z.of_nat total < clamp_k_max k_max (rows A))%Z →
  ∃ pk, head trace = Some (norm (prec (vsub b (matvec A (default (zeros (length b)) x0)))))
        ∧ last trace = Some pk
        ∧ s_ltb (s_mul epsilon
                   (norm (prec (vsub b (matvec A (default (zeros (length b)) x0)))))) pk
          = false.
Proof.
  unfold precon_GMRES_restarted. intros Hret Hlt.
  destruct (gmres_loop _ _ _ _ _ _ _ _ _ _) as [st| |] eqn:Hloop; simpl_outcome; [|done..].
  unfold gmres_return in Hret. destruct (st_xk st); [|done]. injection Hret as _ <- <-.
  destruct (gmres_loop_no_restart_trace _ _ _ _ _ _ _
              (norm (prec (vsub b (matvec A (default (zeros (length b)) x0)))))
              _ _ _ Hloop) as (Hhd & Hlast & Hc & Hp0); [done..|].
  exists (st_pk st). split; [done|]. split; [done|].
  unfold gmres_continue in Hc. rewrite Hp0 in Hc.
  apply andb_false_iff in Hc as [Hc|Hc]; [done|]. apply Z.ltb_ge in Hc. lia.
Qed.

End DriverMore.

Lemma precon_GMRES_restarted_iterations_witness :
  precon_GMRES_restarted IEEE.qr_identity (fun x => x) (of_rows [[IEEE.f2]]) [IEEE.f1]
    None None None s_1em12
  = Raise (UnboundLocalError "xk")
  ∨ ∃ x trace total,
      precon_GMRES_restarted IEEE.qr_identity (fun x => x) (of_rows [[IEEE.f2]])
        [IEEE.f1] None None None s_1em12
      = Return (x, trace, total)
      ∧ 1 ≤ total ≤ rows (of_rows [[IEEE.f2]])
      ∧ match @None Z with Some m => (Z.of_nat total ≤ m)%Z | None => True end.
Proof.
  apply (precon_GMRES_restarted_iterations IEEE.qr_identity (fun x => x)
           (of_rows [[IEEE.f2]]) [IEEE.f1] None None None s_1em12).
  - reflexivity.
  - reflexivity.
  - intros x Hx. discriminate Hx.
  - intros v. reflexivity.
Defined.

Lemma precon_GMRES_restarted_trace_bounds_witness :
  1 + 1 ≤ length [IEEE.f1; IEEE.f0; IEEE.f1] ≤ 2 * 1 + 1.
Proof.
  apply (precon_GMRES_restarted_trace_bounds IEEE.qr_identity (fun x => x)
           (of_rows [[IEEE.f2]]) [IEEE.f1] None None None s_1em12
           [PrimFloat.div IEEE.f1 IEEE.f2] [IEEE.f1; IEEE.f0; IEEE.f1] 1).
  vm_compute. reflexivity.
Defined.

Lemma precon_GMRES_restarted_restart_nonpositive_witness :
  precon_GMRES_restarted IEEE.qr_identity (fun x => x)
    (of_rows [[IEEE.f1; IEEE.f0]; [IEEE.f0; IEEE.f1]]) [IEEE.f1; IEEE.f0]
    None None (Some 0%Z) s_1em12
  = precon_GMRES_restarted IEEE.qr_identity (fun x => x)
      (of_rows [[IEEE.f1; IEEE.f0]; [IEEE.f0; IEEE.f1]]) [IEEE.f1; IEEE.f0]
      None None None s_1em12.
Proof.
  apply (precon_GMRES_restarted_restart_nonpositive IEEE.qr_identity (fun x => x)
           (of_rows [[IEEE.f1; IEEE.f0]; [IEEE.f0; IEEE.f1]]) [IEEE.f1; IEEE.f0]
           None None 0%Z s_1em12).
  lia.
Defined.

Lemma precon_GMRES_restarted_stops_on_residual_witness :
  ∃ pk,
    head [IEEE.f1; IEEE.f0; IEEE.f0]
    = Some (norm (vsub [IEEE.f1; IEEE.f0]
                    (matvec (of_rows [[IEEE.f1; IEEE.f0]; [IEEE.f0; IEEE.f1]])
                       (default (zeros (length [IEEE.f1; IEEE.f0])) None))))
    ∧ last [IEEE.f1; IEEE.f0; IEEE.f0] = Some pk
    ∧ s_ltb (s_mul s_1em12
               (norm (vsub [IEEE.f1; IEEE.f0]
                        (matvec (of_rows [[IEEE.f1; IEEE.f0]; [IEEE.f0; IEEE.f1]])
                           (default (zeros (length [IEEE.f1; IEEE.f0])) None))))) pk
      = false.
Proof.
  apply (precon_GMRES_restarted_stops_on_residual
           (fun M => (tzeros (rows M) (rows M), M)) (fun x => x)
           (of_rows [[IEEE.f1; IEEE.f0]; [IEEE.f0; IEEE.f1]]) [IEEE.f1; IEEE.f0]
           None None s_1em12 [IEEE.f0; IEEE.f0] [IEEE.f1; IEEE.f0; IEEE.f0] 1).
  - vm_compute. reflexivity.
  - vm_compute. reflexivity.
Defined.

(** ** Rows, columns and products of tensors *)

Section TensorFacts.
Context {T : Type} `{Scalar T}.
#[local] Abbreviation vec := (list T) (only parsing).

Lemma matvec_length (M : tensor T) (v : vec) : length (matvec M v) = rows M.
Proof. unfold matvec. by rewrite length_fmap, length_seq. Qed.

Lemma length_col (M : tensor T) (j : nat) : length (col M j) = rows M.
Proof. unfold col. by rewrite length_fmap, length_seq. Qed.

Lemma vget_col (M : tensor T) (i j : nat) : i < rows M → vget (col M j) i = entry M i j.
Proof.
  intros Hi. unfold vget, col. by rewrite list_lookup_fmap, lookup_seq_lt.
Qed.

Lemma col_set_col_eq (M : tensor T) (j : nat) (v : vec) :
  length v = rows M → col (set_col M (rows M) j v) j = v.
Proof.
  intros Hv. apply list_eq. intros i. unfold col. simpl.
  rewrite list_lookup_fmap, Nat.eqb_refl.
  destruct (decide (i < rows M)) as [Hi|Hi].
  - rewrite lookup_seq_lt by done. simpl.
    destruct (Nat.ltb_spec i (rows M)); [|lia]. simpl. unfold vget.
    by destruct (lookup_lt_is_Some_2 v i ltac:(lia)) as [x ->].
  - rewrite lookup_seq_ge by lia. simpl. symmetry. apply lookup_ge_None. lia.
Qed.

Lemma col_set_col_neq (M : tensor T) (r k j : nat) (v : vec) :
  j ≠ k → col (set_col M r k v) j = col M j.
Proof.
  intros Hjk. unfold col. simpl. apply list_fmap_ext. intros _ i _.
  by destruct (Nat.eqb_spec j k).
Qed.

End TensorFacts.

(** ** More about [back_substitution] *)

Section BackSubstitutionMore.
Context {T : Type} `{Scalar T}.
#[local] Abbreviation vec := (list T) (only parsing).

Lemma foldl_ext_below {X : Type} (f g : X → nat → X) (n : nat) :
  (∀ x i, i < n → f x i = g x i) →
  ∀ l x, Forall (fun i => i < n) l → foldl f x l = foldl g x l.
Proof.
  intros Hfg l. induction l as [|i l IH]; intros x Hl; simpl; [done|].
  apply Forall_cons in Hl as [Hi Hl]. rewrite Hfg by done. by apply IH.
Qed.

Lemma back_substitution_row_upper (A A' : tensor T) (b x : vec) (i : nat) :
  cols A = cols A' →
  (∀ j, i ≤ j < cols A → entry A i j = entry A' i j) →
  i < cols A →
  back_substitution_row A b x i = back_substitution_row A' b x i.
Proof.
  intros Hc He Hi. unfold back_substitution_row, row_from. rewrite <- Hc.
  rewrite (He i) by lia. do 4 f_equal. unfold vmul. f_equal.
  apply list_fmap_ext. intros k j Hj. apply lookup_seq in Hj as [-> Hk].
  apply He. lia.
Qed.

(** X5. [back_substitution] reads the diagonal and what is above it, and
    nothing below: two matrices of one shape that agree there give the same
    outcome, error or solution. *)
Theorem back_substitution_upper_only (A A' : tensor T) (b : vec) :
  rows A = rows A' → cols A = cols A' →
  (∀ i j, i ≤ j < length b → entry A i j = entry A' i j) →
  back_substitution A b = back_substitution A' b.
Proof.
  intros Hr Hc He. unfold back_substitution. rewrite <- Hr, <- Hc.
  destruct (Nat.eqb_spec (rows A) (length b)) as [Hrows|]; [|done].
  destruct (Nat.eqb_spec (cols A) (length b)) as [Hcols|]; [|done].
  simpl. f_equal.
  apply (foldl_ext_below _ _ (length b)).
  - intros x i Hi. apply back_substitution_row_upper; [done| |lia].
    intros j Hj. apply He. lia.
  - apply Forall_rev, Forall_seq. intros i Hi. lia.
Qed.

End BackSubstitutionMore.

Lemma back_substitution_upper_only_witness :
  back_substitution (of_rows [[IEEE.f2; IEEE.f1]; [IEEE.f2; IEEE.f2]]) [IEEE.f1; IEEE.f2]
  = back_substitution (of_rows [[IEEE.f2; IEEE.f1]; [IEEE.f0; IEEE.f2]]) [IEEE.f1; IEEE.f2].
Proof.
  apply (back_substitution_upper_only
           (of_rows [[IEEE.f2; IEEE.f1]; [IEEE.f2; IEEE.f2]])
           (of_rows [[IEEE.f2; IEEE.f1]; [IEEE.f0; IEEE.f2]]) [IEEE.f1; IEEE.f2]).
  - reflexivity.
  - reflexivity.
  - intros i j Hij. simpl in Hij.
    assert (Hcase : (i = 0 ∧ j = 0) ∨ (i = 0 ∧ j = 1) ∨ (i = 1 ∧ j = 1)) by lia.
    destruct Hcase as [[-> ->]|[[-> ->]|[-> ->]]]; reflexivity.
Defined.

Section BackSubstitutionReal.
#[local] Open Scope R_scope.

Lemma vget_matvec (M : tensor R) (z : list R) (i : nat) :
  (i < rows M)%nat → vget (matvec M z) i = dot (row M i) z.
Proof.
  intros Hi. unfold vget, matvec. rewrite list_lookup_fmap, lookup_seq_lt by done.
  reflexivity.
Qed.

(** Row [m] of the loop gives back entry [m] of [z] when the entries after
    it are those of [z] already. *)
Lemma back_substitution_row_recovers (Rm : tensor R) (z x : list R) (m : nat) :
  rows Rm = length z → cols Rm = length z →
  (∀ j, (j < m)%nat → entry Rm m j = 0) →
  entry Rm m m ≠ 0 → (m < length z)%nat →
  length x = length z → drop (S m) x = drop (S m) z →
  drop m (back_substitution_row Rm (matvec Rm z) x m) = drop m z.
Proof.
  intros Hr Hc Hlow Hd Hm Hlen Hdrop. unfold back_substitution_row.
  destruct (lookup_lt_is_Some_2 z m Hm) as [zm Hzm].
  rewrite (drop_S z zm m Hzm).
  erewrite drop_S; [|apply list_lookup_insert_eq; lia].
  rewrite drop_insert_lt by lia. rewrite Hdrop. f_equal.
  rewrite vget_matvec by lia.
  rewrite dot_row_split by lia.
  rewrite vsum_vmul_zero_l.
  2: { apply Forall_fmap, Forall_forall. intros j Hj.
       apply elem_of_seq in Hj. simpl. apply Hlow. lia. }
  replace (m + 1)%nat with (S m) by lia. rewrite Hdrop.
  unfold vget at 1. rewrite Hzm. simpl. field. exact Hd.
Qed.

Lemma back_substitution_rows_recover (Rm : tensor R) (z : list R) (m : nat) :
  rows Rm = length z → cols Rm = length z →
  (∀ i j, (j < i < length z)%nat → entry Rm i j = 0) →
  (∀ i, (i < length z)%nat → entry Rm i i ≠ 0) →
  (m ≤ length z)%nat →
  ∀ x, length x = length z → drop m x = drop m z →
       foldl (back_substitution_row Rm (matvec Rm z)) x (rev (seq 0 m)) = z.
Proof.
  intros Hr Hc Hlow Hd. induction m as [|m IH]; intros Hm x Hlen Hdrop; [done|].
  rewrite seq_S, rev_app_distr. simpl. apply IH; [lia| |].
  - unfold back_substitution_row. by rewrite length_insert.
  - apply back_substitution_row_recovers;
      first [done | lia | apply Hd; lia | intros j Hj; apply Hlow; lia].
Qed.

(** X6. Over the real numbers, solving undoes the product: for an
    upper-triangular [R] of shape (m, m) with no zero on its diagonal and
    any [z] of length [m], [back_substitution R (R @ z)] returns [z]
    itself.  The solution of such a system is unique, and it is the one
    computed. *)
Theorem back_substitution_round_trip (Rm : tensor R) (z : list R) :
  rows Rm = length z → cols Rm = length z →
  (∀ i j, (j < i < length z)%nat → entry Rm i j = 0) →
  (∀ i, (i < length z)%nat → entry Rm i i ≠ 0) →
  back_substitution Rm (matvec Rm z) = Return z.
Proof.
  intros Hr Hc Hlow Hd. unfold back_substitution.
  rewrite matvec_length, Hr, Hc, !Nat.eqb_refl. simpl. f_equal.
  apply back_substitution_rows_recover; try done.
  - apply length_zeros.
  - rewrite !drop_ge; [done|lia|]. by rewrite length_zeros.
Qed.

Lemma back_substitution_round_trip_witness :
  back_substitution (of_rows [[2; 1]; [0; 4]]) (matvec (of_rows [[2; 1]; [0; 4]]) [1; 2])
  = Return [1; 2].
Proof.
  apply (back_substitution_round_trip (of_rows [[2; 1]; [0; 4]]) [1; 2]).
  - reflexivity.
  - reflexivity.
  - intros i j Hij. simpl in Hij.
    assert (Hcase : (i = 1 ∧ j = 0)%nat) by lia. destruct Hcase as [-> ->]. reflexivity.
  - intros i Hi. simpl in Hi.
    assert (Hcase : (i = 0 ∨ i = 1)%nat) by lia. destruct Hcase as [-> | ->]; cbn; lra.
Defined.

End BackSubstitutionReal.

(** ** More about [arnoldi_one_iter] *)

Section ArnoldiMore.
Context {T : Type} `{Scalar T}.
#[local] Abbreviation vec := (list T) (only parsing).

(** The step, in terms of the sweep over the columns 0..k. *)
Lemma arnoldi_one_iter_sweep (prec : vec → vec) (A V : tensor T) (k : nat) (tol : T) :
  arnoldi_one_iter prec A V k tol
  = let sw := gram_schmidt_sweep (col V <$> seq 0 (k + 1)) (prec (matvec A (col V k))) in
    if s_leb (norm (snd sw)) tol then (fst sw ++ [norm (snd sw)], None)
    else (fst sw ++ [norm (snd sw)], Some (vdiv (snd sw) (norm (snd sw)))).
Proof.
  unfold arnoldi_one_iter.
  replace (zeros (k + 2)) with ([] ++ zeros ((k + 1) + 1)) by (simpl; f_equal; lia).
  rewrite (arnoldi_orth_fold V (k + 1) 0 1 []) by done.
  pose proof (length_gram_schmidt_sweep (col V <$> seq 0 (k + 1))
                (prec (matvec A (col V k)))) as Hlen.
  rewrite length_fmap, length_seq in Hlen.
  destruct (gram_schmidt_sweep _ _) as [hs w]. simpl in *.
  assert (Hins : <[k + 1 := norm w]> (hs ++ zeros 1) = hs ++ [norm w]).
  { rewrite insert_app_r_alt by lia. by replace (k + 1 - length hs) with 0 by lia. }
  rewrite Hins.
  replace (vget (hs ++ [norm w]) (k + 1)) with (norm w); [done|].
  unfold vget. rewrite lookup_app_r by lia.
  by replace (k + 1 - length hs) with 0 by lia.
Qed.

End ArnoldiMore.

Section ArnoldiReal.
#[local] Open Scope R_scope.

Lemma dot_cons (a b : R) (v w : list R) : dot (a :: v) (b :: w) = a * b + dot v w.
Proof. reflexivity. Qed.

Lemma dot_nil_l (w : list R) : dot [] w = 0.
Proof. reflexivity. Qed.

Lemma dot_nil_r (v : list R) : dot v [] = 0.
Proof. by destruct v. Qed.

Lemma dot_comm (v w : list R) : dot v w = dot w v.
Proof.
  revert w. induction v as [|a v IH]; intros [|b w]; try done.
  rewrite !dot_cons, IH. lra.
Qed.

Lemma dot_vsub_vscale_l (w v u : list R) (h : R) :
  length w = length v →
  dot (vsub w (vscale h v)) u = dot w u - h * dot v u.
Proof.
  revert v u. induction w as [|a w IH]; intros [|b v] [|c u] Hlen; try done.
  - rewrite !dot_nil_l. lra.
  - rewrite !dot_nil_l. lra.
  - rewrite !dot_nil_r. lra.
  - change (vsub (a :: w) (vscale h (b :: v))) with ((a - h * b) :: vsub w (vscale h v)).
    rewrite !dot_cons, IH by (simpl in Hlen; lia). lra.
Qed.

Lemma dot_vdiv_l (w u : list R) (c : R) : dot (vdiv w c) u = dot w u / c.
Proof.
  revert u. induction w as [|a w IH]; intros [|b u].
  - rewrite !dot_nil_l. unfold Rdiv. lra.
  - rewrite !dot_nil_l. unfold Rdiv. lra.
  - rewrite !dot_nil_r. unfold Rdiv. lra.
  - change (vdiv (a :: w) c) with ((a / c) :: vdiv w c).
    rewrite !dot_cons, IH. unfold Rdiv. lra.
Qed.

Lemma dot_self_nonneg (w : list R) : 0 <= dot w w.
Proof.
  induction w as [|a w IH]; [rewrite dot_nil_l; lra|].
  rewrite dot_cons. pose proof (Rle_0_sqr a) as Ha. unfold Rsqr in Ha. lra.
Qed.

Lemma dot_self_zero (w : list R) : dot w w = 0 → ∀ i, vget w i = 0.
Proof.
  induction w as [|a w IH]; intros Hw i.
  - unfold vget. by rewrite lookup_nil.
  - rewrite dot_cons in Hw.
    pose proof (Rle_0_sqr a) as Ha. unfold Rsqr in Ha.
    pose proof (dot_self_nonneg w) as Hnn.
    destruct i as [|i].
    + unfold vget. simpl. apply Rsqr_0_uniq. unfold Rsqr. lra.
    + change (vget (a :: w) (S i)) with (vget w i). apply IH. lra.
Qed.

Lemma norm_zero (w : list R) : norm w = 0 → ∀ i, vget w i = 0.
Proof.
  intros Hw. apply dot_self_zero. apply sqrt_eq_0; [apply dot_self_nonneg|exact Hw].
Qed.

Lemma norm_sqr (w : list R) : norm w * norm w = dot w w.
Proof. apply sqrt_sqrt, dot_self_nonneg. Qed.

Lemma dot_app_snoc (a hs : list R) (x y : R) :
  length a = length hs → dot (a ++ [x]) (hs ++ [y]) = dot a hs + x * y.
Proof.
  intros Hlen. unfold dot, vmul. rewrite zip_with_app by done.
  rewrite vsum_app. unfold vsum. simpl. lra.
Qed.

Lemma vget_vsub_vscale (w v : list R) (h : R) (i : nat) :
  length w = length v →
  vget (vsub w (vscale h v)) i = vget w i - h * vget v i.
Proof.
  intros Hlen. unfold vget, vsub, vscale.
  rewrite lookup_zip_with, list_lookup_fmap.
  destruct (w !! i) as [a|] eqn:Hw, (v !! i) as [b|] eqn:Hv; simpl; try lra.
  - apply lookup_lt_Some in Hw. apply lookup_ge_None in Hv. lia.
  - apply lookup_lt_Some in Hv. apply lookup_ge_None in Hw. lia.
Qed.

Lemma vget_vdiv (w : list R) (c : R) (i : nat) : vget (vdiv w c) i = vget w i / c.
Proof.
  unfold vget, vdiv. rewrite list_lookup_fmap.
  destruct (w !! i); simpl; unfold Rdiv; lra.
Qed.

Lemma length_vsub_vscale (w v : list R) (h : R) :
  length w = length v → length (vsub w (vscale h v)) = length w.
Proof.
  intros Hlen. unfold vsub, vscale. rewrite length_zip_with, length_fmap. lia.
Qed.

(** What the sweep leaves is the candidate minus the combination of the
    basis vectors with the coefficients it returns. *)
Lemma gram_schmidt_sweep_decompose (vs : list (list R)) :
  ∀ w, Forall (fun v => length v = length w) vs →
       length (snd (gram_schmidt_sweep vs w)) = length w
       ∧ ∀ i, vget (snd (gram_schmidt_sweep vs w)) i
              = vget w i - dot (fst (gram_schmidt_sweep vs w)) ((fun v => vget v i) <$> vs).
Proof.
  induction vs as [|a vs IH]; intros w Hall; simpl.
  - split; [done|]. intros i. rewrite dot_nil_l. lra.
  - apply Forall_cons in Hall as [Ha Hall].
    specialize (IH (vsub w (vscale (dot w a) a))).
    destruct (gram_schmidt_sweep vs _) as [hs w'] eqn:E. simpl in *.
    destruct IH as [Hlen Hget].
    { rewrite length_vsub_vscale by done. exact Hall. }
    rewrite length_vsub_vscale in Hlen by done. split; [done|].
    intros i. rewrite Hget, vget_vsub_vscale, dot_cons by done. unfold fmap. lra.
Qed.

(** The sweep keeps what is orthogonal to a vector [u] orthogonal to it,
    when the basis vectors are. *)
Lemma gram_schmidt_sweep_keeps (vs : list (list R)) (u : list R) :
  ∀ w, Forall (fun v => length v = length w) vs →
       dot w u = 0 → Forall (fun v => dot v u = 0) vs →
       dot (snd (gram_schmidt_sweep vs w)) u = 0.
Proof.
  induction vs as [|a vs IH]; intros w Hall Hw Hvs; simpl; [done|].
  apply Forall_cons in Hall as [Ha Hall]. apply Forall_cons in Hvs as [Hau Hvs].
  specialize (IH (vsub w (vscale (dot w a) a))).
  destruct (gram_schmidt_sweep vs _) as [hs w'] eqn:E. simpl in *.
  apply IH; [|rewrite dot_vsub_vscale_l by done; rewrite Hw, Hau; lra|done].
  rewrite length_vsub_vscale by done. exact Hall.
Qed.

(** Swept against an orthonormal family, the candidate ends orthogonal to
    every member of it. *)
Lemma gram_schmidt_sweep_orthogonal (vs : list (list R)) :
  ∀ w, Forall (fun v => length v = length w) vs →
       (∀ i j vi vj, vs !! i = Some vi → vs !! j = Some vj →
                     dot vi vj = if (i =? j)%nat then 1 else 0) →
       Forall (fun v => dot (snd (gram_schmidt_sweep vs w)) v = 0) vs.
Proof.
  induction vs as [|a vs IH]; intros w Hall Horth; [done|].
  apply Forall_cons in Hall as [Ha Hall].
  assert (Hlen : Forall (fun v => length v = length (vsub w (vscale (dot w a) a))) vs).
  { rewrite length_vsub_vscale by done. exact Hall. }
  apply Forall_cons. split.
  - pose proof (gram_schmidt_sweep_keeps vs a (vsub w (vscale (dot w a) a)) Hlen) as Hk.
    simpl. destruct (gram_schmidt_sweep vs _) as [hs w'] eqn:E. simpl in *.
    apply Hk.
    + rewrite dot_vsub_vscale_l by done.
      rewrite (Horth 0%nat 0%nat a a) by done. simpl. lra.
    + apply Forall_lookup. intros j v Hv. by apply (Horth (S j) 0%nat v a).
  - specialize (IH (vsub w (vscale (dot w a) a)) Hlen).
    simpl. destruct (gram_schmidt_sweep vs _) as [hs w'] eqn:E. simpl in *.
    apply IH. intros i j vi vj Hi Hj. by apply (Horth (S i) (S j)).
Qed.

(** X7. Over the real numbers, for operands that conform and a tolerance
    [0 <= tol], the step satisfies the Arnoldi relation for the operator
    [v ↦ prec (A @ v)].  With the new column stored in [V[:, k+1]] the
    product [V[:, :k+2] @ h_k] is the image of [V[:, k]]; when the step
    breaks down, [V[:, :k+1] @ h_k[:k+1]] misses that image by a vector of
    norm at most [tol].  With [0 <= tol] the step divides by a norm above
    [tol] only, never by zero. *)
Theorem arnoldi_one_iter_relation (prec : list R → list R) (A V : tensor R)
    (k : nat) (tol : R) :
  0 <= tol →
  cols A = rows V → (k + 2 ≤ cols V)%nat →
  length (prec (matvec A (col V k))) = rows V →
  match arnoldi_one_iter prec A V k tol with
  | (h_k, Some v_new) =>
      matvec (sub (set_col V (rows V) (k + 1) v_new) (rows V) (k + 2)) h_k
      = prec (matvec A (col V k))
  | (h_k, None) =>
      norm (vsub (prec (matvec A (col V k)))
              (matvec (sub V (rows V) (k + 1)) (take (k + 1) h_k))) <= tol
  end.
Proof.
  intros Htol _ Hk Hw0. rewrite arnoldi_one_iter_sweep. cbv zeta.
  set (w0 := prec (matvec A (col V k))) in *.
  destruct (gram_schmidt_sweep_decompose (col V <$> seq 0 (k + 1)) w0) as [Hlen Hget].
  { apply Forall_fmap, Forall_forall. intros j _. simpl. by rewrite length_col. }
  pose proof (length_gram_schmidt_sweep (col V <$> seq 0 (k + 1)) w0) as Hhs.
  rewrite length_fmap, length_seq in Hhs.
  destruct (gram_schmidt_sweep _ w0) as [hs w']. cbn [fst snd] in *.
  assert (Hcols : ∀ i, (i < rows V)%nat →
            (fun v : list R => vget v i) <$> (col V <$> seq 0 (k + 1))
            = entry V i <$> seq 0 (k + 1)).
  { intros i Hi. rewrite <- list_fmap_compose. apply list_fmap_ext.
    intros _ j _. simpl. by apply vget_col. }
  destruct (s_leb (norm w') tol) eqn:Htest.
  - rewrite take_app_length' by done.
    replace (vsub w0 (matvec (sub V (rows V) (k + 1)) hs)) with w'.
    { change (Rleb (norm w') tol = true) in Htest.
      unfold Rleb in Htest. by destruct (Rle_dec (norm w') tol). }
    rewrite (tabulate_vget w'), (tabulate_vget w0), Hlen, Hw0.
    unfold matvec. simpl. rewrite Nat.min_id, vsub_tabulate.
    apply list_fmap_ext. intros i0 i Hi. apply lookup_seq in Hi as [Hi0 Hi]. simpl in Hi0. subst i0.
    rewrite Hget, dot_comm, Hcols by done.
    unfold row, row_from. simpl.
    by replace ((k + 1) `min` cols V - 0)%nat with (k + 1)%nat by lia.
  - rewrite (tabulate_vget w0), Hw0.
    unfold matvec. simpl. rewrite Nat.min_id.
    apply list_fmap_ext. intros i0 i Hi. apply lookup_seq in Hi as [Hi0 Hi]. simpl in Hi0. subst i0.
    unfold row, row_from. simpl.
    replace ((k + 2) `min` cols V - 0)%nat with (S (k + 1)) by lia.
    rewrite seq_S, fmap_app. simpl.
    rewrite Nat.eqb_refl. destruct (Nat.ltb_spec i (rows V)); [|lia]. simpl.
    rewrite dot_app_snoc by (rewrite length_fmap, length_seq; lia).
    rewrite (list_fmap_ext _ (entry V i) (seq 0 (k + 1))).
    2: { intros j0 j Hj. apply lookup_seq in Hj as [Hj0 Hj]. simpl in Hj0. subst j0.
         by destruct (Nat.eqb_spec j (k + 1)); [lia|]. }
    change (sqrt (dot w' w')) with (norm w').
    rewrite <- Hcols, dot_comm by done.
    rewrite vget_vdiv. specialize (Hget i).
    assert (Hnz : norm w' ≠ 0).
    { change (Rleb (norm w') tol = false) in Htest.
      unfold Rleb in Htest. destruct (Rle_dec (norm w') tol); [done|lra]. }
    replace (vget w' i / norm w' * norm w') with (vget w' i) by (field; exact Hnz).
    lra.
Qed.

(** X8. Over the real numbers and with [tol >= 0]: when the columns 0..k of
    [V] are orthonormal, the vector a step returns has norm 1 and is
    orthogonal to each of them. *)
Theorem arnoldi_one_iter_orthonormal (prec : list R → list R) (A V : tensor R)
    (k : nat) (tol : R) (h_k v_new : list R) :
  0 <= tol → cols A = rows V →
  length (prec (matvec A (col V k))) = rows V →
  (∀ i j, (i ≤ k)%nat → (j ≤ k)%nat →
          dot (col V i) (col V j) = if (i =? j)%nat then 1 else 0) →
  arnoldi_one_iter prec A V k tol = (h_k, Some v_new) →
  norm v_new = 1 ∧ ∀ j, (j ≤ k)%nat → dot v_new (col V j) = 0.
Proof.
  intros Htol _ Hw0 Horth. rewrite arnoldi_one_iter_sweep. cbv zeta.
  set (w0 := prec (matvec A (col V k))) in *.
  pose proof (gram_schmidt_sweep_orthogonal (col V <$> seq 0 (k + 1)) w0) as Hsw.
  destruct (gram_schmidt_sweep _ w0) as [hs w']. cbn [fst snd] in *.
  destruct (s_leb (norm w') tol) eqn:Htest; [done|]. intros [= _ <-].
  assert (Hpos : 0 < norm w').
  { change (Rleb (norm w') tol = false) in Htest. unfold Rleb in Htest. destruct (Rle_dec (norm w') tol); [done|]. lra. }
  pose proof (norm_sqr w') as Hsq.
  change (sqrt (dot w' w')) with (norm w'). set (hl := norm w') in *.
  split.
  - unfold norm. rewrite dot_vdiv_l, dot_comm, dot_vdiv_l, <- Hsq.
    replace (hl * hl / hl / hl) with 1 by (field; lra).
    exact sqrt_1.
  - intros j Hj. rewrite dot_vdiv_l.
    assert (Hall : Forall (fun v => dot w' v = 0) (col V <$> seq 0 (k + 1))).
    { apply Hsw.
      - apply Forall_fmap, Forall_forall. intros i _. simpl. by rewrite length_col.
      - intros i i' vi vj Hi Hi'.
        rewrite list_lookup_fmap in Hi, Hi'.
        destruct (seq 0 (k + 1) !! i) as [a|] eqn:Ea; [|done].
        destruct (seq 0 (k + 1) !! i') as [a'|] eqn:Ea'; [|done].
        apply lookup_seq in Ea as [-> ?]. apply lookup_seq in Ea' as [-> ?].
        simpl in Hi, Hi'. injection Hi as <-. injection Hi' as <-.
        apply Horth; lia. }
    assert (Hz : dot w' (col V j) = 0).
    { apply (Forall_lookup_1 _ _ j (col V j)) in Hall; [done|].
      rewrite list_lookup_fmap, lookup_seq_lt by lia. reflexivity. }
    rewrite Hz. unfold Rdiv. lra.
Qed.

Lemma Rleb_false (x y : R) : y < x → Rleb x y = false.
Proof. intros Hxy. unfold Rleb. destruct (Rle_dec x y); [lra|done]. Qed.

Lemma arnoldi_one_iter_relation_witness :
  match arnoldi_one_iter (fun x => x) A_swap V_e1 0 s_1em12 with
  | (h_k, Some v_new) =>
      matvec (sub (set_col V_e1 (rows V_e1) (0 + 1) v_new) (rows V_e1) (0 + 2)) h_k
      = matvec A_swap (col V_e1 0)
  | (h_k, None) =>
      norm (vsub (matvec A_swap (col V_e1 0))
              (matvec (sub V_e1 (rows V_e1) (0 + 1)) (take (0 + 1) h_k))) <= s_1em12
  end.
Proof.
  apply (arnoldi_one_iter_relation (fun x => x) A_swap V_e1 0 s_1em12).
  - simpl. lra.
  - reflexivity.
  - simpl. lia.
  - reflexivity.
Defined.

Lemma arnoldi_one_iter_orthonormal_witness :
  ∃ h_k v_new,
    arnoldi_one_iter (fun x => x) A_swap V_e1 0 s_1em12 = (h_k, Some v_new)
    ∧ norm v_new = 1
    ∧ ∀ j, (j ≤ 0)%nat → dot v_new (col V_e1 j) = 0.
Proof.
  destruct (arnoldi_one_iter (fun x => x) A_swap V_e1 0 s_1em12) as [h_k [v_new|]] eqn:E.
  - exists h_k, v_new. split; [reflexivity|].
    apply (arnoldi_one_iter_orthonormal (fun x => x) A_swap V_e1 0 s_1em12 h_k v_new).
    + simpl. lra.
    + reflexivity.
    + reflexivity.
    + intros i j Hi Hj. assert (Hcase : (i = 0 ∧ j = 0)%nat) by lia.
      destruct Hcase as [-> ->]. cbn. lra.
    + exact E.
  - exfalso. unfold arnoldi_one_iter in E. cbn in E.
    match type of E with context [sqrt ?a] => replace a with 1 in E by lra end.
    rewrite sqrt_1, Rleb_false in E by lra. discriminate E.
Defined.

End ArnoldiReal.

(** ** More about [arnoldi] *)

Section ArnoldiFullMore.
Context {T : Type} `{Scalar T}.
#[local] Abbreviation vec := (list T) (only parsing).

(** The inner loop of step [k] writes in column [k - 1], in the rows it
    runs over. *)
Lemma arnoldi_orth_full_entries (V : tensor T) (k : nat) (js : list nat) :
  ∀ (Hm : tensor T) (w : vec) (i j : nat),
    j ≠ k - 1 ∨ Forall (fun j' => i ≠ j') js →
    entry (foldl (arnoldi_orth_full V k) (Hm, w) js).1 i j = entry Hm i j.
Proof.
  induction js as [|j' js IH]; intros Hm w i j Hij; cbn [foldl]; [done|].
  destruct (arnoldi_orth_full V k (Hm, w) j') as [Hm1 w1] eqn:Hstep.
  rewrite IH.
  - unfold arnoldi_orth_full in Hstep. injection Hstep as <- _. simpl.
    destruct (Nat.eqb_spec i j'), (Nat.eqb_spec j (k - 1)); simpl; try done.
    destruct Hij as [Hj|Hi]; [done|]. apply Forall_cons in Hi as [Hi _]. done.
  - destruct Hij as [Hj|Hi]; [by left|]. right. by apply Forall_cons in Hi as [_ Hi].
Qed.

(** The loop writes [H[j, k - 1]] for [j <= k] only, and the columns [k] of
    [V] for the [k] it runs over. *)
Lemma arnoldi_loop_entries (A : tensor T) (tol : T) (ks : list nat) :
  ∀ V Hm : tensor T,
    rows (arnoldi_loop A tol ks V Hm).1 = rows V
    ∧ cols (arnoldi_loop A tol ks V Hm).1 = cols V
    ∧ (∀ i j, Forall (fun k => j ≠ k) ks →
              entry (arnoldi_loop A tol ks V Hm).1 i j = entry V i j)
    ∧ (∀ i j, j + 1 < i →
              entry (arnoldi_loop A tol ks V Hm).2 i j = entry Hm i j).
Proof.
  induction ks as [|k ks IH]; intros V Hm; cbn [arnoldi_loop]; [done|].
  pose proof (arnoldi_orth_full_entries V k (seq 0 k) Hm (matvec A (col V (k - 1))))
    as Hinner.
  destruct (foldl _ _ _) as [Hm' w]. cbn [fst] in Hinner.
  set (Hm2 := set_entry Hm' k (k - 1) (norm w)).
  assert (Hbelow : ∀ i j, j + 1 < i → entry Hm2 i j = entry Hm i j).
  { intros i j Hij. unfold Hm2. simpl.
    destruct (Nat.eqb_spec i k), (Nat.eqb_spec j (k - 1)); simpl; try (exfalso; lia).
    - apply Hinner. by left.
    - apply Hinner. right. apply Forall_seq. intros j' Hj'. lia.
    - apply Hinner. by left. }
  destruct (s_leb _ _); [done|].
  specialize (IH (set_col V (rows V) k (vdiv w (entry Hm2 k (k - 1)))) Hm2).
  destruct IH as (Hr & Hc & HV & HH).
  split; [done|]. split; [done|]. split.
  - intros i j Hj. apply Forall_cons in Hj as [Hjk Hj]. rewrite HV by done. simpl.
    by destruct (Nat.eqb_spec j k).
  - intros i j Hij. rewrite HH by done. by apply Hbelow.
Qed.

(** X9. For [r0] of the length of [A]: [arnoldi] fails its assertions
    exactly when [A] is not square, [b] or the global [x0] has not the length
    of [A], or [m = 0].  Otherwise it
    returns [V] of shape (n, m' + 1) and [H] of shape (m' + 1, m') for
    [m' = min(m, n)]; [H] is upper Hessenberg, whether the loop ran to its
    end or left early; and the first column of [V] is [r0 / norm(r0)]. *)
Theorem arnoldi_hessenberg (x0g : vec) (A : tensor T) (b r0 : vec) (m : nat) (tol : T) :
  length r0 = rows A →
  match arnoldi x0g A b r0 m tol with
  | Return (V, Hm) =>
      (0 < m ∧ cols A = rows A ∧ length b = rows A ∧ length x0g = rows A)
      ∧ (rows V = rows A ∧ cols V = min m (rows A) + 1)
      ∧ (rows Hm = min m (rows A) + 1 ∧ cols Hm = min m (rows A))
      ∧ (∀ i j, i < rows Hm → j < cols Hm → j + 1 < i → entry Hm i j = s_zero)
      ∧ (∀ i, i < rows A → entry V i 0 = vget (vdiv r0 (norm r0)) i)
  | Raise e =>
      (m = 0 ∨ cols A ≠ rows A ∨ length b ≠ rows A ∨ length x0g ≠ rows A)
      ∧ ∃ msg, e = AssertionError msg
  | OutOfFuel => False
  end.
Proof.
  intros _. unfold arnoldi.
  destruct (Nat.eqb_spec (cols A) (rows A)) as [HA|HA]; simpl; [|eauto 6].
  destruct (Nat.eqb_spec (length b) (rows A)) as [Hb|Hb]; simpl; [|eauto 6].
  destruct (Nat.eqb_spec (length x0g) (rows A)) as [Hx|Hx]; simpl; [|eauto 6].
  destruct (Nat.ltb_spec 0 m) as [Hm0|Hm0]; simpl; [|split; [left; lia|eauto]].
  match goal with
  | |- context [arnoldi_loop ?A' ?tol' ?ks ?V0 ?H0] =>
      pose proof (arnoldi_loop_entries A' tol' ks V0 H0) as (Hr & Hc & HV & HH);
      pose proof (arnoldi_loop_shape A' tol' ks V0 H0) as [HrH HcH]
  end.
  destruct (arnoldi_loop _ _ _ _ _) as [V Hm]. cbn [fst snd] in *. simpl in *.
  split; [done|]. split; [done|]. split; [lia|]. split.
  - intros i j _ _ Hij. by rewrite HH.
  - intros i Hi. rewrite HV.
    + by destruct (Nat.ltb_spec i (rows A)); [|lia].
    + apply Forall_seq. intros k Hk. lia.
Qed.

End ArnoldiFullMore.

Lemma arnoldi_hessenberg_witness :
  match arnoldi [IEEE.f0; IEEE.f0] (of_rows [[IEEE.f2; IEEE.f1]; [IEEE.f1; IEEE.f2]])
          [IEEE.f1; IEEE.f0] [IEEE.f1; IEEE.f0] 2 s_1em12 with
  | Return (V, Hm) =>
      (0 < 2
       ∧ cols (of_rows [[IEEE.f2; IEEE.f1]; [IEEE.f1; IEEE.f2]])
         = rows (of_rows [[IEEE.f2; IEEE.f1]; [IEEE.f1; IEEE.f2]])
       ∧ length [IEEE.f1; IEEE.f0]
         = rows (of_rows [[IEEE.f2; IEEE.f1]; [IEEE.f1; IEEE.f2]])
       ∧ length [IEEE.f0; IEEE.f0]
         = rows (of_rows [[IEEE.f2; IEEE.f1]; [IEEE.f1; IEEE.f2]]))
      ∧ (rows V = rows (of_rows [[IEEE.f2; IEEE.f1]; [IEEE.f1; IEEE.f2]])
         ∧ cols V = min 2 (rows (of_rows [[IEEE.f2; IEEE.f1]; [IEEE.f1; IEEE.f2]])) + 1)
      ∧ (rows Hm = min 2 (rows (of_rows [[IEEE.f2; IEEE.f1]; [IEEE.f1; IEEE.f2]])) + 1
         ∧ cols Hm = min 2 (rows (of_rows [[IEEE.f2; IEEE.f1]; [IEEE.f1; IEEE.f2]])))
      ∧ (∀ i j, i < rows Hm → j < cols Hm → j + 1 < i → entry Hm i j = s_zero)
      ∧ (∀ i, i < rows (of_rows [[IEEE.f2; IEEE.f1]; [IEEE.f1; IEEE.f2]]) →
              entry V i 0
              = vget (vdiv [IEEE.f1; IEEE.f0] (norm [IEEE.f1; IEEE.f0])) i)
  | Raise e =>
      (2 = 0
       ∨ cols (of_rows [[IEEE.f2; IEEE.f1]; [IEEE.f1; IEEE.f2]])
         ≠ rows (of_rows [[IEEE.f2; IEEE.f1]; [IEEE.f1; IEEE.f2]])
       ∨ length [IEEE.f1; IEEE.f0]
         ≠ rows (of_rows [[IEEE.f2; IEEE.f1]; [IEEE.f1; IEEE.f2]])
       ∨ length [IEEE.f0; IEEE.f0]
         ≠ rows (of_rows [[IEEE.f2; IEEE.f1]; [IEEE.f1; IEEE.f2]]))
      ∧ ∃ msg, e = AssertionError msg
  | OutOfFuel => False
  end.
Proof.
  apply (arnoldi_hessenberg [IEEE.f0; IEEE.f0]
           (of_rows [[IEEE.f2; IEEE.f1]; [IEEE.f1; IEEE.f2]])
           [IEEE.f1; IEEE.f0] [IEEE.f1; IEEE.f0] 2 s_1em12).
  reflexivity.
Defined.

Section ArnoldiFullReal.
#[local] Open Scope R_scope.

Lemma rsum_trunc (f : nat → R) (k n : nat) :
  (k ≤ n)%nat → (∀ l, (k ≤ l < n)%nat → f l = 0) → rsum f n = rsum f k.
Proof.
  induction n as [|n IH]; intros Hk Hf.
  - by replace k with 0%nat by lia.
  - destruct (decide (k = S n)) as [->|Hne]; [done|].
    rewrite rsum_S, IH, Hf by (intros; try apply Hf; lia). lra.
Qed.

Lemma vget_zeros (n i : nat) : vget (zeros n : list R) i = 0.
Proof.
  unfold vget, zeros. destruct (replicate n s_zero !! i) as [x|] eqn:E; [|done].
  by apply lookup_replicate in E as [-> _].
Qed.

Lemma norm_zeros (n : nat) : norm (zeros n : list R) = 0.
Proof.
  unfold norm, dot. rewrite vsum_vmul_zero_l; [exact sqrt_0|].
  unfold zeros. apply Forall_replicate. reflexivity.
Qed.

(** The inner loop of step [k], over the real numbers: what is left of the
    candidate is the candidate minus the combination of the columns visited,
    with the coefficients stored in column [k - 1] of [H]. *)
Lemma arnoldi_orth_full_fold_real (V : tensor R) (k : nat) :
  ∀ (len : nat) (Hm : tensor R) (w : list R),
    length w = rows V →
    length (foldl (arnoldi_orth_full V k) (Hm, w) (seq 0 len)).2 = rows V
    ∧ ∀ i, (i < rows V)%nat →
        vget (foldl (arnoldi_orth_full V k) (Hm, w) (seq 0 len)).2 i
        = vget w i
          - rsum (fun l => entry V i l
                           * entry (foldl (arnoldi_orth_full V k) (Hm, w) (seq 0 len)).1
                               l (k - 1)) len.
Proof.
  induction len as [|len IH]; intros Hm w Hw.
  - simpl. split; [done|]. intros i _. rewrite rsum_0. lra.
  - rewrite seq_S, foldl_app. simpl.
    destruct (IH Hm w Hw) as [Hlen Hget].
    destruct (foldl _ _ (seq 0 len)) as [Hm1 w1]. cbn [fst snd] in *.
    unfold arnoldi_orth_full. cbn [fst snd entry set_entry].
    rewrite !Nat.eqb_refl. cbn [andb fst snd].
    split.
    + rewrite length_vsub_vscale; [done|]. by rewrite length_col.
    + intros i Hi. rewrite vget_vsub_vscale by (by rewrite length_col).
      rewrite vget_col, Hget, rsum_S, Nat.eqb_refl by done.
      rewrite (rsum_ext
                 (fun l => entry V i l * (if (l =? len)%nat && true
                                          then dot (col V len) w1
                                          else entry Hm1 l (k - 1)))
                 (fun l => entry V i l * entry Hm1 l (k - 1))).
      * simpl. lra.
      * intros l Hl. simpl. by destruct (Nat.eqb_spec l len); [lia|].
Qed.

(** From entries to vectors. *)
Lemma matvec_eq_pointwise (A V Hm : tensor R) (j : nat) :
  rows V = rows A → cols V = rows Hm →
  (∀ i, (i < rows A)%nat →
        vget (matvec A (col V j)) i
        = rsum (fun l => entry V i l * entry Hm l j) (cols V)) →
  matvec A (col V j) = matvec V (col Hm j).
Proof.
  intros HrV HcV Hpt.
  rewrite (matvec_tabulate V (col Hm j)) by (by rewrite length_col).
  unfold matvec at 1. rewrite HrV. apply list_fmap_ext.
  intros i0 i Hi. apply lookup_seq in Hi as [Hi0 Hi]. simpl in Hi0. subst i0.
  rewrite <- vget_matvec, Hpt by done. apply rsum_ext.
  intros l Hl. rewrite vget_col by lia. reflexivity.
Qed.

Lemma matvec_diff_pointwise (A V Hm : tensor R) (j : nat) (d : list R) :
  rows V = rows A → cols V = rows Hm → length d = rows A →
  (∀ i, (i < rows A)%nat →
        vget (matvec A (col V j)) i
        - rsum (fun l => entry V i l * entry Hm l j) (cols V) = vget d i) →
  vsub (matvec A (col V j)) (matvec V (col Hm j)) = d.
Proof.
  intros HrV HcV Hd Hpt.
  rewrite (matvec_tabulate V (col Hm j)) by (by rewrite length_col).
  rewrite (tabulate_vget d), Hd.
  unfold matvec at 1. rewrite HrV, vsub_tabulate. apply list_fmap_ext.
  intros i0 i Hi. apply lookup_seq in Hi as [Hi0 Hi]. simpl in Hi0. subst i0.
  rewrite <- Hpt, <- vget_matvec by done. f_equal. apply rsum_ext.
  intros l Hl. rewrite vget_col by lia. reflexivity.
Qed.

(** The invariant of the loop of [arnoldi]: the columns of [V] and [H] not
    reached yet are zero, and the columns done satisfy the relation
    exactly. *)
Lemma arnoldi_loop_relation (A : tensor R) (tol : R) :
  0 <= tol →
  ∀ (len k0 : nat) (V Hm V' Hm' : tensor R),
    (1 ≤ k0)%nat → rows V = rows A → cols V = rows Hm → (k0 + len = rows Hm)%nat →
    (∀ i j, (k0 - 1 ≤ j)%nat → entry Hm i j = 0) →
    (∀ i j, (k0 ≤ j)%nat → entry V i j = 0) →
    (∀ i j, (k0 ≤ i)%nat → entry Hm i j = 0) →
    (∀ i j, (j < k0 - 1)%nat → (i < rows A)%nat →
            vget (matvec A (col V j)) i
            = rsum (fun l => entry V i l * entry Hm l j) (cols V)) →
    arnoldi_loop A tol (seq k0 len) V Hm = (V', Hm') →
    ∀ j, (j + 1 < rows Hm)%nat →
      (∃ d, length d = rows A ∧ norm d <= tol
            ∧ ∀ i, (i < rows A)%nat →
                vget (matvec A (col V' j)) i
                - rsum (fun l => entry V' i l * entry Hm' l j) (cols V) = vget d i)
      ∧ (tol < entry Hm' (j + 1) j →
         ∀ i, (i < rows A)%nat →
           vget (matvec A (col V' j)) i
           = rsum (fun l => entry V' i l * entry Hm' l j) (cols V)).
Proof.
  intros Htol. induction len as [|len IH];
    intros k0 V Hm V' Hm' Hk0 HrV HcV Hlen I2 I3 I5 I4 Hloop j Hj.
  - simpl in Hloop. injection Hloop as <- <-.
    assert (Hex : ∀ i, (i < rows A)%nat →
              vget (matvec A (col V j)) i
              = rsum (fun l => entry V i l * entry Hm l j) (cols V)).
    { intros i Hi. apply I4; [lia|done]. }
    split; [|by intros _]. exists (zeros (rows A)).
    split; [apply length_zeros|]. split; [rewrite norm_zeros; lra|].
    intros i Hi. rewrite Hex, vget_zeros by done. lra.
  - revert Hloop. cbn [seq arnoldi_loop].
    set (w0 := matvec A (col V (k0 - 1))).
    assert (Hw0 : length w0 = rows V) by (unfold w0; rewrite matvec_length; lia).
    pose proof (arnoldi_orth_full_fold_real V k0 k0 Hm w0 Hw0) as [Hlw Hw].
    pose proof (arnoldi_orth_full_entries V k0 (seq 0 k0) Hm w0) as Hent.
    pose proof (arnoldi_orth_full_shape V k0 (seq 0 k0) Hm w0) as [Hr1 Hc1].
    destruct (foldl _ _ _) as [Hm1 w']. cbn [fst snd] in *.
    set (Hm2 := set_entry Hm1 k0 (k0 - 1) (norm w')).
    assert (HH2 : entry Hm2 k0 (k0 - 1) = norm w').
    { unfold Hm2. simpl. by rewrite !Nat.eqb_refl. }
    rewrite HH2.
    assert (Eother : ∀ i j', j' ≠ (k0 - 1)%nat → entry Hm2 i j' = entry Hm i j').
    { intros i j' Hj'. unfold Hm2. simpl.
      destruct (Nat.eqb_spec j' (k0 - 1)); [done|]. rewrite andb_false_r.
      apply Hent. by left. }
    assert (Elow : ∀ i, (i < k0)%nat → entry Hm2 i (k0 - 1) = entry Hm1 i (k0 - 1)).
    { intros i Hi. unfold Hm2. simpl. by destruct (Nat.eqb_spec i k0); [lia|]. }
    assert (Ehigh : ∀ i, (k0 < i)%nat → entry Hm2 i (k0 - 1) = 0).
    { intros i Hi. unfold Hm2. simpl. destruct (Nat.eqb_spec i k0); [lia|]. simpl.
      rewrite Hent; [apply I5; lia|]. right. apply Forall_seq. intros l Hl. lia. }
    assert (Hcol : ∀ i, (i < rows A)%nat →
              vget w0 i - rsum (fun l => entry V i l * entry Hm1 l (k0 - 1)) k0
              = vget w' i).
    { intros i Hi. rewrite Hw by lia. lra. }
    destruct (s_leb (norm w') tol) eqn:Htest.
    + intros [= <- <-].
      change (Rleb (norm w') tol = true) in Htest. unfold Rleb in Htest.
      destruct (Rle_dec (norm w') tol) as [Hle|]; [|done].
      destruct (lt_eq_lt_dec j (k0 - 1)) as [[Hlt|Heq]|Hgt].
      * assert (Hex : ∀ i, (i < rows A)%nat →
                  vget (matvec A (col V j)) i
                  = rsum (fun l => entry V i l * entry Hm2 l j) (cols V)).
        { intros i Hi. rewrite I4 by done. apply rsum_ext. intros l _.
          rewrite Eother by lia. reflexivity. }
        split; [|by intros _]. exists (zeros (rows A)).
        split; [apply length_zeros|]. split; [rewrite norm_zeros; lra|].
        intros i Hi. rewrite Hex, vget_zeros by done. lra.
      * subst j. split.
        -- exists w'. split; [lia|]. split; [done|]. intros i Hi.
           rewrite (rsum_trunc _ k0 (cols V)).
           ++ rewrite <- Hcol by done. f_equal. apply rsum_ext. intros l Hl.
              by rewrite Elow.
           ++ lia.
           ++ intros l Hl. rewrite I3 by lia. lra.
        -- replace (k0 - 1 + 1)%nat with k0 by lia. rewrite HH2. lra.
      * assert (Hex : ∀ i, (i < rows A)%nat →
                  vget (matvec A (col V j)) i
                  = rsum (fun l => entry V i l * entry Hm2 l j) (cols V)).
        { intros i Hi. rewrite vget_matvec by done.
          rewrite dot_comm. unfold dot. rewrite vsum_vmul_zero_l.
          - symmetry. apply rsum_zero. intros l _.
            rewrite Eother, I2 by lia. lra.
          - apply Forall_fmap, Forall_forall. intros l _. simpl. apply I3. lia. }
        split.
        -- exists (zeros (rows A)).
           split; [apply length_zeros|]. split; [rewrite norm_zeros; lra|].
           intros i Hi. rewrite Hex, vget_zeros by done. lra.
        -- rewrite Eother, I2 by lia. lra.
    + change (Rleb (norm w') tol = false) in Htest. unfold Rleb in Htest.
      destruct (Rle_dec (norm w') tol) as [|Hgt]; [done|].
      set (V2 := set_col V (rows V) k0 (vdiv w' (norm w'))).
      intros Hloop.
      assert (J2 : ∀ i j', (S k0 - 1 ≤ j')%nat → entry Hm2 i j' = 0).
      { intros i j' Hj'. rewrite Eother, I2 by lia. reflexivity. }
      assert (J3 : ∀ i j', (S k0 ≤ j')%nat → entry V2 i j' = 0).
      { intros i j' Hj'. unfold V2. simpl.
        destruct (Nat.eqb_spec j' k0); [lia|]. simpl. apply I3. lia. }
      assert (J5 : ∀ i j', (S k0 ≤ i)%nat → entry Hm2 i j' = 0).
      { intros i j' Hi.
        destruct (decide (j' = (k0 - 1)%nat)) as [->|Hne].
        - apply Ehigh. lia.
        - rewrite Eother by done. apply I5. lia. }
      assert (J4 : ∀ i j', (j' < S k0 - 1)%nat → (i < rows A)%nat →
                vget (matvec A (col V2 j')) i
                = rsum (fun l => entry V2 i l * entry Hm2 l j') (cols V2)).
      { intros i j' Hj' Hi. replace (S k0 - 1)%nat with k0 in Hj' by lia.
        unfold V2 at 1. rewrite col_set_col_neq by lia.
        change (cols V2) with (cols V).
        destruct (decide (j' = (k0 - 1)%nat)) as [->|Hne].
        - fold w0. rewrite (rsum_trunc _ (S k0) (cols V)).
          + rewrite rsum_S.
            rewrite (rsum_ext (fun l => entry V2 i l * entry Hm2 l (k0 - 1))
                       (fun l => entry V i l * entry Hm1 l (k0 - 1)) k0).
            * rewrite HH2. unfold V2. simpl. rewrite Nat.eqb_refl.
              destruct (Nat.ltb_spec i (rows V)); [|lia]. simpl.
              change (sqrt (dot w' w')) with (norm w').
              rewrite vget_vdiv. specialize (Hcol i Hi).
              replace (vget w' i / norm w' * norm w') with (vget w' i)
                by (field; lra).
              lra.
            * intros l Hl. rewrite Elow by done. unfold V2. simpl.
              by destruct (Nat.eqb_spec l k0); [lia|].
          + lia.
          + intros l Hl. unfold V2. simpl.
            destruct (Nat.eqb_spec l k0); [lia|]. simpl. rewrite I3 by lia. lra.
        - rewrite I4 by (done || lia).
          apply rsum_ext. intros l Hl. rewrite Eother by done.
          unfold V2. simpl. destruct (Nat.eqb_spec l k0) as [->|]; [|done].
          simpl. rewrite I5 by lia. lra. }
      apply (IH (S k0) V2 Hm2 V' Hm' ltac:(lia) HrV ltac:(simpl; lia) ltac:(simpl; lia)
                J2 J3 J5 J4 Hloop j).
      simpl. lia.
Qed.

Lemma norm_1_nonzero : norm [1] ≠ 0.
Proof.
  unfold norm, dot. cbn. replace (1 * 1 + 0) with 1 by lra. rewrite sqrt_1. lra.
Qed.

(** The invariant at the end of the loop, for the matrices [arnoldi]
    returns. *)
Lemma arnoldi_relation_pointwise (x0g : list R) (A : tensor R) (b r0 : list R) (m : nat)
    (tol : R) (V Hm : tensor R) :
  0 <= tol →
  arnoldi x0g A b r0 m tol = Return (V, Hm) →
  rows V = rows A ∧ cols V = rows Hm ∧ rows Hm = (cols Hm + 1)%nat
  ∧ ∀ j, (j < cols Hm)%nat →
      (∃ d, length d = rows A ∧ norm d <= tol
            ∧ ∀ i, (i < rows A)%nat →
                vget (matvec A (col V j)) i
                - rsum (fun l => entry V i l * entry Hm l j) (cols V) = vget d i)
      ∧ (tol < entry Hm (j + 1) j →
         ∀ i, (i < rows A)%nat →
           vget (matvec A (col V j)) i
           = rsum (fun l => entry V i l * entry Hm l j) (cols V)).
Proof.
  intros Htol. unfold arnoldi.
  destruct (negb _); [done|]. destruct (negb _); [done|].
  intros [= Hloop].
  match type of Hloop with
  | arnoldi_loop ?A' ?tol' (seq ?k0 ?len) ?V0 ?H0 = _ =>
      pose proof (arnoldi_loop_entries A' tol' (seq k0 len) V0 H0) as (Hr & Hc & _ & _);
      pose proof (arnoldi_loop_shape A' tol' (seq k0 len) V0 H0) as [HrH HcH];
      pose proof (arnoldi_loop_relation A tol Htol len k0 V0 H0 V Hm) as Hrel
  end.
  rewrite Hloop in Hr, Hc, HrH, HcH. cbn [fst snd] in *. simpl in Hr, Hc, HrH, HcH.
  specialize (Hrel ltac:(lia) ltac:(done) ltac:(simpl; lia) ltac:(simpl; lia)
                   ltac:(done)).
  split; [done|]. split; [lia|]. split; [lia|]. intros j Hj.
  destruct (Hrel ltac:(intros i j' Hj'; simpl; by destruct (Nat.eqb_spec j' 0); [lia|])
                 ltac:(done) ltac:(intros; lia) Hloop j ltac:(simpl; lia))
    as [(d & Hd & Hnorm & Hpt) Hexact].
  simpl in Hpt, Hexact. rewrite Hc. split; [|done].
  by exists d.
Qed.

(** X10. Over the real numbers, with [tol >= 0] and a nonzero [r0] of the
    length of [A] (so that [r0 / beta] divides by a nonzero norm), the
    matrices that [arnoldi] returns satisfy the Arnoldi relation
    [A V[:, :-1] = V H], the property the notebook tests, column by column:
    the two sides differ by a vector of norm at most [tol], and they are
    equal in each column [j] with [H[j + 1, j] > tol], which is every column
    when the loop did not stop early. *)
Theorem arnoldi_relation (x0g : list R) (A : tensor R) (b r0 : list R) (m : nat)
    (tol : R) (V Hm : tensor R) :
  0 <= tol → length r0 = rows A → norm r0 ≠ 0 →
  arnoldi x0g A b r0 m tol = Return (V, Hm) →
  ∀ j, (j < cols Hm)%nat →
    norm (vsub (matvec A (col V j)) (matvec V (col Hm j))) <= tol
    ∧ (tol < entry Hm (j + 1) j → matvec A (col V j) = matvec V (col Hm j)).
Proof.
  intros Htol _ _ Harn j Hj.
  destruct (arnoldi_relation_pointwise _ _ _ _ _ _ _ _ Htol Harn)
    as (HrV & HcV & HrH & Hrel).
  destruct (Hrel j Hj) as [(d & Hd & Hnorm & Hpt) Hexact].
  split.
  - by rewrite (matvec_diff_pointwise A V Hm j d).
  - intros Hgt. apply matvec_eq_pointwise; [done..|]. by apply Hexact.
Qed.

Lemma arnoldi_relation_witness :
  norm (vsub (matvec A_2 (col (set_col (tzeros 1 2) 1 0 [1]) 0))
          (matvec (set_col (tzeros 1 2) 1 0 [1]) (col hessenberg_2_basic 0)))
  <= s_1em12
  ∧ (s_1em12 < entry hessenberg_2_basic (0 + 1) 0 →
     matvec A_2 (col (set_col (tzeros 1 2) 1 0 [1]) 0)
     = matvec (set_col (tzeros 1 2) 1 0 [1]) (col hessenberg_2_basic 0)).
Proof.
  apply (arnoldi_relation [0] A_2 b_1 [1] 1 s_1em12
           (set_col (tzeros 1 2) 1 0 [1]) hessenberg_2_basic).
  - simpl. lra.
  - reflexivity.
  - exact norm_1_nonzero.
  - exact arnoldi_2.
  - simpl. lia.
Defined.

End ArnoldiFullReal.

(** ** More about [GMRES]: the iteration solves the least-squares problem *)

Section GMRESReal.
#[local] Open Scope R_scope.

(** The solution that [back_substitution] returns, for a triangular system
    with no zero on the diagonal. *)
Lemma back_substitution_matvec (Rm : tensor R) (y : list R) :
  rows Rm = length y → cols Rm = length y →
  (∀ i j, (j < i < length y)%nat → entry Rm i j = 0) →
  (∀ i, (i < length y)%nat → entry Rm i i ≠ 0) →
  ∃ z, back_substitution Rm y = Return z ∧ length z = length y ∧ matvec Rm z = y.
Proof.
  intros Hr Hc Hlow Hd. unfold back_substitution.
  rewrite Hr, Hc, !Nat.eqb_refl. simpl.
  set (z := foldl _ _ _).
  assert (Hz : solved_from Rm y z 0).
  { apply back_substitution_rows_solved; [done|lia|].
    split; [apply length_zeros|]. intros i Hi. lia. }
  destruct Hz as [Hlen Hrows].
  exists z. split; [done|]. split; [done|].
  rewrite (tabulate_vget y), <- Hr. unfold matvec. apply list_fmap_ext.
  intros i0 i Hi. apply lookup_seq in Hi as [Hi0 Hi]. simpl in Hi0. subst i0.
  rewrite dot_row_split by lia.
  rewrite vsum_vmul_zero_l.
  2: { apply Forall_fmap, Forall_forall. intros j Hj.
       apply elem_of_seq in Hj. simpl. apply Hlow. lia. }
  rewrite Hrows by lia. lra.
Qed.

(** The hypotheses made of the two imported functions on the system
    [2 x = 1] can be met: the algorithms of [arnoldi] and of
    [back_substitution], as the notebooks define them, meet them. *)
Example GMRES_hypotheses_met :
  functions_arnoldi
    (Functions (fun A b r0 k => arnoldi [0] A b r0 k s_1em12) back_substitution)
    A_2 b_1 [1] 1
  = Return (set_col (tzeros 1 2) 1 0 [1], hessenberg_2_basic)
  ∧ ∀ (Rt : tensor R) (y : list R),
      rows Rt = length y → cols Rt = length y →
      (∀ i j, (j < i < length y)%nat → entry Rt i j = 0) →
      (∀ i, (i < length y)%nat → entry Rt i i ≠ 0) →
      ∃ z, functions_back_substitution
             (Functions (fun A b r0 k => arnoldi [0] A b r0 k s_1em12) back_substitution)
             Rt y = Return z
           ∧ length z = length y ∧ matvec Rt z = y.
Proof. split; [exact arnoldi_2|exact back_substitution_matvec]. Qed.

(** X11. Over the real numbers, one turn of the loop of [GMRES] solves the
    least-squares problem of the method, for imported functions that do
    what the call site expects of them: [arnoldi] returns [V] with a row
    per entry of [x0] and [k + 1] columns and [H] of shape (k + 1, k), and
    [back_substitution] solves the triangular systems with no zero on the
    diagonal.  When [lg.qr] returns a complete QR factorisation of [H] and
    the triangular factor has no zero on its diagonal, the turn returns; the
    iterate is [x0 + V[:, :-1] @ yk] for a coefficient vector [yk] at which
    [||beta e1 - H y||] is minimal; and the estimate [pk] it stores is that
    minimum. *)
Theorem GMRES_iter_least_squares (fns : functions R)
    (qr : tensor R → tensor R * tensor R)
    (A : tensor R) (b x0 r0 : list R) (beta : R) (st : basic_state R)
    (V Hm : tensor R) :
  functions_arnoldi fns A b r0 (bs_k st + 1) = Return (V, Hm) →
  rows V = length x0 → cols V = (bs_k st + 2)%nat →
  rows Hm = (bs_k st + 2)%nat → cols Hm = (bs_k st + 1)%nat →
  (∀ (Rt : tensor R) (y : list R),
     rows Rt = length y → cols Rt = length y →
     (∀ i j, (j < i < length y)%nat → entry Rt i j = 0) →
     (∀ i, (i < length y)%nat → entry Rt i i ≠ 0) →
     ∃ z, functions_back_substitution fns Rt y = Return z
          ∧ length z = length y ∧ matvec Rt z = y) →
  is_complete_qr Hm (lg_qr qr Hm) →
  (∀ i, (i < bs_k st + 1)%nat → entry (lg_qr qr Hm).2 i i ≠ 0) →
  ∃ yk, GMRES_iter fns qr A b x0 r0 beta st
        = Return {| bs_k := bs_k st + 1;
                    bs_pk := ls_residual beta Hm yk;
                    bs_xk := Some (vadd x0 (matvec (drop_last_col V) yk)) |}
        ∧ length yk = (bs_k st + 1)%nat
        ∧ ∀ y, length y = (bs_k st + 1)%nat →
               ls_residual beta Hm yk <= ls_residual beta Hm y.
Proof.
  intros Harn _ _ Hr Hc Hsolver Hqr Hdiag.
  unfold GMRES_iter. rewrite Harn. simpl_outcome.
  destruct (lg_qr qr Hm) as [Q Rf]. cbn [snd] in Hdiag.
  pose proof Hqr as (HrQ & HcQ & HrR & HcR & _ & _ & _ & Hup).
  assert (Hrhs : length (vscale beta (removelast (row Q 0))) = (bs_k st + 1)%nat).
  { unfold vscale, row, row_from. rewrite length_fmap, removelast_firstn_len.
    rewrite length_take, length_fmap, length_seq. lia. }
  destruct (Hsolver (drop_last_row Rf)
              (vscale beta (removelast (row Q 0)))) as (yk & Hbs & Hlen & Hsolve).
  - simpl. lia.
  - simpl. lia.
  - intros i j Hij. simpl. apply Hup; lia.
  - intros i Hi. simpl. apply Hdiag. lia.
  - rewrite Hbs. simpl_outcome. exists yk.
    destruct (ls_residual_minimum beta Hm Q Rf yk) as [_ Hatt]; [lia|done|lia|].
    rewrite (Hatt Hsolve), Hc. split; [done|]. split; [lia|].
    intros y Hy.
    destruct (ls_residual_minimum beta Hm Q Rf y) as [Hmin _]; [lia|done|lia|].
    by rewrite Hc in Hmin.
Qed.

Lemma GMRES_iter_least_squares_witness :
  ∃ yk, GMRES_iter
          (Functions (fun A b r0 k => arnoldi [0] A b r0 k s_1em12) back_substitution)
          qr_of_trapezoidal A_2 b_1 [0] [1] 1
          {| bs_k := 0; bs_pk := 1; bs_xk := None |}
        = Return {| bs_k := 0 + 1;
                    bs_pk := ls_residual 1 hessenberg_2_basic yk;
                    bs_xk := Some (vadd [0]
                                     (matvec (drop_last_col (set_col (tzeros 1 2) 1 0 [1]))
                                        yk)) |}
        ∧ length yk = (0 + 1)%nat
        ∧ ∀ y, length y = (0 + 1)%nat →
               ls_residual 1 hessenberg_2_basic yk <= ls_residual 1 hessenberg_2_basic y.
Proof.
  apply (GMRES_iter_least_squares
           (Functions (fun A b r0 k => arnoldi [0] A b r0 k s_1em12) back_substitution)
           qr_of_trapezoidal A_2 b_1 [0] [1] 1
           {| bs_k := 0; bs_pk := 1; bs_xk := None |}
           (set_col (tzeros 1 2) 1 0 [1]) hessenberg_2_basic).
  - exact arnoldi_2.
  - reflexivity.
  - reflexivity.
  - reflexivity.
  - reflexivity.
  - exact back_substitution_matvec.
  - by apply qr_of_trapezoidal_column.
  - intros i Hi. simpl in Hi. assert (Hi0 : i = 0%nat) by lia. subst i. cbn. lra.
Defined.

End GMRESReal.

(** ** The Arnoldi notebook: [compute_krylov_basis] and the test of the
    relation *)

Section NotebookFacts.
Context {T : Type} `{Scalar T}.
#[local] Abbreviation vec := (list T) (only parsing).

(** After the turns [1 .. len] the columns [0 .. len] are the images of the
    first one under the powers of [A]. *)
Lemma krylov_loop_columns (A : tensor T) (r0 : vec) (len : nat) :
  ∀ B : tensor T,
    rows B = rows A → col B 0 = r0 →
    rows (foldl (krylov_step A) B (seq 1 len)) = rows B
    ∧ cols (foldl (krylov_step A) B (seq 1 len)) = cols B
    ∧ ∀ j, j ≤ len →
        col (foldl (krylov_step A) B (seq 1 len)) j = Nat.iter j (matvec A) r0.
Proof.
  intros B HB H0. induction len as [|len IH].
  - simpl. split; [done|]. split; [done|]. intros j Hj.
    by replace j with 0 by lia.
  - rewrite seq_S, foldl_app. simpl.
    destruct IH as (Hr & Hc & Hcols).
    set (B1 := foldl (krylov_step A) B (seq 1 len)) in *.
    unfold krylov_step. split; [done|]. split; [done|].
    intros j Hj. destruct (decide (j = S len)) as [->|Hne].
    + rewrite col_set_col_eq by (rewrite matvec_length; lia).
      simpl. rewrite Nat.sub_0_r, Hcols by lia. reflexivity.
    + rewrite col_set_col_neq by done. apply Hcols. lia.
Qed.

(** X12. For operands that conform ([A] square, [b] and [x0] of its size),
    [compute_krylov_basis] raises [IndexError] when [m = 0]; otherwise it
    returns an array of shape (n, m) whose column [i] is [A^i (b - A x0)]:
    every entry of the uninitialised array is overwritten. *)
Theorem compute_krylov_basis_powers (junk : nat → nat → T) (A : tensor T) (b x0 : vec)
    (m : nat) :
  cols A = rows A → length b = rows A → length x0 = rows A →
  match compute_krylov_basis junk A b x0 m with
  | Return basis =>
      0 < m ∧ rows basis = rows A ∧ cols basis = m
      ∧ ∀ i, i < m → col basis i = Nat.iter i (matvec A) (vsub b (matvec A x0))
  | Raise e =>
      m = 0 ∧ e = IndexError "index 0 is out of bounds for axis 1 with size 0"
  | OutOfFuel => False
  end.
Proof.
  intros HA Hb Hx. unfold compute_krylov_basis.
  destruct (Nat.eqb_spec m 0) as [->|Hm]; [done|].
  set (r0 := vsub b (matvec A x0)).
  assert (Hr0 : length r0 = rows A).
  { unfold r0, vsub. rewrite length_zip_with, matvec_length. lia. }
  destruct (krylov_loop_columns A r0 (m - 1)
              (set_col (Tensor (rows A) m junk) (rows A) 0 r0)) as (Hr & Hc & Hcols).
  - done.
  - by apply (col_set_col_eq (Tensor (rows A) m junk) 0 r0).
  - split; [lia|]. split; [done|]. split; [done|].
    intros i Hi. apply Hcols. lia.
Qed.

(** A loop without state returns when each of its turns does. *)
Lemma for_each_unit_Return {X : Type} (f : X → outcome unit) (l : list X) :
  for_each (fun _ x => f x) tt l = Return tt ↔ Forall (fun x => f x = Return tt) l.
Proof.
  induction l as [|x l IH]; simpl.
  - split; [by intros _|done].
  - rewrite Forall_cons, <- IH.
    destruct (f x) as [[]| |]; simpl_outcome; split; (done || by intros [? ?]).
Qed.

(** It stops at the first turn that raises. *)
Lemma for_each_unit_Raise {X : Type} (f : X → outcome unit) (l1 l2 : list X) (x : X)
    (e : exn) :
  Forall (fun x => f x = Return tt) l1 → f x = Raise e →
  for_each (fun _ x => f x) tt (l1 ++ x :: l2) = Raise e.
Proof.
  intros Hl1 Hx. rewrite for_each_app.
  apply for_each_unit_Return in Hl1. rewrite Hl1. simpl_outcome. by rewrite Hx.
Qed.

Lemma assert_entry_Return (matrix1 matrix2 : tensor T) (threshold : T) (i j : nat) :
  assert_entry matrix1 matrix2 threshold i j = Return tt
  ↔ s_leb (s_abs (s_sub (entry matrix1 i j) (entry matrix2 i j))) threshold = true.
Proof. unfold assert_entry. by destruct (s_leb _ _). Qed.

(** X13. [assert_matrices_equal_with_threshold] returns exactly when the two
    arrays have the same number of rows, at least one, the same number of
    columns, and every pair of entries passes
    [abs(matrix1[i][j] - matrix2[i][j]) <= threshold].  When the shapes
    agree and some pair fails, the [AssertionError] names the first such
    position in row-major order. *)
Theorem assert_matrices_equal_with_threshold_spec (matrix1 matrix2 : tensor T)
    (threshold : T) :
  (assert_matrices_equal_with_threshold matrix1 matrix2 threshold = Return tt
   ↔ rows matrix1 = rows matrix2 ∧ 0 < rows matrix1 ∧ cols matrix1 = cols matrix2
     ∧ ∀ i j, i < rows matrix1 → j < cols matrix1 →
              s_leb (s_abs (s_sub (entry matrix1 i j) (entry matrix2 i j))) threshold
              = true)
  ∧ (∀ i j,
       rows matrix1 = rows matrix2 → cols matrix1 = cols matrix2 →
       i < rows matrix1 → j < cols matrix1 →
       s_leb (s_abs (s_sub (entry matrix1 i j) (entry matrix2 i j))) threshold = false →
       (∀ i' j', i' < rows matrix1 → j' < cols matrix1 → i' < i ∨ (i' = i ∧ j' < j) →
                 s_leb (s_abs (s_sub (entry matrix1 i' j') (entry matrix2 i' j')))
                       threshold = true) →
       assert_matrices_equal_with_threshold matrix1 matrix2 threshold
       = Raise (AssertionError
                  (String.append "Element at position ("
                     (String.append (nat_str i)
                        (String.append ", "
                           (String.append (nat_str j)
                              ") is not within the threshold")))))).
Proof.
  unfold assert_matrices_equal_with_threshold. split.
  - destruct (Nat.eqb_spec (rows matrix1) (rows matrix2)) as [Hr|Hr]; simpl.
    2: { split; [done|]. by intros [? _]. }
    destruct (Nat.eqb_spec (rows matrix1) 0) as [H0|H0].
    { split; [done|]. intros (_ & ? & _). lia. }
    destruct (Nat.eqb_spec (cols matrix1) (cols matrix2)) as [Hc|Hc]; simpl.
    2: { split; [done|]. by intros (_ & _ & ? & _). }
    rewrite for_each_unit_Return, Forall_seq.
    split.
    + intros Hall. split; [done|]. split; [lia|]. split; [done|].
      intros i j Hi Hj. specialize (Hall i ltac:(lia)).
      rewrite for_each_unit_Return, Forall_seq in Hall.
      apply assert_entry_Return, Hall. lia.
    + intros (_ & _ & _ & Hall) i Hi.
      rewrite for_each_unit_Return, Forall_seq. intros j Hj.
      apply assert_entry_Return, Hall; lia.
  - intros i j Hr Hc Hi Hj Hbad Hgood.
    destruct (Nat.eqb_spec (rows matrix1) (rows matrix2)); [|done]. simpl.
    destruct (Nat.eqb_spec (rows matrix1) 0); [lia|].
    destruct (Nat.eqb_spec (cols matrix1) (cols matrix2)); [|done]. simpl.
    replace (rows matrix1) with (i + S (rows matrix1 - S i)) at 1 by lia.
    rewrite seq_app. simpl.
    apply (for_each_unit_Raise
             (fun i => for_each (fun _ j => assert_entry matrix1 matrix2 threshold i j)
                         tt (seq 0 (cols matrix1)))).
    + apply Forall_seq. intros i' Hi'.
      rewrite for_each_unit_Return, Forall_seq. intros j' Hj'.
      unfold assert_entry. rewrite Hgood by lia. reflexivity.
    + replace (cols matrix1) with (j + S (cols matrix1 - S j)) at 1 by lia.
      rewrite seq_app. simpl.
      apply (for_each_unit_Raise (fun j => assert_entry matrix1 matrix2 threshold i j)).
      * apply Forall_seq. intros j' Hj'.
        unfold assert_entry. rewrite Hgood by lia. reflexivity.
      * unfold assert_entry. by rewrite Hbad.
Qed.

End NotebookFacts.

Lemma compute_krylov_basis_powers_witness :
  match compute_krylov_basis (fun _ _ => IEEE.f2)
          (of_rows [[IEEE.f2; IEEE.f0]; [IEEE.f0; IEEE.f2]]) [IEEE.f1; IEEE.f1]
          [IEEE.f0; IEEE.f0] 2 with
  | Return basis =>
      0 < 2 ∧ rows basis = rows (of_rows [[IEEE.f2; IEEE.f0]; [IEEE.f0; IEEE.f2]])
      ∧ cols basis = 2
      ∧ ∀ i, i < 2 →
          col basis i
          = Nat.iter i (matvec (of_rows [[IEEE.f2; IEEE.f0]; [IEEE.f0; IEEE.f2]]))
              (vsub [IEEE.f1; IEEE.f1]
                 (matvec (of_rows [[IEEE.f2; IEEE.f0]; [IEEE.f0; IEEE.f2]])
                    [IEEE.f0; IEEE.f0]))
  | Raise e =>
      2 = 0 ∧ e = IndexError "index 0 is out of bounds for axis 1 with size 0"
  | OutOfFuel => False
  end.
Proof.
  apply (compute_krylov_basis_powers (fun _ _ => IEEE.f2)
           (of_rows [[IEEE.f2; IEEE.f0]; [IEEE.f0; IEEE.f2]]) [IEEE.f1; IEEE.f1]
           [IEEE.f0; IEEE.f0] 2); reflexivity.
Defined.

Section NotebookReal.
#[local] Open Scope R_scope.

Lemma vget_sqr_le_dot (d : list R) : ∀ i, vget d i * vget d i <= dot d d.
Proof.
  induction d as [|a d IH]; intros i.
  - unfold vget. rewrite lookup_nil, dot_nil_l. simpl. lra.
  - rewrite dot_cons. pose proof (dot_self_nonneg d) as Hd.
    pose proof (Rle_0_sqr a) as Ha. unfold Rsqr in Ha.
    destruct i as [|i].
    + unfold vget. simpl. lra.
    + change (vget (a :: d) (S i)) with (vget d i). specialize (IH i). lra.
Qed.

Lemma Rabs_vget_le_norm (d : list R) (i : nat) : Rabs (vget d i) <= norm d.
Proof.
  rewrite <- sqrt_Rsqr_abs. unfold norm. apply sqrt_le_1_alt. unfold Rsqr.
  apply vget_sqr_le_dot.
Qed.

(** X14. Over the real numbers, the matrices [arnoldi] returns pass the test
    of the notebook, [assert_matrices_equal_with_threshold(A @ V[:, :-1],
    V @ H, threshold)], for every threshold that is at least the tolerance
    [tol >= 0] of the call, when [A] has a row and [r0] is nonzero and of
    its length. *)
Theorem arnoldi_passes_relation_test (x0g : list R) (A : tensor R) (b r0 : list R)
    (m : nat) (tol threshold : R) (V Hm : tensor R) :
  0 <= tol → tol <= threshold → (0 < rows A)%nat → length r0 = rows A →
  norm r0 ≠ 0 →
  arnoldi x0g A b r0 m tol = Return (V, Hm) →
  assert_matrices_equal_with_threshold (matmul A (drop_last_col V)) (matmul V Hm)
    threshold
  = Return tt.
Proof.
  intros Htol Hthr HA _ _ Harn.
  destruct (arnoldi_relation_pointwise _ _ _ _ _ _ _ _ Htol Harn)
    as (HrV & HcV & HrH & Hrel).
  unfold assert_matrices_equal_with_threshold. cbn [rows cols matmul drop_last_col].
  rewrite HrV, Nat.eqb_refl. cbn [negb].
  destruct (Nat.eqb_spec (rows A) 0); [lia|].
  replace (cols V - 1)%nat with (cols Hm) by lia. rewrite Nat.eqb_refl. cbn [negb].
  apply for_each_unit_Return, Forall_seq. intros i Hi.
  apply for_each_unit_Return, Forall_seq. intros j Hj.
  apply assert_entry_Return. cbn [entry matmul].
  destruct (Hrel j ltac:(lia)) as [(d & Hd & Hnorm & Hpt) _].
  change (col (drop_last_col V) j) with (col V j).
  rewrite <- vget_matvec by lia.
  replace (dot (row V i) (col Hm j))
    with (rsum (fun l => entry V i l * entry Hm l j) (cols V)).
  2: { unfold row, row_from, col. by rewrite Nat.sub_0_r, HcV, dot_tabulate. }
  change (Rleb (Rabs (vget (matvec A (col V j)) i
                      - rsum (fun l => entry V i l * entry Hm l j) (cols V)))
               threshold = true).
  rewrite Hpt by lia. apply Rleb_true.
  pose proof (Rabs_vget_le_norm d i). lra.
Qed.

Lemma arnoldi_passes_relation_test_witness :
  assert_matrices_equal_with_threshold
    (matmul A_2 (drop_last_col (set_col (tzeros 1 2) 1 0 [1])))
    (matmul (set_col (tzeros 1 2) 1 0 [1]) hessenberg_2_basic) s_1em12
  = Return tt.
Proof.
  apply (arnoldi_passes_relation_test [0] A_2 b_1 [1] 1 s_1em12 s_1em12
           (set_col (tzeros 1 2) 1 0 [1]) hessenberg_2_basic).
  - simpl. lra.
  - simpl. lra.
  - simpl. lia.
  - reflexivity.
  - exact norm_1_nonzero.
  - exact arnoldi_2.
Defined.

End NotebookReal.

(** ** More about [discretise_poisson]: the triples handed to [coo_matrix] *)

Section PoissonMore.
Variable junk : nat → nat → Z.
#[local] Open Scope Z_scope.

(** For [N >= 2] the three arrays hold the triples of the grid nodes, in
    the order of the loops, and nothing else. *)
Lemma discretise_poisson_run (N : nat) :
  (2 ≤ N)%nat →
  ∃ f, discretise_poisson junk N
       = Return (CooMatrix (N ^ 2, N ^ 2)%nat
                   (grid_triples N (grid N)).*1 (grid_triples N (grid N)).*2.*1
                   (grid_triples N (grid N)).*2.*2, f).
Proof.
  intros HN. unfold discretise_poisson. rewrite poisson_loops_grid.
  set (nel := Z.to_nat _). set (st0 := PoissonState _ _ _ _ _).
  destruct (poisson_nodes_filled N (grid N) st0 [] nel) as (st' & Hrun & Hfill & Hf).
  { split; [done|]. exists (np_empty junk 0 nel), (np_empty junk 1 nel), (np_empty junk 2 nel).
    unfold np_empty. rewrite !length_fmap, !length_seq. done. }
  { unfold nel. by rewrite grid_triples_count. }
  { apply Forall_forall. intros [j i] Hin. simpl.
    unfold np_empty. rewrite length_fmap, length_seq.
    apply elem_of_grid in Hin as [Hj Hi].
    pose proof (Nat.mul_le_mono_r (S j) N N Hj). lia. }
  rewrite Hrun. simpl_outcome.
  unfold nel in Hfill. rewrite <- grid_triples_count, Nat.sub_diag in Hfill by done.
  destruct Hfill as (_ & r1 & r2 & r3 & H1 & H2 & H3 & L1 & L2 & L3).
  apply nil_length_inv in L1, L2, L3. subst r1 r2 r3.
  rewrite app_nil_r in H1, H2, H3. simpl in H1, H2, H3.
  exists (ps_f st'). by rewrite H1, H2, H3.
Qed.

Lemma interior_node (N i j : nat) :
  (i < N)%nat → (j < N)%nat → is_boundary N i j = false →
  (1 ≤ i ∧ i + 2 ≤ N ∧ 1 ≤ j ∧ j + 2 ≤ N)%nat.
Proof.
  intros Hi Hj Hb. destruct (decide (1 ≤ i ∧ i + 2 ≤ N ∧ 1 ≤ j ∧ j + 2 ≤ N)%nat) as [|Hn];
    [done|].
  assert (Hb' : is_boundary N i j = true) by (apply is_boundary_spec; lia).
  congruence.
Qed.

(** The triples of a node: coordinates inside the matrix, and one of the
    three values of the stencil. *)
Lemma node_triples_valid (N j i : nat) :
  (j < N)%nat → (i < N)%nat →
  Forall (fun t => (0 ≤ t.1 < Z.of_nat N ^ 2 ∧ 0 ≤ t.2.1 < Z.of_nat N ^ 2)
                   ∧ (t.2.2 = 1 ∨ t.2.2 = 4 * (Z.of_nat N - 1) ^ 2
                      ∨ t.2.2 = - (Z.of_nat N - 1) ^ 2))
         (node_triples N j i).
Proof.
  intros Hj Hi. unfold node_triples.
  assert (Hp : 0 ≤ Z.of_nat j * Z.of_nat N + Z.of_nat i < Z.of_nat N ^ 2) by nia.
  destruct (is_boundary N i j) eqn:Hb.
  - apply Forall_cons. split; [simpl; split; [lia|auto]|]. by apply Forall_nil.
  - apply interior_node in Hb as (Hi1 & Hi2 & Hj1 & Hj2); [|done..].
    assert (Hlo : Z.of_nat N ≤ Z.of_nat j * Z.of_nat N) by nia.
    assert (Hhi : Z.of_nat j * Z.of_nat N + 2 * Z.of_nat N ≤ Z.of_nat N * Z.of_nat N)
      by nia.
    rewrite Z.pow_2_r in *.
    repeat (apply Forall_cons; split; [simpl; split; [lia|auto]|]). by apply Forall_nil.
Qed.

Lemma node_coords_NoDup (N j i : nat) :
  (2 ≤ N)%nat → NoDup ((fun t => (t.1, t.2.1)) <$> node_triples N j i).
Proof.
  intros HN. unfold node_triples. destruct (is_boundary N i j); simpl.
  - repeat constructor. apply not_elem_of_nil.
  - repeat (apply NoDup_cons; split);
      rewrite ?not_elem_of_cons; repeat split;
      try apply not_elem_of_nil; try apply NoDup_nil_2; intros [= Heq]; nia.
Qed.

Lemma grid_NoDup (N : nat) : NoDup (grid N).
Proof.
  unfold grid. apply NoDup_bind.
  - intros j1 j2 [j i] _ _ H1 H2.
    apply list_elem_of_fmap in H1 as (? & [= -> ->] & _).
    by apply list_elem_of_fmap in H2 as (? & [= -> _] & _).
  - intros j _. apply NoDup_fmap; [by intros ? ? [=]|apply NoDup_seq].
  - apply NoDup_seq.
Qed.

Lemma fmap_bind_list {X Y W : Type} (g : Y → W) (h : X → list Y) (l : list X) :
  g <$> (l ≫= h) = l ≫= (fun x => g <$> h x).
Proof.
  induction l as [|x l IH]; [done|]. by rewrite !bind_cons, fmap_app, IH.
Qed.

Lemma grid_coords_NoDup (N : nat) :
  (2 ≤ N)%nat → NoDup ((fun t => (t.1, t.2.1)) <$> grid_triples N (grid N)).
Proof.
  intros HN. unfold grid_triples. rewrite fmap_bind_list. apply NoDup_bind.
  - intros [j1 i1] [j2 i2] [r c] H1 H2 Hy1 Hy2. simpl in *.
    apply elem_of_grid in H1 as [Hj1 Hi1]. apply elem_of_grid in H2 as [Hj2 Hi2].
    apply list_elem_of_fmap in Hy1 as (t1 & [= -> ->] & Ht1).
    apply list_elem_of_fmap in Hy2 as (t2 & [= Hr _] & Ht2).
    pose proof (node_triples_row N j1 i1) as R1.
    pose proof (node_triples_row N j2 i2) as R2.
    rewrite Forall_forall in R1, R2.
    rewrite (R1 _ Ht1), (R2 _ Ht2) in Hr.
    destruct (node_index_inj N j1 i1 j2 i2) as [-> ->]; [done|done|lia|done].
  - intros [j i] _. simpl. by apply node_coords_NoDup.
  - apply grid_NoDup.
Qed.

(** X15. For every grid size [N >= 2] the three arrays handed to
    [coo_matrix] have [5 N^2 - 16 N + 16] entries each, the number
    allocated; every row and column index lies inside the (N^2, N^2)
    matrix; no position is stored twice; and every value is 1,
    [4 (N-1)^2] or [-(N-1)^2], whatever the fresh arrays held. *)
Theorem discretise_poisson_triples (N : nat) :
  (2 ≤ N)%nat →
  ∃ (A : coo_matrix) (f : list Z),
    discretise_poisson junk N = Return (A, f)
    ∧ (length (coo_row A) = Z.to_nat (5 * Z.of_nat N ^ 2 - 16 * Z.of_nat N + 16)
       ∧ length (coo_col A) = length (coo_row A)
       ∧ length (coo_data A) = length (coo_row A))
    ∧ Forall (fun r => 0 ≤ r < Z.of_nat N ^ 2) (coo_row A)
    ∧ Forall (fun c => 0 ≤ c < Z.of_nat N ^ 2) (coo_col A)
    ∧ NoDup (zip (coo_row A) (coo_col A))
    ∧ Forall (fun d => d = 1 ∨ d = 4 * (Z.of_nat N - 1) ^ 2
                       ∨ d = - (Z.of_nat N - 1) ^ 2) (coo_data A).
Proof.
  intros HN. destruct (discretise_poisson_run N HN) as [f Hrun].
  eexists _, f. split; [exact Hrun|]. simpl.
  assert (Hvalid : Forall (fun t => (0 ≤ t.1 < Z.of_nat N ^ 2
                                     ∧ 0 ≤ t.2.1 < Z.of_nat N ^ 2)
                                    ∧ (t.2.2 = 1 ∨ t.2.2 = 4 * (Z.of_nat N - 1) ^ 2
                                       ∨ t.2.2 = - (Z.of_nat N - 1) ^ 2))
                          (grid_triples N (grid N))).
  { unfold grid_triples. apply Forall_bind, Forall_forall. intros [j i] Hin.
    apply elem_of_grid in Hin as [Hj Hi]. by apply node_triples_valid. }
  split; [|split; [|split; [|split]]].
  - rewrite !length_fmap. split; [by apply grid_triples_count|done].
  - apply Forall_fmap. eapply Forall_impl; [exact Hvalid|]. simpl. tauto.
  - apply Forall_fmap, Forall_fmap. eapply Forall_impl; [exact Hvalid|]. simpl. tauto.
  - pose proof (grid_coords_NoDup N HN) as Hnd.
    replace (zip (grid_triples N (grid N)).*1 (grid_triples N (grid N)).*2.*1)
      with ((fun t : Z * (Z * Z) => (t.1, t.2.1)) <$> grid_triples N (grid N)); [done|].
    generalize (grid_triples N (grid N)). intros l.
    induction l as [|[r [c d]] l IH]; [done|]. csimpl. f_equal. exact IH.
  - apply Forall_fmap, Forall_fmap. eapply Forall_impl; [exact Hvalid|]. simpl. tauto.
Qed.

End PoissonMore.

Lemma discretise_poisson_triples_witness :
  ∃ (A : coo_matrix) (f : list Z),
    discretise_poisson (fun _ _ => (-7)%Z) 3 = Return (A, f)
    ∧ (length (coo_row A) = Z.to_nat (5 * Z.of_nat 3 ^ 2 - 16 * Z.of_nat 3 + 16)
       ∧ length (coo_col A) = length (coo_row A)
       ∧ length (coo_data A) = length (coo_row A))
    ∧ Forall (fun r => (0 ≤ r < Z.of_nat 3 ^ 2)%Z) (coo_row A)
    ∧ Forall (fun c => (0 ≤ c < Z.of_nat 3 ^ 2)%Z) (coo_col A)
    ∧ NoDup (zip (coo_row A) (coo_col A))
    ∧ Forall (fun d => (d = 1 ∨ d = 4 * (Z.of_nat 3 - 1) ^ 2
                        ∨ d = - (Z.of_nat 3 - 1) ^ 2)%Z) (coo_data A).
Proof. apply (discretise_poisson_triples (fun _ _ => (-7)%Z) 3). lia. Defined.

(** ** More about [GMRES]: how a call ends *)

Section GMRESOutcome.
Context {T : Type} `{Scalar T}.
#[local] Abbreviation vec := (list T) (only parsing).

(** When [arnoldi] returns a Hessenberg matrix of shape (k + 1, k) and
    [back_substitution] returns on square systems, the triangular system of
    the turn is square and the body raises nothing. *)
Lemma GMRES_iter_returns (fns : functions T) (qr : tensor T → tensor T * tensor T)
    (A : tensor T) (b x0 r0 : vec) (beta : T) (st : basic_state T) :
  (∃ V Hm, functions_arnoldi fns A b r0 (bs_k st + 1) = Return (V, Hm)
           ∧ rows Hm = bs_k st + 2 ∧ cols Hm = bs_k st + 1) →
  (∀ (Rt : tensor T) (y : vec), rows Rt = length y → cols Rt = length y →
     ∃ z, functions_back_substitution fns Rt y = Return z) →
  ∃ st', GMRES_iter fns qr A b x0 r0 beta st = Return st'
         ∧ bs_k st' = bs_k st + 1 ∧ is_Some (bs_xk st').
Proof.
  intros (V & Hm & Harn & Hr & Hc) Hbs. unfold GMRES_iter.
  rewrite Harn. simpl_outcome.
  unfold lg_qr. destruct (qr Hm) as [Q Rf].
  set (rhs := vscale _ _). set (Rt := drop_last_row _).
  assert (Hlen : length rhs = bs_k st + 1).
  { unfold rhs, vscale, row, row_from. rewrite length_fmap, removelast_firstn_len.
    rewrite length_take, length_fmap, length_seq. simpl. lia. }
  destruct (Hbs Rt rhs) as (yk & Hyk); [unfold Rt; simpl; lia..|].
  rewrite Hyk. simpl_outcome. eexists. split; [reflexivity|]. simpl. eauto.
Qed.

Lemma GMRES_loop_returns (fns : functions T) (qr : tensor T → tensor T * tensor T)
    (A : tensor T) (b x0 r0 : vec) (beta epsilon p0 : T) (k_max : Z) (fuel : nat) :
  (∀ k, 1 ≤ k ≤ rows A →
     ∃ V Hm, functions_arnoldi fns A b r0 k = Return (V, Hm)
             ∧ rows Hm = k + 1 ∧ cols Hm = k) →
  (∀ (Rt : tensor T) (y : vec), rows Rt = length y → cols Rt = length y →
     ∃ z, functions_back_substitution fns Rt y = Return z) →
  (k_max ≤ Z.of_nat (rows A))%Z →
  ∀ st : basic_state T,
    (k_max - Z.of_nat (bs_k st) ≤ Z.of_nat fuel)%Z →
    ∃ st', GMRES_loop fns qr A b x0 r0 beta epsilon p0 k_max fuel st = Return st'
           ∧ (if GMRES_continue epsilon p0 k_max st then is_Some (bs_xk st')
              else st' = st).
Proof.
  intros Harn Hbs Hn. induction fuel as [|fuel IH]; intros st Hfuel; simpl.
  - destruct (GMRES_continue epsilon p0 k_max st) eqn:Hc; [|eauto].
    unfold GMRES_continue in Hc. apply andb_prop in Hc as [_ Hc].
    apply Z.ltb_lt in Hc. lia.
  - destruct (GMRES_continue epsilon p0 k_max st) eqn:Hc; [|eauto].
    pose proof Hc as Hc'. unfold GMRES_continue in Hc'.
    apply andb_prop in Hc' as [_ Hlt]. apply Z.ltb_lt in Hlt.
    destruct (GMRES_iter_returns fns qr A b x0 r0 beta st)
      as (st1 & Hit & Hk1 & Hxk); [|done|].
    { destruct (Harn (bs_k st + 1)) as (V & Hm & HVH & Hr & Hc0); [lia|].
      exists V, Hm. split; [done|]. lia. }
    rewrite Hit. simpl_outcome.
    destruct (IH st1) as (st' & Hloop & Hcase); [lia|].
    exists st'. split; [exact Hloop|].
    destruct (GMRES_continue epsilon p0 k_max st1); [done|]. by subst st'.
Qed.

(** X16. The two ways a call of [GMRES] can end, for operands that conform
    and imported functions that return what the call site expects of them:
    [arnoldi], asked for [k] steps with [1 <= k <= n], returns [V] of shape
    (n, k + 1) and [H] of shape (k + 1, k), and [back_substitution] returns a
    vector of the size of a square system.  When the loop test fails at once
    the [return] finds [xk] unbound; otherwise the loop runs, no statement
    of [GMRES] raises, and the call returns a pair. *)
Theorem GMRES_outcome (fns : functions T) (qr : tensor T → tensor T * tensor T)
    (A : tensor T) (b x0 : vec) (k_max : option Z) (epsilon : T) :
  cols A = rows A → length x0 = rows A → length b = rows A →
  (∀ k, 1 ≤ k ≤ rows A →
     ∃ V Hm, functions_arnoldi fns A b (vsub b (matvec A x0)) k = Return (V, Hm)
             ∧ rows V = rows A ∧ cols V = k + 1
             ∧ rows Hm = k + 1 ∧ cols Hm = k) →
  (∀ (Rt : tensor T) (y : vec), rows Rt = length y → cols Rt = length y →
     ∃ z, functions_back_substitution fns Rt y = Return z ∧ length z = length y) →
  if GMRES_continue epsilon (norm (vsub b (matvec A x0))) (clamp_k_max k_max (rows A))
       {| bs_k := 0; bs_pk := norm (vsub b (matvec A x0)); bs_xk := None |}
  then ∃ x pk, GMRES fns qr A b x0 k_max epsilon = Return (x, pk)
  else GMRES fns qr A b x0 k_max epsilon = Raise (UnboundLocalError "xk").
Proof.
  intros _ _ _ Harn Hbs.
  destruct (GMRES_continue _ _ _ _) eqn:Hc; [|by apply GMRES_loop_skipped].
  set (K := clamp_k_max k_max (rows A)) in *.
  assert (HK : (K ≤ Z.of_nat (rows A))%Z).
  { unfold K, clamp_k_max. destruct k_max as [m|]; [|lia].
    destruct (Z.ltb_spec (Z.of_nat (rows A)) m); lia. }
  unfold GMRES. fold K.
  destruct (GMRES_loop_returns fns qr A b x0 (vsub b (matvec A x0))
              (norm (vsub b (matvec A x0))) epsilon (norm (vsub b (matvec A x0)))
              K (Z.to_nat K))
    with (st := {| bs_k := 0; bs_pk := norm (vsub b (matvec A x0)); bs_xk := None |})
    as (st' & Hloop & Hcase).
  - intros k Hk. destruct (Harn k Hk) as (V & Hm & HVH & _ & _ & Hr & Hc0).
    by exists V, Hm.
  - intros Rt y Hr Hc0. destruct (Hbs Rt y Hr Hc0) as (z & Hz & _). by exists z.
  - exact HK.
  - simpl. lia.
  - rewrite Hloop. simpl_outcome. rewrite Hc in Hcase.
    destruct Hcase as [xk Hxk]. rewrite Hxk. eauto.
Qed.

End GMRESOutcome.

Lemma GMRES_outcome_witness :
  if GMRES_continue s_1em12 (norm (vsub [IEEE.f1] (matvec (of_rows [[IEEE.f2]]) [IEEE.f0])))
       (clamp_k_max None (rows (of_rows [[IEEE.f2]])))
       {| bs_k := 0;
          bs_pk := norm (vsub [IEEE.f1] (matvec (of_rows [[IEEE.f2]]) [IEEE.f0]));
          bs_xk := None |}
  then ∃ x pk,
         GMRES (Functions (fun A b r0 k => arnoldi [IEEE.f0] A b r0 k s_1em12)
                          back_substitution)
           IEEE.qr_identity (of_rows [[IEEE.f2]]) [IEEE.f1] [IEEE.f0] None s_1em12
         = Return (x, pk)
  else GMRES (Functions (fun A b r0 k => arnoldi [IEEE.f0] A b r0 k s_1em12)
                        back_substitution)
         IEEE.qr_identity (of_rows [[IEEE.f2]]) [IEEE.f1] [IEEE.f0] None s_1em12
       = Raise (UnboundLocalError "xk").
Proof.
  apply (GMRES_outcome
           (Functions (fun A b r0 k => arnoldi [IEEE.f0] A b r0 k s_1em12)
                      back_substitution)
           IEEE.qr_identity (of_rows [[IEEE.f2]]) [IEEE.f1] [IEEE.f0] None s_1em12).
  - reflexivity.
  - reflexivity.
  - reflexivity.
  - intros k Hk. simpl in Hk. assert (Hk1 : k = 1) by lia. subst k.
    eexists _, _. split; [vm_compute; reflexivity|]. repeat split.
  - intros Rt y Hr Hc. by apply back_substitution_square.
Defined.

(** ** Restarts: a restarted run is its first cycle followed by a fresh run *)

Section DriverRestart.
Context {T : Type} `{Scalar T}.
#[local] Abbreviation vec := (list T) (only parsing).

Lemma gmres_iter_resumed (qr : tensor T → tensor T * tensor T) (prec : vec → vec)
    (A : tensor T) (n : nat) (t1 : list T) (c : nat) (x1 : vec) (sa sb : gmres_state T) :
  resumed t1 c x1 sa sb →
  match gmres_iter qr prec A n sa, gmres_iter qr prec A n sb with
  | Return sa', Return sb' => resumed t1 c x1 sa' sb' ∧ is_Some (st_xk sb')
  | Raise e, Raise e' => e = e'
  | OutOfFuel, OutOfFuel => True
  | _, _ => False
  end.
Proof.
  destruct sa, sb. unfold resumed. simpl.
  intros (-> & -> & -> & -> & -> & -> & -> & -> & -> & (seed & rest & -> & ->) & ->).
  unfold gmres_iter. simpl.
  destruct (arnoldi_one_iter _ _ _ _ _) as [h_k [v|]]; simpl;
    destruct (lg_qr _ _) as [Q R];
    (destruct (back_substitution _ _) as [yk|e|]; simpl_outcome; [|done..]);
    (split; [|eauto]); repeat (split; [done || lia|]); (split; [|done]).
  - exists seed, (rest ++ [s_abs (s_mul st_beta1 (entry Q 0 st_k1))]).
    by rewrite app_assoc.
  - exists seed, ((rest ++ [s_zero]) ++ [s_abs (s_mul st_beta1 (entry Q 0 st_k1))]).
    by rewrite !app_assoc.
Qed.

Lemma gmres_maybe_restart_resumed (prec : vec → vec) (A : tensor T) (b : vec) (n : nat)
    (restart : option Z) (t1 : list T) (c : nat) (x1 : vec) (sa sb : gmres_state T) :
  resumed t1 c x1 sa sb → is_Some (st_xk sb) →
  resumed t1 c x1 (gmres_maybe_restart prec A b n restart sa)
                  (gmres_maybe_restart prec A b n restart sb).
Proof.
  intros Hres [xk Hxk]. pose proof Hres as Hres'.
  destruct Hres' as (Hx0 & Hr0 & Hp0 & Hb & Hpk & Hk & HV & HH & Ht & He & Hx).
  unfold gmres_maybe_restart. destruct restart as [r|]; [|done].
  rewrite Hk. destruct (Z.of_nat (st_k sb) =? r)%Z; [|done].
  unfold gmres_restart, resumed. simpl. rewrite Hx, Hxk. simpl.
  repeat (split; [done|]). done.
Qed.

Lemma gmres_loop_resumed (qr : tensor T → tensor T * tensor T) (prec : vec → vec)
    (A : tensor T) (b : vec) (n : nat) (k_max : Z) (restart : option Z) (epsilon : T)
    (t1 : list T) (c : nat) (x1 : vec) (fuel : nat) :
  ∀ sa sb : gmres_state T,
    resumed t1 c x1 sa sb →
    match gmres_loop qr prec A b n (Z.of_nat c + k_max) restart epsilon fuel sa,
          gmres_loop qr prec A b n k_max restart epsilon fuel sb with
    | Return sa', Return sb' => resumed t1 c x1 sa' sb' ∧ (st_xk sb' = None → sb' = sb)
    | Raise e, Raise e' => e = e'
    | OutOfFuel, OutOfFuel => True
    | _, _ => False
    end.
Proof.
  induction fuel as [|fuel IH]; intros sa sb Hres;
    pose proof Hres as (_ & _ & Hp0 & _ & Hpk & _ & _ & _ & Ht & _);
    (assert (Hc : gmres_continue epsilon (Z.of_nat c + k_max) sa
                  = gmres_continue epsilon k_max sb);
     [unfold gmres_continue; rewrite Hp0, Hpk, Ht; f_equal;
      destruct (Z.ltb_spec (Z.of_nat (c + st_total_k sb)) (Z.of_nat c + k_max)),
               (Z.ltb_spec (Z.of_nat (st_total_k sb)) k_max); (done || lia)|]);
    simpl; rewrite Hc; destruct (gmres_continue epsilon k_max sb); try done.
  pose proof (gmres_iter_resumed qr prec A n t1 c x1 sa sb Hres) as Hit.
  destruct (gmres_iter qr prec A n sa) as [sa1|ea|],
           (gmres_iter qr prec A n sb) as [sb1|eb|]; simpl_outcome; try done.
  destruct Hit as [Hres1 Hxk1].
  pose proof (gmres_maybe_restart_resumed prec A b n restart t1 c x1 sa1 sb1 Hres1 Hxk1)
    as Hres2.
  specialize (IH _ _ Hres2).
  destruct (gmres_loop _ _ _ _ _ _ _ _ fuel (gmres_maybe_restart prec A b n restart sa1))
    as [sa'| |],
    (gmres_loop _ _ _ _ _ _ _ _ fuel (gmres_maybe_restart prec A b n restart sb1))
    as [sb'| |]; try done.
  destruct IH as [Hres' Hnone]. split; [done|].
  intros Hx. specialize (Hnone Hx). subst sb'.
  rewrite gmres_maybe_restart_xk in Hx. rewrite Hx in Hxk1. by destruct Hxk1.
Qed.

(** The first cycle of a restarted run is the run with the bound [r] and no
    restart, up to the restart itself. *)
Lemma gmres_loop_first_cycle (qr : tensor T → tensor T * tensor T) (prec : vec → vec)
    (A : tensor T) (b : vec) (n r : nat) (k_max : Z) (epsilon : T) (s1 : gmres_state T) :
  (Z.of_nat r < k_max)%Z → st_total_k s1 = r →
  ∀ (fuel1 fa : nat) (st : gmres_state T),
    st_k st = st_total_k st → st_total_k st < r → r - st_total_k st ≤ fa →
    gmres_loop qr prec A b n (Z.of_nat r) None epsilon fuel1 st = Return s1 →
    gmres_loop qr prec A b n k_max (Some (Z.of_nat r)) epsilon fa st
    = gmres_loop qr prec A b n k_max (Some (Z.of_nat r)) epsilon
        (fa - (r - st_total_k st)) (gmres_restart prec A b n s1).
Proof.
  intros Hr Hs1. induction fuel1 as [|fuel1 IH]; intros fa st Hk Ht Hfa; simpl.
  - destruct (gmres_continue epsilon (Z.of_nat r) st); [done|].
    intros [= <-]. lia.
  - destruct (gmres_continue epsilon (Z.of_nat r) st) eqn:Hc;
      [|intros [= <-]; lia].
    assert (Hc' : gmres_continue epsilon k_max st = true).
    { unfold gmres_continue in *. apply andb_prop in Hc as [-> _]. simpl.
      apply Z.ltb_lt. lia. }
    destruct fa as [|fa]; [lia|]. simpl. rewrite Hc'.
    destruct (gmres_iter qr prec A n st) as [st1| |] eqn:Hit; simpl_outcome; [|done..].
    apply gmres_iter_Return in Hit as (Hk1 & Ht1 & _).
    intros Hloop.
    destruct (Z.eqb_spec (Z.of_nat (st_k st1)) (Z.of_nat r)) as [Heq|Hne].
    + assert (Hst1 : st1 = s1).
      { destruct fuel1; simpl in Hloop;
          (destruct (gmres_continue epsilon (Z.of_nat r) st1) eqn:Hc1;
           [|by injection Hloop]);
          unfold gmres_continue in Hc1; apply andb_prop in Hc1 as [_ Hlt];
          apply Z.ltb_lt in Hlt; lia. }
      subst st1. f_equal. lia.
    + rewrite (IH fa st1) by (done || lia). f_equal. lia.
Qed.

(** X17. What a restart does.  Let the run with bound [r] and no restart
    complete its [r] iterations and return the iterate [x1] with the trace
    [t1].  Then the run with restart period [r] and a larger bound is that
    cycle followed by a fresh restarted run from [x1] with what is left of
    the bound: it returns the iterate of the second run, the trace [t1]
    followed by the trace of the second run without its seed, and the sum
    of the two iteration counts.  When the loop of the second run is not
    entered, the restarted run returns [x1], [t1] and [r]. *)
Theorem precon_GMRES_restarted_restart_cycle (qr : tensor T → tensor T * tensor T)
    (prec : vec → vec) (A : tensor T) (b : vec) (x0 : option vec) (r : nat)
    (k_max : option Z) (epsilon : T) (x1 : vec) (t1 : list T) :
  (Z.of_nat r < clamp_k_max k_max (rows A))%Z →
  precon_GMRES_restarted qr prec A b x0 (Some (Z.of_nat r)) None epsilon
  = Return (x1, t1, r) →
  match precon_GMRES_restarted qr prec A b (Some x1)
          (Some (clamp_k_max k_max (rows A) - Z.of_nat r)%Z) (Some (Z.of_nat r)) epsilon with
  | Return (x2, t2, total2) =>
      precon_GMRES_restarted qr prec A b x0 k_max (Some (Z.of_nat r)) epsilon
      = Return (x2, t1 ++ tail t2, r + total2)
  | _ =>
      precon_GMRES_restarted qr prec A b x0 k_max (Some (Z.of_nat r)) epsilon
      = Return (x1, t1, r)
  end.
Proof.
  intros Hr Hrun1.
  set (K := clamp_k_max k_max (rows A)) in *.
  assert (HK : (K ≤ Z.of_nat (rows A))%Z).
  { unfold K, clamp_k_max. destruct k_max as [m|]; [|lia].
    destruct (Z.ltb_spec (Z.of_nat (rows A)) m); lia. }
  assert (Hr1 : clamp_k_max (Some (Z.of_nat r)) (rows A) = Z.of_nat r).
  { unfold clamp_k_max. destruct (Z.ltb_spec (Z.of_nat (rows A)) (Z.of_nat r)); lia. }
  assert (HK2 : clamp_k_max (Some (K - Z.of_nat r)%Z) (rows A) = (K - Z.of_nat r)%Z).
  { unfold clamp_k_max. destruct (Z.ltb_spec (Z.of_nat (rows A)) (K - Z.of_nat r)); lia. }
  assert (Hpos : 1 ≤ r).
  { pose proof (precon_GMRES_restarted_outcome qr prec A b x0 (Some (Z.of_nat r)) None
                  epsilon) as Hout.
    rewrite Hrun1 in Hout. destruct (gmres_continue _ _ _); [|done].
    destruct Hout as (? & ? & ? & [= _ _ <-] & ?). done. }
  unfold precon_GMRES_restarted in Hrun1. rewrite Hr1 in Hrun1.
  destruct (gmres_loop _ _ _ _ _ _ None _ _ _) as [s1| |] eqn:Hloop1;
    simpl_outcome; [|done..].
  unfold gmres_return in Hrun1. destruct (st_xk s1) as [xk1|] eqn:Hxk1; [|done].
  injection Hrun1 as -> Ht1 Htot1.
  unfold precon_GMRES_restarted. fold K.
  rewrite (gmres_loop_first_cycle qr prec A b (rows A) r K epsilon s1 Hr Htot1
             _ (Z.to_nat K) (gmres_init prec A b x0) eq_refl ltac:(simpl; lia)
             ltac:(simpl; lia) Hloop1).
  replace (clamp_k_max (Some (K - Z.of_nat r)%Z) (rows A)) with (K - Z.of_nat r)%Z.
  replace (Z.to_nat K - (r - st_total_k (gmres_init prec A b x0)))
    with (Z.to_nat (K - Z.of_nat r)) by (simpl; lia).
  assert (Hres : resumed t1 r x1 (gmres_restart prec A b (rows A) s1)
                         (gmres_init prec A b (Some x1))).
  { unfold resumed, gmres_restart, gmres_init. simpl. rewrite Hxk1. simpl.
    repeat (split; [done || lia|]). split; [|done].
    eexists _, []. split; [reflexivity|]. by rewrite app_nil_r. }
  pose proof (gmres_loop_resumed qr prec A b (rows A) (K - Z.of_nat r)%Z
                (Some (Z.of_nat r)) epsilon t1 r x1 (Z.to_nat (K - Z.of_nat r))
                _ _ Hres) as Hsim.
  replace (Z.of_nat r + (K - Z.of_nat r))%Z with K in Hsim by lia.
  destruct (gmres_loop_returns qr prec A b (rows A) (K - Z.of_nat r)%Z
              (Some (Z.of_nat r)) epsilon (Z.to_nat (K - Z.of_nat r)) ltac:(lia)
              (gmres_init prec A b (Some x1)) (gmres_init_shapes _ _ _ _)
              ltac:(simpl; lia)) as (sb' & Hloopb & _).
  rewrite Hloopb in Hsim |- *.
  destruct (gmres_loop _ _ _ _ _ K _ _ _ _) as [sa'|ea|]; [|done..].
  simpl_outcome.
  destruct Hsim as [Hres' Hnone].
  destruct Hres' as (_ & _ & _ & _ & _ & _ & _ & _ & Ht & (seed & rest & He & Ha) & Hx).
  unfold gmres_return. rewrite Hx.
  destruct (st_xk sb') as [x2|] eqn:Hx2; simpl.
  - by rewrite Ha, He, Ht.
  - rewrite (Hnone eq_refl) in Ht, He. simpl in Ht, He.
    injection He as _ <-. rewrite Ha, Ht, app_nil_r. do 2 f_equal. lia.
Qed.

End DriverRestart.

Lemma precon_GMRES_restarted_restart_cycle_witness :
  match precon_GMRES_restarted IEEE.qr_identity (fun x => x)
          (of_rows [[IEEE.f2; IEEE.f1]; [IEEE.f1; IEEE.f2]]) [IEEE.f1; IEEE.f0]
          (Some [PrimFloat.div IEEE.f1 IEEE.f2; IEEE.f0])
          (Some (clamp_k_max None
                   (rows (of_rows [[IEEE.f2; IEEE.f1]; [IEEE.f1; IEEE.f2]]))
                 - Z.of_nat 1)%Z)
          (Some (Z.of_nat 1)) s_1em12 with
  | Return (x2, t2, total2) =>
      precon_GMRES_restarted IEEE.qr_identity (fun x => x)
        (of_rows [[IEEE.f2; IEEE.f1]; [IEEE.f1; IEEE.f2]]) [IEEE.f1; IEEE.f0]
        None None (Some (Z.of_nat 1)) s_1em12
      = Return (x2, [IEEE.f1; IEEE.f1] ++ tail t2, 1 + total2)
  | _ =>
      precon_GMRES_restarted IEEE.qr_identity (fun x => x)
        (of_rows [[IEEE.f2; IEEE.f1]; [IEEE.f1; IEEE.f2]]) [IEEE.f1; IEEE.f0]
        None None (Some (Z.of_nat 1)) s_1em12
      = Return ([PrimFloat.div IEEE.f1 IEEE.f2; IEEE.f0], [IEEE.f1; IEEE.f1], 1)
  end.
Proof.
  apply (precon_GMRES_restarted_restart_cycle IEEE.qr_identity (fun x => x)
           (of_rows [[IEEE.f2; IEEE.f1]; [IEEE.f1; IEEE.f2]]) [IEEE.f1; IEEE.f0]
           None 1 None s_1em12 [PrimFloat.div IEEE.f1 IEEE.f2; IEEE.f0]
           [IEEE.f1; IEEE.f1]).
  - vm_compute. reflexivity.
  - vm_compute. reflexivity.
Defined.
